(** * Verification of ls1-mardyn's VectorizedCellProcessor and one-stage halo exchange

    Shallow embedding of:
    - [VectorizedCellProcessor::processCell] / [processCellPair] (cell traversal dispatch),
    - [VectorizedCellProcessor::_loopBodyLJ] (one SIMD lane, exact real arithmetic),
    - the kernel loop and the Newton-3 force stores of
      [VectorizedCellProcessor::_calculatePairs],
    - the reaction-field prefactor [_epsRFInvrc3] of the constructor,
    - [VectorizedCellProcessor::calcDistLookup] (scalar [VCP_NOVEC] build),
    - [NeighbourCommunicationScheme1Stage::finalizeExchangeMoleculesMPI],
    - the exit paths of [Mirror::readXML]. *)

From Stdlib Require Import List Bool Arith Lia ZArith QArith Qabs Lqa.
From Stdlib Require Import Reals Lra.
From Stdlib Require Import String Permutation.
Import ListNotations.

(* ------------------------------------------------------------------ *)
(** ** Cells and traversal dispatch *)

Module Traversal.

(** The two force policies [_calculatePairs] is instantiated with. *)
Inductive ForcePolicy := SingleCellPolicy_ | CellPairPolicy_.

(** The part of a [ParticleCell] the dispatch reads: [isHaloCell()],
    [getCellIndex()] and [getCellDataSoA()->_mol_num]. *)
Record ParticleCell := mkCell {
  isHaloCell : bool;
  getCellIndex : nat;
  mol_num : nat
}.

Section Dispatch.

(** The processor's mutable state: SoA force/torque accumulators and the
    sums [_upot6lj], [_upotXpoles], [_virial], [_myRF]. *)
Variable State : Type.

(** [_calculatePairs<ForcePolicy, CalculateMacroscopic>(soa1, soa2)]. *)
Variable calculatePairs : ForcePolicy -> bool -> ParticleCell -> ParticleCell -> State -> State.

(** [VectorizedCellProcessor::processCell]. *)
Definition processCell (c : ParticleCell) (st : State) : State :=
  if isHaloCell c || (mol_num c <? 2) then st
  else calculatePairs SingleCellPolicy_ true c c st.

(** [VectorizedCellProcessor::processCellPair]. *)
Definition processCellPair (c1 c2 : ParticleCell) (st : State) : State :=
  if (mol_num c1 =? 0) || (mol_num c2 =? 0) then st
  else if negb (isHaloCell c1 || isHaloCell c2) then
    calculatePairs CellPairPolicy_ true c1 c2 st
  else if Bool.eqb (isHaloCell c1) (negb (isHaloCell c2)) then
    if getCellIndex c1 <? getCellIndex c2 then
      calculatePairs CellPairPolicy_ true c1 c2 st
    else
      calculatePairs CellPairPolicy_ false c1 c2 st
  else st.

End Dispatch.

(** A concrete state recording every invocation of [_calculatePairs]
    as (policy, calculateMacroscopic, index of c1, index of c2). *)
Definition CallLog := list (ForcePolicy * bool * nat * nat).

Definition logPairs (p : ForcePolicy) (m : bool) (c1 c2 : ParticleCell) (l : CallLog) : CallLog :=
  l ++ [(p, m, getCellIndex c1, getCellIndex c2)].

End Traversal.

(* ------------------------------------------------------------------ *)
(** ** The Lennard-Jones lane kernel [_loopBodyLJ] *)

Module LJ.

Local Open Scope R_scope.

(** [vcp_simd_applymask]: a bitwise AND with an all-ones or all-zero lane. *)
Definition applymask (x : R) (mask : bool) : R := if mask then x else 0.

Record vec3 := mkVec3 { vx : R; vy : R; vz : R }.

(** One lane of [_loopBodyLJ<calculateMacroscopic>]: the site positions
    [r1], [r2], the molecule centres [m1], [m2], the running sums, the
    force mask and the parameters.  Returns the force written to [f_x, f_y,
    f_z] and the updated [sum_upot6lj], [sum_virial]. *)
Definition loopBodyLJ (calculateMacroscopic : bool)
    (m1 r1 m2 r2 : vec3) (sum_upot6lj sum_virial : R) (forceMask : bool)
    (eps_24 sig2 shift6 : R) : vec3 * R * R :=
  let c_dx := vx r1 - vx r2 in
  let c_dy := vy r1 - vy r2 in
  let c_dz := vz r1 - vz r2 in
  let c_r2 := c_dx * c_dx + c_dy * c_dy + c_dz * c_dz in
  let r2_inv_unmasked := 1 / c_r2 in
  let r2_inv := applymask r2_inv_unmasked forceMask in
  let lj2 := sig2 * r2_inv in
  let lj4 := lj2 * lj2 in
  let lj6 := lj4 * lj2 in
  let lj12 := lj6 * lj6 in
  let lj12m6 := lj12 - lj6 in
  let eps24r2inv := eps_24 * r2_inv in
  let lj12lj12m6 := lj12 + lj12m6 in
  let scale := eps24r2inv * lj12lj12m6 in
  let f := mkVec3 (c_dx * scale) (c_dy * scale) (c_dz * scale) in
  let m_dx := vx m1 - vx m2 in
  let m_dy := vy m1 - vy m2 in
  let m_dz := vz m1 - vz m2 in
  if calculateMacroscopic then
    let upot_sh := eps_24 * lj12m6 + shift6 in
    let upot_masked := applymask upot_sh forceMask in
    let virial := m_dx * vx f + m_dy * vy f + m_dz * vz f in
    (f, sum_upot6lj + upot_masked, sum_virial + virial)
  else (f, sum_upot6lj, sum_virial).

End LJ.

(* ------------------------------------------------------------------ *)
(** ** The multipole lane kernels of [VectorizedCellProcessor]

    One SIMD lane of [_loopBodyCharge], [_loopBodyChargeDipole],
    [_loopBodyDipole], [_loopBodyChargeQuadrupole],
    [_loopBodyDipoleQuadrupole] and [_loopBodyQuadrupole], in exact real
    arithmetic.  The SIMD helpers live in SIMD_DEFINITIONS.hpp, which is not
    among the sources; their lane meaning is read off their names and the
    comments at their call sites ([vcp_simd_fnma(five, x, e1e2)] is
    "-five*x+e1e2"). *)

Module Kernels.

Import LJ.
Local Open Scope R_scope.

Definition fma (a b c : R) : R := a * b + c.
Definition fms (a b c : R) : R := a * b - c.
Definition fnma (a b c : R) : R := c - a * b.
Definition scalProd (a1 a2 a3 b1 b2 b3 : R) : R := a1 * b1 + a2 * b2 + a3 * b3.

Definition zeroV : vec3 := mkVec3 0 0 0.

(** [_loopBodyCharge<calculateMacroscopic>]: force, [sum_upotXpoles],
    [sum_virial]. *)
Definition loopBodyCharge (calculateMacroscopic : bool)
    (m1 r1 : vec3) (qii : R) (m2 r2 : vec3) (qjj : R)
    (sum_upotXpoles sum_virial : R) (forceMask : bool) : vec3 * R * R :=
  let c_dx := vx r1 - vx r2 in
  let c_dy := vy r1 - vy r2 in
  let c_dz := vz r1 - vz r2 in
  let c_dr2 := scalProd c_dx c_dy c_dz c_dx c_dy c_dz in
  let c_dr2_inv_unmasked := 1 / c_dr2 in
  let c_dr2_inv := applymask c_dr2_inv_unmasked forceMask in
  let c_dr_inv := sqrt c_dr2_inv in
  let q1q2per4pie0 := qii * qjj in
  let upot := q1q2per4pie0 * c_dr_inv in
  let fac := upot * c_dr2_inv in
  let f := mkVec3 (c_dx * fac) (c_dy * fac) (c_dz * fac) in
  let m_dx := vx m1 - vx m2 in
  let m_dy := vy m1 - vy m2 in
  let m_dz := vz m1 - vz m2 in
  if calculateMacroscopic then
    let virial := scalProd m_dx m_dy m_dz (vx f) (vy f) (vz f) in
    (f, sum_upotXpoles + upot, sum_virial + virial)
  else (f, sum_upotXpoles, sum_virial).

(** [_loopBodyChargeDipole<calculateMacroscopic>]: the charge at [r1], the
    dipole at [r2] with axis [e] and moment [p]; force, torque [M] on the
    dipole, [sum_upotXpoles], [sum_virial]. *)
Definition loopBodyChargeDipole (calculateMacroscopic : bool)
    (m1 r1 : vec3) (q : R) (m2 r2 e : vec3) (p : R)
    (sum_upotXpoles sum_virial : R) (forceMask : bool) : vec3 * vec3 * R * R :=
  let dx := vx r1 - vx r2 in
  let dy := vy r1 - vy r2 in
  let dz := vz r1 - vz r2 in
  let dr2 := scalProd dx dy dz dx dy dz in
  let dr2_inv_unmasked := 1 / dr2 in
  let dr2_inv := applymask dr2_inv_unmasked forceMask in
  let dr_inv := sqrt dr2_inv in
  let dr3_inv := dr2_inv * dr_inv in
  let re := scalProd dx dy dz (vx e) (vy e) (vz e) in
  let qpper4pie0 := q * p in
  let qpper4pie0dr3 := qpper4pie0 * dr3_inv in
  let fac := dr2_inv * 3 * re in
  let f := mkVec3 (qpper4pie0dr3 * fnma dx fac (vx e))
                  (qpper4pie0dr3 * fnma dy fac (vy e))
                  (qpper4pie0dr3 * fnma dz fac (vz e)) in
  let m_dx := vx m1 - vx m2 in
  let m_dy := vy m1 - vy m2 in
  let m_dz := vz m1 - vz m2 in
  let '(su, sv) :=
    if calculateMacroscopic then
      let minusUpot := qpper4pie0dr3 * re in
      let virial := scalProd m_dx m_dy m_dz (vx f) (vy f) (vz f) in
      (sum_upotXpoles - minusUpot, sum_virial + virial)
    else (sum_upotXpoles, sum_virial) in
  let e_x_dy_minus_e_y_dx := fms (vx e) dy (vy e * dx) in
  let e_y_dz_minus_e_z_dy := fms (vy e) dz (vz e * dy) in
  let e_z_dx_minus_e_x_dz := fms (vz e) dx (vx e * dz) in
  let M := mkVec3 (qpper4pie0dr3 * e_y_dz_minus_e_z_dy)
                  (qpper4pie0dr3 * e_z_dx_minus_e_x_dz)
                  (qpper4pie0dr3 * e_x_dy_minus_e_y_dx) in
  (f, M, su, sv).

(** [_loopBodyDipole<calculateMacroscopic>]: dipoles at [r1] (axis [eii],
    moment [pii]) and [r2] ([ejj], [pjj]); force, torques [M1], [M2],
    [sum_upotXpoles], [sum_virial], [sum_myRF]. *)
Definition loopBodyDipole (calculateMacroscopic : bool)
    (m1 r1 eii : vec3) (pii : R) (m2 r2 ejj : vec3) (pjj : R)
    (sum_upotXpoles sum_virial sum_myRF : R) (forceMask : bool) (epsRFInvrc3 : R)
    : vec3 * vec3 * vec3 * R * R * R :=
  let dx := vx r1 - vx r2 in
  let dy := vy r1 - vy r2 in
  let dz := vz r1 - vz r2 in
  let dr2 := scalProd dx dy dz dx dy dz in
  let dr2_inv_unmasked := 1 / dr2 in
  let dr2_inv := applymask dr2_inv_unmasked forceMask in
  let dr_inv := sqrt dr2_inv in
  let dr2three_inv := 3 * dr2_inv in
  let p1p2 := applymask (pii * pjj) forceMask in
  let p1p2per4pie0 := p1p2 in
  let rffac := p1p2 * epsRFInvrc3 in
  let p1p2per4pie0r3 := p1p2per4pie0 * dr_inv * dr2_inv in
  let p1p2threeper4pie0r5 := p1p2per4pie0r3 * dr2three_inv in
  let e1e2 := scalProd (vx eii) (vy eii) (vz eii) (vx ejj) (vy ejj) (vz ejj) in
  let re1 := scalProd dx dy dz (vx eii) (vy eii) (vz eii) in
  let re2 := scalProd dx dy dz (vx ejj) (vy ejj) (vz ejj) in
  let re1threeperr2 := re1 * dr2three_inv in
  let re2threeperr2 := re2 * dr2three_inv in
  let re1re2perr2 := dr2_inv * re1 * re2 in
  let e1e2minus5re1re2perr2 := fnma 5 re1re2perr2 e1e2 in
  let f := mkVec3
    (p1p2threeper4pie0r5 * scalProd dx (vx eii) (vx ejj) e1e2minus5re1re2perr2 re2 re1)
    (p1p2threeper4pie0r5 * scalProd dy (vy eii) (vy ejj) e1e2minus5re1re2perr2 re2 re1)
    (p1p2threeper4pie0r5 * scalProd dz (vz eii) (vz ejj) e1e2minus5re1re2perr2 re2 re1) in
  let m_dx := vx m1 - vx m2 in
  let m_dy := vy m1 - vy m2 in
  let m_dz := vz m1 - vz m2 in
  let '(su, sv, srf) :=
    if calculateMacroscopic then
      let upot := p1p2per4pie0r3 * fnma 3 re1re2perr2 e1e2 in
      let virial := scalProd m_dx m_dy m_dz (vx f) (vy f) (vz f) in
      (sum_upotXpoles + upot, sum_virial + virial, fma rffac e1e2 sum_myRF)
    else (sum_upotXpoles, sum_virial, sum_myRF) in
  let e1_x_e2_y_minus_e1_y_e2_x := fms (vx eii) (vy ejj) (vy eii * vx ejj) in
  let e1_y_e2_z_minus_e1_z_e2_y := fms (vy eii) (vz ejj) (vz eii * vy ejj) in
  let e1_z_e2_x_minus_e1_x_e2_z := fms (vz eii) (vx ejj) (vx eii * vz ejj) in
  let M1 := mkVec3
    (fma p1p2per4pie0r3 (fms re2threeperr2 (fms (vy eii) dz (vz eii * dy)) e1_y_e2_z_minus_e1_z_e2_y)
         (rffac * e1_y_e2_z_minus_e1_z_e2_y))
    (fma p1p2per4pie0r3 (fms re2threeperr2 (fms (vz eii) dx (vx eii * dz)) e1_z_e2_x_minus_e1_x_e2_z)
         (rffac * e1_z_e2_x_minus_e1_x_e2_z))
    (fma p1p2per4pie0r3 (fms re2threeperr2 (fms (vx eii) dy (vy eii * dx)) e1_x_e2_y_minus_e1_y_e2_x)
         (rffac * e1_x_e2_y_minus_e1_y_e2_x)) in
  let M2 := mkVec3
    (fms p1p2per4pie0r3 (fma re1threeperr2 (fms (vy ejj) dz (vz ejj * dy)) e1_y_e2_z_minus_e1_z_e2_y)
         (rffac * e1_y_e2_z_minus_e1_z_e2_y))
    (fms p1p2per4pie0r3 (fma re1threeperr2 (fms (vz ejj) dx (vx ejj * dz)) e1_z_e2_x_minus_e1_x_e2_z)
         (rffac * e1_z_e2_x_minus_e1_x_e2_z))
    (fms p1p2per4pie0r3 (fma re1threeperr2 (fms (vx ejj) dy (vy ejj * dx)) e1_x_e2_y_minus_e1_y_e2_x)
         (rffac * e1_x_e2_y_minus_e1_y_e2_x)) in
  (f, M1, M2, su, sv, srf).

(** [_loopBodyChargeQuadrupole<calculateMacroscopic>]: the charge [q] at
    [r1], the quadrupole at [r2] with axis [ejj] and moment [m]; force,
    torque [M] on the quadrupole, [sum_upotXpoles], [sum_virial]. *)
Definition loopBodyChargeQuadrupole (calculateMacroscopic : bool)
    (m1 r1 : vec3) (q : R) (m2 r2 ejj : vec3) (m : R)
    (sum_upotXpoles sum_virial : R) (forceMask : bool) : vec3 * vec3 * R * R :=
  let c_dx := vx r1 - vx r2 in
  let c_dy := vy r1 - vy r2 in
  let c_dz := vz r1 - vz r2 in
  let c_dr2 := scalProd c_dx c_dy c_dz c_dx c_dy c_dz in
  let invdr2_unmasked := 1 / c_dr2 in
  let invdr2 := applymask invdr2_unmasked forceMask in
  let invdr := sqrt invdr2 in
  let qQ05per4pie0 := 0.5 * q * m in
  let costj := scalProd (vx ejj) (vy ejj) (vz ejj) c_dx c_dy c_dz * invdr in
  let qQinv4dr3 := qQ05per4pie0 * invdr * invdr2 in
  let part1 := 3 * costj * costj in
  let upot := qQinv4dr3 * (part1 - 1) in
  let minus_partialRijInvdr := 3 * upot * invdr2 in
  let partialTjInvdr := 6 * costj * qQinv4dr3 * invdr in
  let fac := fma (costj * partialTjInvdr) invdr minus_partialRijInvdr in
  let f := mkVec3 (fms fac c_dx (partialTjInvdr * vx ejj))
                  (fms fac c_dy (partialTjInvdr * vy ejj))
                  (fms fac c_dz (partialTjInvdr * vz ejj)) in
  let m_dx := vx m1 - vx m2 in
  let m_dy := vy m1 - vy m2 in
  let m_dz := vz m1 - vz m2 in
  let '(su, sv) :=
    if calculateMacroscopic then
      let virial := scalProd m_dx m_dy m_dz (vx f) (vy f) (vz f) in
      (sum_upotXpoles + upot, sum_virial + virial)
    else (sum_upotXpoles, sum_virial) in
  let minuseXrij_x := fms (vz ejj) c_dy (vy ejj * c_dz) in
  let minuseXrij_y := fms (vx ejj) c_dz (vz ejj * c_dx) in
  let minuseXrij_z := fms (vy ejj) c_dx (vx ejj * c_dy) in
  let M := mkVec3 (partialTjInvdr * minuseXrij_x) (partialTjInvdr * minuseXrij_y)
                  (partialTjInvdr * minuseXrij_z) in
  (f, M, su, sv).

(** [_loopBodyDipoleQuadrupole<calculateMacroscopic>]: the dipole at [r1]
    (axis [eii], moment [p]), the quadrupole at [r2] (axis [ejj], moment
    [m]); force, torques [M1], [M2], [sum_upotXpoles], [sum_virial]. *)
Definition loopBodyDipoleQuadrupole (calculateMacroscopic : bool)
    (m1 r1 eii : vec3) (p : R) (m2 r2 ejj : vec3) (m : R)
    (sum_upotXpoles sum_virial : R) (forceMask : bool) : vec3 * vec3 * vec3 * R * R :=
  let c_dx := vx r1 - vx r2 in
  let c_dy := vy r1 - vy r2 in
  let c_dz := vz r1 - vz r2 in
  let c_dr2 := scalProd c_dx c_dy c_dz c_dx c_dy c_dz in
  let invdr2_unmasked := 1 / c_dr2 in
  let invdr2 := applymask invdr2_unmasked forceMask in
  let invdr := sqrt invdr2 in
  let myqfac := 1.5 * p * m * invdr2 * invdr2 in
  let costi := scalProd (vx eii) (vy eii) (vz eii) c_dx c_dy c_dz * invdr in
  let costj := scalProd (vx ejj) (vy ejj) (vz ejj) c_dx c_dy c_dz * invdr in
  let cos2tj := costj * costj in
  let cosgij := scalProd (vx eii) (vy eii) (vz eii) (vx ejj) (vy ejj) (vz ejj) in
  let _5cos2tjminus1 := fms 5 cos2tj 1 in
  let _2costj := 2 * costj in
  let part1 := costi * _5cos2tjminus1 in
  let part2 := _2costj * cosgij in
  let upot := myqfac * (part2 - part1) in
  let myqfacXinvdr := myqfac * invdr in
  let minus_partialRijInvdr := 4 * upot * invdr2 in
  let minus_partialTiInvdr := myqfacXinvdr * _5cos2tjminus1 in
  let part1' := fms 5 (costi * costj) cosgij in
  let minus_partialTjInvdr := myqfacXinvdr * 2 * part1' in
  let partialGij := myqfac * _2costj in
  let part3 := fma costi minus_partialTiInvdr (costj * minus_partialTjInvdr) in
  let fac := fnma part3 invdr minus_partialRijInvdr in
  let f := mkVec3
    (scalProd fac minus_partialTiInvdr minus_partialTjInvdr c_dx (vx eii) (vx ejj))
    (scalProd fac minus_partialTiInvdr minus_partialTjInvdr c_dy (vy eii) (vy ejj))
    (scalProd fac minus_partialTiInvdr minus_partialTjInvdr c_dz (vz eii) (vz ejj)) in
  let m_dx := vx m1 - vx m2 in
  let m_dy := vy m1 - vy m2 in
  let m_dz := vz m1 - vz m2 in
  let '(su, sv) :=
    if calculateMacroscopic then
      let virial := scalProd m_dx m_dy m_dz (vx f) (vy f) (vz f) in
      (sum_upotXpoles + upot, sum_virial + virial)
    else (sum_upotXpoles, sum_virial) in
  let eii_x_ejj_y_minus_eii_y_ejj_x := fms (vx eii) (vy ejj) (vy eii * vx ejj) in
  let eii_y_ejj_z_minus_eii_z_ejj_y := fms (vy eii) (vz ejj) (vz eii * vy ejj) in
  let eii_z_ejj_x_minus_eii_x_ejj_z := fms (vz eii) (vx ejj) (vx eii * vz ejj) in
  let partialGij_eiXej_x := partialGij * eii_y_ejj_z_minus_eii_z_ejj_y in
  let partialGij_eiXej_y := partialGij * eii_z_ejj_x_minus_eii_x_ejj_z in
  let partialGij_eiXej_z := partialGij * eii_x_ejj_y_minus_eii_y_ejj_x in
  let M1 := mkVec3
    (fms minus_partialTiInvdr (fms (vy eii) c_dz (vz eii * c_dy)) partialGij_eiXej_x)
    (fms minus_partialTiInvdr (fms (vz eii) c_dx (vx eii * c_dz)) partialGij_eiXej_y)
    (fms minus_partialTiInvdr (fms (vx eii) c_dy (vy eii * c_dx)) partialGij_eiXej_z) in
  let M2 := mkVec3
    (fma minus_partialTjInvdr (fms (vy ejj) c_dz (vz ejj * c_dy)) partialGij_eiXej_x)
    (fma minus_partialTjInvdr (fms (vz ejj) c_dx (vx ejj * c_dz)) partialGij_eiXej_y)
    (fma minus_partialTjInvdr (fms (vx ejj) c_dy (vy ejj * c_dx)) partialGij_eiXej_z) in
  (f, M1, M2, su, sv).

(** [_loopBodyQuadrupole<calculateMacroscopic>]: quadrupoles at [r1]
    (axis [eii], moment [mii]) and [r2] ([ejj], [mjj]); force, torques
    [Mii], [Mjj], [sum_upotXpoles], [sum_virial]. *)
Definition loopBodyQuadrupole (calculateMacroscopic : bool)
    (m1 r1 eii : vec3) (mii : R) (m2 r2 ejj : vec3) (mjj : R)
    (sum_upotXpoles sum_virial : R) (forceMask : bool) : vec3 * vec3 * vec3 * R * R :=
  let c_dx := vx r1 - vx r2 in
  let c_dy := vy r1 - vy r2 in
  let c_dz := vz r1 - vz r2 in
  let c_dr2 := scalProd c_dx c_dy c_dz c_dx c_dy c_dz in
  let invdr2_unmasked := 1 / c_dr2 in
  let invdr2 := applymask invdr2_unmasked forceMask in
  let invdr := sqrt invdr2 in
  let qfac0 := 0.75 * invdr in
  let qfac1 := qfac0 * (mii * mjj) in
  let qfac := qfac1 * (invdr2 * invdr2) in
  let costi := scalProd (vx eii) (vy eii) (vz eii) c_dx c_dy c_dz * invdr in
  let costj := scalProd (vx ejj) (vy ejj) (vz ejj) c_dx c_dy c_dz * invdr in
  let cos2ti := costi * costi in
  let cos2tj := costj * costj in
  let cosgij := scalProd (vx eii) (vy eii) (vz eii) (vx ejj) (vy ejj) (vz ejj) in
  let term0 := 5 * (costi * costj) in
  let term := cosgij - term0 in
  let part2 := 15 * cos2ti * cos2tj in
  let part3 := 2 * term * term in
  let upot0 := fma 5 (cos2ti + cos2tj) part2 in
  let upot1 := (1 + part3) - upot0 in
  let upot := qfac * upot1 in
  let minus_partialRijInvdr := 5 * upot * invdr2 in
  let part1 := qfac * 10 * invdr in
  let part2' := 2 * term in
  let part3' := 3 * costi * cos2tj in
  let part4 := costi + fma part2' costj part3' in
  let minus_partialTiInvdr := part1 * part4 in
  let part3'' := 3 * costj * cos2ti in
  let part4' := costj + fma part2' costi part3'' in
  let minus_partialTjInvdr := part1 * part4' in
  let partialGij := qfac * 4 * term in
  let part1' := minus_partialTiInvdr * costi in
  let part2'' := minus_partialTjInvdr * costj in
  let fac := fnma (part1' + part2'') invdr minus_partialRijInvdr in
  let f := mkVec3
    (scalProd fac minus_partialTiInvdr minus_partialTjInvdr c_dx (vx eii) (vx ejj))
    (scalProd fac minus_partialTiInvdr minus_partialTjInvdr c_dy (vy eii) (vy ejj))
    (scalProd fac minus_partialTiInvdr minus_partialTjInvdr c_dz (vz eii) (vz ejj)) in
  let m_dx := vx m1 - vx m2 in
  let m_dy := vy m1 - vy m2 in
  let m_dz := vz m1 - vz m2 in
  let '(su, sv) :=
    if calculateMacroscopic then
      let virial := scalProd m_dx m_dy m_dz (vx f) (vy f) (vz f) in
      (sum_upotXpoles + upot, sum_virial + virial)
    else (sum_upotXpoles, sum_virial) in
  let eii_x_ejj_y_minus_eii_y_ejj_x := fms (vx eii) (vy ejj) (vy eii * vx ejj) in
  let eii_y_ejj_z_minus_eii_z_ejj_y := fms (vy eii) (vz ejj) (vz eii * vy ejj) in
  let eii_z_ejj_x_minus_eii_x_ejj_z := fms (vz eii) (vx ejj) (vx eii * vz ejj) in
  let partialGij_eiXej_x := partialGij * eii_y_ejj_z_minus_eii_z_ejj_y in
  let partialGij_eiXej_y := partialGij * eii_z_ejj_x_minus_eii_x_ejj_z in
  let partialGij_eiXej_z := partialGij * eii_x_ejj_y_minus_eii_y_ejj_x in
  let Mii := mkVec3
    (fms minus_partialTiInvdr (fms (vy eii) c_dz (vz eii * c_dy)) partialGij_eiXej_x)
    (fms minus_partialTiInvdr (fms (vz eii) c_dx (vx eii * c_dz)) partialGij_eiXej_y)
    (fms minus_partialTiInvdr (fms (vx eii) c_dy (vy eii * c_dx)) partialGij_eiXej_z) in
  let Mjj := mkVec3
    (fma minus_partialTjInvdr (fms (vy ejj) c_dz (vz ejj * c_dy)) partialGij_eiXej_x)
    (fma minus_partialTjInvdr (fms (vz ejj) c_dx (vx ejj * c_dz)) partialGij_eiXej_y)
    (fma minus_partialTjInvdr (fms (vx ejj) c_dy (vy ejj * c_dx)) partialGij_eiXej_z) in
  (f, Mii, Mjj, su, sv).

(** [a . b] for the torque checks. *)
Definition dot (a b : vec3) : R := vx a * vx b + vy a * vy b + vz a * vz b.

Definition vneg (a : vec3) : vec3 := mkVec3 (- vx a) (- vy a) (- vz a).

End Kernels.

(* ------------------------------------------------------------------ *)
(** ** The pair loop [_calculatePairs] *)

Module PairCalc.

Import Traversal LJ Kernels.
Local Open Scope R_scope.

(** One lane of one kernel invocation in the loops of
    [_calculatePairs<ForcePolicy, CalculateMacroscopic>]: the kernel called
    and the inputs loaded for it from the two SoAs (site and molecule
    positions, charges, axes, moments, the force mask read from the
    distance lookup, the LJ parameters).  The [switched] argument of
    [_loopBodyChargeDipole], [_loopBodyChargeQuadrupole] and
    [_loopBodyDipoleQuadrupole] is not read by their bodies and is left
    out.  The ten call sites map to these constructors; the dipole-charge,
    quadrupole-charge and quadrupole-dipole sites pass the second cell's
    site first. *)
Inductive KernelCall :=
| CallLJ (m1 r1 m2 r2 : vec3) (forceMask : bool) (eps_24 sig2 shift6 : R)
| CallCharge (m1 r1 : vec3) (qii : R) (m2 r2 : vec3) (qjj : R) (forceMask : bool)
| CallChargeDipole (m1 r1 : vec3) (q : R) (m2 r2 e : vec3) (p : R) (forceMask : bool)
| CallDipole (m1 r1 eii : vec3) (pii : R) (m2 r2 ejj : vec3) (pjj : R) (forceMask : bool)
    (epsRFInvrc3 : R)
| CallChargeQuadrupole (m1 r1 : vec3) (q : R) (m2 r2 ejj : vec3) (m : R) (forceMask : bool)
| CallDipoleQuadrupole (m1 r1 eii : vec3) (p : R) (m2 r2 ejj : vec3) (m : R) (forceMask : bool)
| CallQuadrupole (m1 r1 eii : vec3) (mii : R) (m2 r2 ejj : vec3) (mjj : R) (forceMask : bool).

(** What a call hands to the SoA stores: the force [f] (added to the
    first site's [sum_f1], subtracted from the second site's force) and the
    torques it returns (none, [M], or [M1] and [M2]). *)
Definition KernelOut := (vec3 * list vec3)%type.

(** The local accumulators [sum_upot6lj], [sum_upotXpoles], [sum_virial],
    [sum_myRF]. *)
Record Sums := mkSums { s_upot6lj : R; s_upotXpoles : R; s_virial : R; s_myRF : R }.

(** [VCP_SIMD_ZEROV] for all four. *)
Definition zeroSums : Sums := mkSums 0 0 0 0.

(** One kernel call: the accumulators it is handed are the ones the call
    site passes ([sum_upot6lj, sum_virial] for LJ, [sum_upotXpoles,
    sum_virial] for the multipoles, plus [sum_myRF] for dipole-dipole). *)
Definition runCall (calculateMacroscopic : bool) (k : KernelCall) (s : Sums) : KernelOut * Sums :=
  match k with
  | CallLJ m1 r1 m2 r2 mask eps_24 sig2 shift6 =>
      let '(f, su, sv) :=
        loopBodyLJ calculateMacroscopic m1 r1 m2 r2 (s_upot6lj s) (s_virial s) mask eps_24 sig2 shift6 in
      ((f, []), mkSums su (s_upotXpoles s) sv (s_myRF s))
  | CallCharge m1 r1 qii m2 r2 qjj mask =>
      let '(f, su, sv) :=
        loopBodyCharge calculateMacroscopic m1 r1 qii m2 r2 qjj (s_upotXpoles s) (s_virial s) mask in
      ((f, []), mkSums (s_upot6lj s) su sv (s_myRF s))
  | CallChargeDipole m1 r1 q m2 r2 e p mask =>
      let '(f, M, su, sv) :=
        loopBodyChargeDipole calculateMacroscopic m1 r1 q m2 r2 e p (s_upotXpoles s) (s_virial s) mask in
      ((f, [M]), mkSums (s_upot6lj s) su sv (s_myRF s))
  | CallDipole m1 r1 eii pii m2 r2 ejj pjj mask epsRFInvrc3 =>
      let '(f, M1, M2, su, sv, srf) :=
        loopBodyDipole calculateMacroscopic m1 r1 eii pii m2 r2 ejj pjj
          (s_upotXpoles s) (s_virial s) (s_myRF s) mask epsRFInvrc3 in
      ((f, [M1; M2]), mkSums (s_upot6lj s) su sv srf)
  | CallChargeQuadrupole m1 r1 q m2 r2 ejj m mask =>
      let '(f, M, su, sv) :=
        loopBodyChargeQuadrupole calculateMacroscopic m1 r1 q m2 r2 ejj m (s_upotXpoles s) (s_virial s) mask in
      ((f, [M]), mkSums (s_upot6lj s) su sv (s_myRF s))
  | CallDipoleQuadrupole m1 r1 eii p m2 r2 ejj m mask =>
      let '(f, M1, M2, su, sv) :=
        loopBodyDipoleQuadrupole calculateMacroscopic m1 r1 eii p m2 r2 ejj m
          (s_upotXpoles s) (s_virial s) mask in
      ((f, [M1; M2]), mkSums (s_upot6lj s) su sv (s_myRF s))
  | CallQuadrupole m1 r1 eii mii m2 r2 ejj mjj mask =>
      let '(f, M1, M2, su, sv) :=
        loopBodyQuadrupole calculateMacroscopic m1 r1 eii mii m2 r2 ejj mjj
          (s_upotXpoles s) (s_virial s) mask in
      ((f, [M1; M2]), mkSums (s_upot6lj s) su sv (s_myRF s))
  end.

(** The calls in loop order, threading the accumulators. *)
Fixpoint runCalls (calculateMacroscopic : bool) (ks : list KernelCall) (s : Sums)
    : list KernelOut * Sums :=
  match ks with
  | [] => ([], s)
  | k :: ks' =>
      let '(o, s1) := runCall calculateMacroscopic k s in
      let '(os, s2) := runCalls calculateMacroscopic ks' s1 in
      (o :: os, s2)
  end.

(** The processor state [_calculatePairs] touches: the sequence of kernel
    outputs handed to the SoA force and torque stores, and the members
    [_upot6lj], [_upotXpoles], [_virial], [_myRF]. *)
Record PState := mkPState {
  forceLog : list KernelOut;
  upot6lj : R;
  upotXpoles : R;
  virial : R;
  myRF : R
}.

Section Loop.

(** The kernel calls the loops of [_calculatePairs] make for a pair of
    SoAs: the loop bounds, [ForcePolicy::InitJ], the distance lookup
    ([calcDistLookup]) and the loaded inputs are computed from positions,
    charges, axes, moments and the cut-offs only; the template argument
    [CalculateMacroscopic], the force arrays and the accumulators are not
    read by the loop control, so the sequence is a function of the policy
    and the two cells. *)
Variable schedule : ForcePolicy -> ParticleCell -> ParticleCell -> list KernelCall.

(** [_calculatePairs<ForcePolicy, CalculateMacroscopic>(soa1, soa2)]: the
    accumulators start at zero, every call's outputs go to the stores, and
    at the end [hSum_Add_Store] adds [sum_upot6lj], [sum_upotXpoles],
    [sum_virial] and [zero - sum_myRF] to the members. *)
Definition calculatePairs (pol : ForcePolicy) (calculateMacroscopic : bool)
    (c1 c2 : ParticleCell) (st : PState) : PState :=
  let '(outs, s) := runCalls calculateMacroscopic (schedule pol c1 c2) zeroSums in
  mkPState (forceLog st ++ outs)
           (upot6lj st + s_upot6lj s)
           (upotXpoles st + s_upotXpoles s)
           (virial st + s_virial s)
           (myRF st + (0 - s_myRF s)).

End Loop.

(** Componentwise sum of accumulators. *)
Definition addSums (a b : Sums) : Sums :=
  mkSums (s_upot6lj a + s_upot6lj b) (s_upotXpoles a + s_upotXpoles b)
         (s_virial a + s_virial b) (s_myRF a + s_myRF b).

(** What one call adds to the accumulators with [calculateMacroscopic]. *)
Definition contrib (k : KernelCall) : Sums := snd (runCall true k zeroSums).

(** The outputs one call hands to the stores. *)
Definition callOut (k : KernelCall) : KernelOut := fst (runCall true k zeroSums).

Fixpoint sumContrib (ks : list KernelCall) : Sums :=
  match ks with
  | [] => zeroSums
  | k :: ks' => addSums (contrib k) (sumContrib ks')
  end.

End PairCalc.

(* ------------------------------------------------------------------ *)
(** ** Traversal bookkeeping of [VectorizedCellProcessor] *)

Module SoAPipeline.

Import LJ.
Local Open Scope R_scope.

(** The processor's four sums and its pool [_particleCellDataVector] of
    unused [CellDataSoA] buffers; [B] names a buffer. *)
Record VCP (B : Type) := mkVCP {
  virial : R; upot6lj : R; upotXpoles : R; myRF : R;
  particleCellDataVector : list B
}.
Arguments mkVCP {B}.
Arguments virial {B}. Arguments upot6lj {B}. Arguments upotXpoles {B}.
Arguments myRF {B}. Arguments particleCellDataVector {B}.

(** [VectorizedCellProcessor::initTraversal(numCells)], with the heap as
    an allocation counter: [alloc a] is the buffer of the allocation
    numbered [a], and [next] the number of the next one.  Each iteration
    [i = size, ..., numCells - 1] pushes back its own
    [new CellDataSoA(64,64,64,64,64)]; returns the processor and the
    counter after the allocations. *)
Definition initTraversal {B : Type} (alloc : nat -> B) (next : nat) (numCells : nat)
    (s : VCP B) : VCP B * nat :=
  let pool := particleCellDataVector s in
  if Nat.ltb (List.length pool) numCells
  then (mkVCP 0 0 0 0 (pool ++ map alloc (seq next (numCells - List.length pool))),
        next + (numCells - List.length pool))%nat
  else (mkVCP 0 0 0 0 pool, next).

(** [VectorizedCellProcessor::endTraversal]: the values passed to
    [_domain.setLocalVirial] and [_domain.setLocalUpot]. *)
Definition endTraversal {B : Type} (s : VCP B) : R * R :=
  (virial s + 3 * myRF s, upot6lj s / 6 + upotXpoles s + myRF s).

(** The cells' [getCellDataSoA()] pointers, by cell index ([None] for a
    null pointer). *)
Definition CellSoAs (B : Type) := list (option B).

(** [preprocessCell(c)], its pool handling: [assert(!c.getCellDataSoA())]
    and [assert(!_particleCellDataVector.empty())] (a failed assertion is
    [None]), then the cell takes the pool's last buffer, which is popped.
    A cell index outside the cell list is a failed assertion too. *)
Definition preprocessPool {B : Type} (i : nat) (pool : list B) (cells : CellSoAs B)
    : option (list B * CellSoAs B) :=
  match nth_error cells i with
  | Some None =>
      match rev pool with
      | [] => None
      | b :: rest => Some (rev rest, firstn i cells ++ Some b :: skipn (S i) cells)
      end
  | _ => None
  end.

(** [postprocessCell(c)], its pool handling: [assert(c.getCellDataSoA())],
    the buffer is pushed back onto the pool and the cell's pointer reset. *)
Definition postprocessPool {B : Type} (i : nat) (pool : list B) (cells : CellSoAs B)
    : option (list B * CellSoAs B) :=
  match nth_error cells i with
  | Some (Some b) => Some (pool ++ [b], firstn i cells ++ None :: skipn (S i) cells)
  | _ => None
  end.

(** The buffers the cells hold. *)
Definition held {B : Type} (cells : CellSoAs B) : list B :=
  flat_map (fun o => match o with Some b => [b] | None => [] end) cells.

(** A traversal's sequence of [preprocessCell] and [postprocessCell]
    calls, their pool handling only; the first failed assertion stops it. *)
Inductive CellCall := Pre (i : nat) | Post (i : nat).

Fixpoint runPool {B : Type} (calls : list CellCall) (pool : list B) (cells : CellSoAs B)
    : option (list B * CellSoAs B) :=
  match calls with
  | [] => Some (pool, cells)
  | Pre i :: rest =>
      match preprocessPool i pool cells with
      | Some (p, c) => runPool rest p c
      | None => None
      end
  | Post i :: rest =>
      match postprocessPool i pool cells with
      | Some (p, c) => runPool rest p c
      | None => None
      end
  end.

(** The part of a [Molecule] the LJ-centre loops of [preprocessCell] and
    [postprocessCell] read and write. *)
Record Molecule := mkMolecule {
  mol_r : vec3;
  componentid : nat;
  numLJcenters : nat;
  ljcenter_d : nat -> vec3;
  ljc_force : nat -> vec3
}.

(** One LJ-centre entry of the SoA as [preprocessCell] fills it. *)
Record LJEntry := mkLJEntry {
  ljc_m_r : vec3; ljc_r : vec3; ljc_f : vec3; ljc_id : nat; ljc_dist_lookup : R
}.

Definition vplus (a b : vec3) : vec3 := mkVec3 (vx a + vx b) (vy a + vy b) (vz a + vz b).

(** The LJ-centre loop of [preprocessCell]: entries in the order of the
    running index [iLJCenters]. *)
Definition preprocessLJ (compIDs : nat -> nat) (molecules : list Molecule) : list LJEntry :=
  flat_map (fun m =>
    map (fun j => mkLJEntry (mol_r m) (vplus (ljcenter_d m j) (mol_r m)) (mkVec3 0 0 0)
                            (compIDs (componentid m) + j) 0)
        (seq 0 (numLJcenters m)))
    molecules.

(** [Molecule::Fljcenteradd(i, f)]. *)
Definition Fljcenteradd (m : Molecule) (i : nat) (f : vec3) : Molecule :=
  mkMolecule (mol_r m) (componentid m) (numLJcenters m) (ljcenter_d m)
    (fun k => if Nat.eqb k i then vplus (ljc_force m k) f else ljc_force m k).

(** The LJ-centre loop of [postprocessCell] for one molecule, from the
    running index [iLJCenters]. *)
Fixpoint addCenterForces (soa_f : nat -> vec3) (m : Molecule) (iLJCenters i n : nat) : Molecule :=
  match n with
  | O => m
  | S n' => addCenterForces soa_f (Fljcenteradd m i (soa_f iLJCenters)) (S iLJCenters) (S i) n'
  end.

Fixpoint postprocessLJ (soa_f : nat -> vec3) (iLJCenters : nat) (molecules : list Molecule)
    : list Molecule :=
  match molecules with
  | [] => []
  | m :: rest =>
      addCenterForces soa_f m iLJCenters 0 (numLJcenters m)
      :: postprocessLJ soa_f (iLJCenters + numLJcenters m) rest
  end.

(** The first SoA index of molecule [k]'s LJ centres. *)
Definition ljOffset (molecules : list Molecule) (k : nat) : nat :=
  list_sum (map numLJcenters (firstn k molecules)).

(** A component of the ensemble: [ID()] and [numLJcenters()]. *)
Record Component := mkComponent { compID : nat; compLJ : nat }.

Fixpoint setNth (l : list nat) (i v : nat) : list nat :=
  match l, i with
  | [], _ => []
  | _ :: t, O => v :: t
  | h :: t, S i' => h :: setNth t i' v
  end.

(** The [_compIDs] table of the constructor: [maxID], [resize(maxID + 1,
    0)], then [_compIDs[c->ID()] = centers; centers += numLJcenters()]
    over the components in order.  Returns the table and [centers]. *)
Definition buildCompIDs (components : list Component) : list nat * nat :=
  let maxID := fold_left (fun acc c => Nat.max acc (compID c)) components 0%nat in
  fold_left (fun '(tbl, centers) c => (setNth tbl (compID c) centers, (centers + compLJ c)%nat))
    components (repeat 0%nat (S maxID), 0%nat).

End SoAPipeline.

(* ------------------------------------------------------------------ *)
(** ** Newton-3 force stores of [_calculatePairs] *)

Module Newton3.

Local Open Scope R_scope.

(** The ten site-kind blocks of [_calculatePairs], in source order. *)
Inductive PairBlock :=
  | LJ_LJ
  | Charge_Charge | Dipole_Charge | Quadrupole_Charge
  | Dipole_Dipole | Charge_Dipole | Quadrupole_Dipole
  | Quadrupole_Quadrupole | Charge_Quadrupole | Dipole_Quadrupole.

(** The kernel routine each block calls. *)
Inductive Routine :=
  | RLJ | RCharge | RChargeDipole | RChargeQuadrupole
  | RDipole | RDipoleQuadrupole | RQuadrupole.

Definition routine (b : PairBlock) : Routine :=
  match b with
  | LJ_LJ => RLJ
  | Charge_Charge => RCharge
  | Dipole_Charge | Charge_Dipole => RChargeDipole
  | Quadrupole_Charge | Charge_Quadrupole => RChargeQuadrupole
  | Dipole_Dipole => RDipole
  | Quadrupole_Dipole | Dipole_Quadrupole => RDipoleQuadrupole
  | Quadrupole_Quadrupole => RQuadrupole
  end.

(** How the block stores the kernel's force [f]: [true] when the source
    sum does [sum_f1 = sum_f1 + f] and the target does [f2 = f2 - f]
    ([vcp_simd_load_sub_store]); [false] when the source does
    [sum_f1 = vcp_simd_sub(sum_f1, f)] and the target
    [vcp_simd_load_add_store(f2, f)] (the blocks that call a kernel with
    the source and target roles swapped). *)
Definition sourceAdds (b : PairBlock) : bool :=
  match b with
  | LJ_LJ | Charge_Charge | Dipole_Dipole | Charge_Dipole
  | Quadrupole_Quadrupole | Charge_Quadrupole | Dipole_Quadrupole => true
  | Dipole_Charge | Quadrupole_Charge | Quadrupole_Dipole => false
  end.

Record vec3 := mkVec3 { vx : R; vy : R; vz : R }.

Definition vadd (a b : vec3) : vec3 := mkVec3 (vx a + vx b) (vy a + vy b) (vz a + vz b).
Definition vsub (a b : vec3) : vec3 := mkVec3 (vx a - vx b) (vy a - vy b) (vz a - vz b).
Definition vopp (a : vec3) : vec3 := mkVec3 (- vx a) (- vy a) (- vz a).

(** Force accumulators of the target cell's sites, indexed by [j]. *)
Definition Forces := nat -> vec3.

Definition upd (f2 : Forces) (j : nat) (v : vec3) : Forces :=
  fun k => if Nat.eqb k j then v else f2 k.

(** One iteration of a block's inner [j] loop, after the kernel returned
    the force [f] for the lane [j]: update of [sum_f1] and of the target
    accumulator [soa2_*_f + j]. *)
Definition pairStore (b : PairBlock) (j : nat) (f : vec3) (sum_f1 : vec3) (f2 : Forces)
    : vec3 * Forces :=
  if sourceAdds b then (vadd sum_f1 f, upd f2 j (vsub (f2 j) f))
  else (vsub sum_f1 f, upd f2 j (vadd (f2 j) f)).

(** The whole inner [j] loop for one source site over the kernel's lane
    outputs, starting from [sum_f1 = VCP_SIMD_ZEROV], followed by
    [hSum_Add_Store] into the source accumulator [f1]. *)
Fixpoint innerLoop (b : PairBlock) (lanes : list (nat * vec3)) (sum_f1 : vec3) (f2 : Forces)
    : vec3 * Forces :=
  match lanes with
  | [] => (sum_f1, f2)
  | (j, f) :: rest =>
      let '(s, f2') := pairStore b j f sum_f1 f2 in innerLoop b rest s f2'
  end.

Definition zero3 : vec3 := mkVec3 0 0 0.

Definition sourceSite (b : PairBlock) (lanes : list (nat * vec3)) (f1 : vec3) (f2 : Forces)
    : vec3 * Forces :=
  let '(s, f2') := innerLoop b lanes zero3 f2 in (vadd f1 s, f2').

End Newton3.

(* ------------------------------------------------------------------ *)
(** ** Reaction-field prefactor *)

Module ReactionField.

Local Open Scope R_scope.

(** [_epsRFInvrc3] as the constructor initialises it from
    [domain.getepsilonRF()] and [cutoffRadius]. *)
Definition epsRFInvrc3 (epsilonRF cutoffRadius : R) : R :=
  2 * (epsilonRF - 1) / ((cutoffRadius * cutoffRadius * cutoffRadius) * (2 * epsilonRF + 1)).

End ReactionField.

(* ------------------------------------------------------------------ *)
(** ** [calcDistLookup], scalar ([VCP_NOVEC]) build *)

Module DistLookup.

Local Open Scope Q_scope.

Definition qltb (x y : Q) : bool := negb (Qle_bool y x).

(** The mask word [forceMask = ~0l] of an interacting centre, an
    [unsigned long]: all 64 bits set. *)
Definition ALL_ONES : Z := Z.ones 64.

(** The conversion of a 64-bit [unsigned long] value [v] to [double]
    (round to nearest, ties to even, to 53 significant bits), as the
    assignment of an [unsigned long] to a [double] element does it; the
    result is the (integer) value of the [double]. *)
Local Open Scope Z_scope.
Definition ulongToDouble (v : Z) : Z :=
  let sh := Z.log2 v - 52 in
  if sh <=? 0 then v
  else
    let q := Z.shiftr v sh in
    let r := v - Z.shiftl q sh in
    let half := Z.shiftl 1 (sh - 1) in
    let q' := if half <? r then q + 1
              else if r =? half then (if Z.odd q then q + 1 else q)
              else q in
    Z.shiftl q' sh.
Local Close Scope Z_scope.

(** The two policies.  Their members ([InitJ], [Condition]) live in
    VectorizedCellProcessor.h, which is not part of the sources here. *)
Inductive ForcePolicy := SingleCellPolicy_ | CellPairPolicy_.

(** Modelled from the spec: [ForcePolicy::InitJ] (VectorizedCellProcessor.h).
    "SingleCellPolicy: same cell; lower bound for j is source_site_index + 1.
     CellPairPolicy: distinct cells; lower bound for j is 0." *)
Definition InitJ (P : ForcePolicy) (i : nat) : nat :=
  match P with
  | SingleCellPolicy_ => S i
  | CellPairPolicy_ => 0%nat
  end.

(** Modelled from the spec: [ForcePolicy::Condition] (VectorizedCellProcessor.h):
    "the squared COM separation is below the cutoff squared". *)
Definition Condition (P : ForcePolicy) (m_r2 cutoffRadiusSquare : Q) : bool :=
  qltb m_r2 cutoffRadiusSquare.

(** The target cell's [soa2_center_dist_lookup] array of [double]s, as a
    memory holding their values. *)
Definition Lookup := nat -> Q.

Definition upd (a : Lookup) (j : nat) (v : Q) : Lookup :=
  fun k => if Nat.eqb k j then v else a k.

(** The [for (j = InitJ(i_center_idx); j < soa2_num_centers; ++j)] loop,
    [n] iterations left; the accumulator is [compute_molecule].  The
    [unsigned long forceMask] is stored in the [double] element
    [*(soa2_center_dist_lookup + j)] by numeric conversion. *)
Fixpoint distLoop (P : ForcePolicy) (mx my mz : Q) (m2x m2y m2z : nat -> Q)
    (cutoffRadiusSquare : Q) (j n : nat) (lookup : Lookup) (compute_molecule : Z)
    : Lookup * Z :=
  match n with
  | O => (lookup, compute_molecule)
  | S n' =>
      let m_dx := mx - m2x j in
      let m_dy := my - m2y j in
      let m_dz := mz - m2z j in
      let m_r2 := m_dx * m_dx + m_dy * m_dy + m_dz * m_dz in
      let forceMask := if Condition P m_r2 cutoffRadiusSquare then ALL_ONES else 0%Z in
      distLoop P mx my mz m2x m2y m2z cutoffRadiusSquare (S j) n'
        (upd lookup j (inject_Z (ulongToDouble forceMask))) (Z.lor compute_molecule forceMask)
  end.

(** [calcDistLookup<ForcePolicy>] ([VCP_NOVEC]): source molecule centre
    [soa1._mol_pos_*[i]] = ([mx], [my], [mz]), source centre index
    [i_center_idx], target centre count [soa2_num_centers], target centre
    COM arrays [soa2_m_r_*].  Returns the updated lookup array and
    [compute_molecule]. *)
Definition calcDistLookup (P : ForcePolicy) (mx my mz : Q) (i_center_idx soa2_num_centers : nat)
    (cutoffRadiusSquare : Q) (lookup : Lookup) (m2x m2y m2z : nat -> Q) : Lookup * Z :=
  let j0 := InitJ P i_center_idx in
  distLoop P mx my mz m2x m2y m2z cutoffRadiusSquare j0 (soa2_num_centers - j0) lookup 0%Z.

(** Squared COM separation of the source molecule to target centre [j]. *)
Definition comDist2 (mx my mz : Q) (m2x m2y m2z : nat -> Q) (j : nat) : Q :=
  (mx - m2x j) * (mx - m2x j) + (my - m2y j) * (my - m2y j) + (mz - m2z j) * (mz - m2z j).

(** The mask word the loop computes for centre [j]. *)
Definition maskAt (P : ForcePolicy) (mx my mz : Q) (m2x m2y m2z : nat -> Q) (rc2 : Q)
    (j : nat) : Z :=
  if Condition P (comDist2 mx my mz m2x m2y m2z j) rc2 then ALL_ONES else 0%Z.

(** Two molecules of one LJ centre each in one cell, at x = 0 and x = 1. *)
Definition ex_m2x (j : nat) : Q := if Nat.eqb j 1 then 1 else 0.
Definition ex_m2y (j : nat) : Q := 0.
Definition ex_m2z (j : nat) : Q := 0.

End DistLookup.

(* ------------------------------------------------------------------ *)
(** ** One-stage halo exchange: [finalizeExchangeMoleculesMPI] *)

Module Halo.

Local Open Scope Q_scope.

Definition qltb (x y : Q) : bool := negb (Qle_bool y x).

(** What one pass of the [while (not allDone)] loop observes: the waiting
    time [MPI_Wtime() - startTime] read after unpacking, and the results of
    [testSend()], [iprobeCount(...)] and [testRecv(...)] per neighbour rank. *)
Record Obs := mkObs {
  ob_time : Q;
  ob_send : Z -> bool;
  ob_probe : Z -> bool;
  ob_recv : Z -> bool
}.

(** Observable actions of the loop. *)
Inductive Event :=
  | EvTestSend (rank : Z)
  | EvIprobeCount (rank : Z)
  | EvTestRecv (rank : Z) (removeRecvDuplicates : bool)
  | EvWarning (waitCounter : Q)
  | EvDiagnostic (rank : Z)   (** [deadlockDiagnosticSendRecv()] *)
  | EvError (deadlockTimeOut : Q)
  | EvExit (code : Z).        (** [global_simulation->exit(code)] *)

Inductive Outcome := Completed | Exited (code : Z) | Pending.

(** The neighbours the loop talks to: [_neighbours[0][i].getRank() != getRank()]. *)
Definition others (me : Z) (neighbours : list Z) : list Z :=
  filter (fun r => negb (Z.eqb r me)) neighbours.

Definition deadlockTimeOut : Q := 60.

(** [allDone] after one pass: every [testSend()], [iprobeCount(...)] and
    [testRecv(...)] of the pass returned true (all are called: [&=] does
    not short-circuit). *)
Definition passDone (me : Z) (neighbours : list Z) (o : Obs) : bool :=
  let ns := others me neighbours in
  forallb (ob_send o) ns && forallb (ob_probe o) ns && forallb (ob_recv o) ns.

(** The [while (not allDone)] loop, one observation per pass; [Pending]
    when the observations run out before the loop ends. *)
Fixpoint finalizeLoop (me : Z) (neighbours : list Z) (removeRecvDuplicates : bool)
    (waitCounter : Q) (obs : list Obs) : list Event * Outcome :=
  match obs with
  | [] => ([], Pending)
  | o :: rest =>
      let ns := others me neighbours in
      let allDone := passDone me neighbours o in
      let ev_comm := map EvTestSend ns ++ map EvIprobeCount ns
                     ++ map (fun r => EvTestRecv r removeRecvDuplicates) ns in
      let waitingTime := ob_time o in
      let warn := qltb waitCounter waitingTime in
      let ev_warn := if warn then EvWarning waitCounter :: map EvDiagnostic ns else [] in
      let waitCounter' := if warn then waitCounter + 1 else waitCounter in
      if qltb deadlockTimeOut waitingTime then
        (ev_comm ++ ev_warn ++ [EvError deadlockTimeOut] ++ map EvDiagnostic ns ++ [EvExit 457%Z],
         Exited 457)
      else if allDone then (ev_comm ++ ev_warn, Completed)
      else
        let '(evs, out) := finalizeLoop me neighbours removeRecvDuplicates waitCounter' rest in
        (ev_comm ++ ev_warn ++ evs, out)
  end.

(** [NeighbourCommunicationScheme1Stage::finalizeExchangeMoleculesMPI]:
    [removeRecvDuplicates &= _coversWholeDomain[d]] for [d = 0, 1, 2], then
    the loop with [waitCounter = 1.0]. *)
Definition finalizeExchangeMoleculesMPI (me : Z) (neighbours : list Z)
    (removeRecvDuplicates : bool) (coversWholeDomain : bool * bool * bool)
    (obs : list Obs) : list Event * Outcome :=
  let '(c0, c1, c2) := coversWholeDomain in
  let rrd := removeRecvDuplicates && c0 && c1 && c2 in
  finalizeLoop me neighbours rrd 1 obs.

(** Modelled from the spec: the merge done by [CommunicationPartner::testRecv]
    (CommunicationPartner.cpp is not part of the sources here): received
    molecules (by id) are appended to the halo cells; "the exchange removes
    duplicates by molecule id when merging into halo cells" when asked to. *)
Definition mergeReceived (removeRecvDuplicates : bool) (halo received : list Z) : list Z :=
  if removeRecvDuplicates
  then halo ++ filter (fun id => negb (existsb (Z.eqb id) halo)) received
  else halo ++ received.

(** A pass after which the loop goes on: no timeout and not [allDone]. *)
Definition continues (me : Z) (neighbours : list Z) (pre : list Obs) : bool :=
  forallb (fun o => Qle_bool (ob_time o) deadlockTimeOut && negb (passDone me neighbours o)) pre.

(** Every pass lasts less than one second: each waiting time is below the
    previous one plus one (the first below [0 + 1]). *)
Fixpoint fastPasses (prev : Q) (obs : list Obs) : Prop :=
  match obs with
  | [] => True
  | o :: rest => ob_time o < prev + 1 /\ fastPasses (ob_time o) rest
  end.

(** The warning counters in a trace, in order. *)
Fixpoint warnings (evs : list Event) : list Q :=
  match evs with
  | [] => []
  | EvWarning w :: rest => w :: warnings rest
  | _ :: rest => warnings rest
  end.

(** [w, w+1, ..., w+(n-1)]. *)
Fixpoint qseq (w : Q) (n : nat) : list Q :=
  match n with
  | O => []
  | S n' => w :: qseq (w + 1) n'
  end.

(** [n] as a rational. *)
Definition qnat (n : nat) : Q := inject_Z (Z.of_nat n).

(** The [testRecv] events of a trace carry the flag [rrd]. *)
Definition recvFlagIs (rrd : bool) (e : Event) : Prop :=
  match e with EvTestRecv _ b => b = rrd | _ => True end.

(** The calls one pass of [finalizeLoop] makes: [testSend()],
    [iprobeCount(...)] and [testRecv(..., removeRecvDuplicates)] for each
    neighbour in turn. *)
Definition passCalls (ns : list Z) (removeRecvDuplicates : bool) : list Event :=
  map EvTestSend ns ++ map EvIprobeCount ns
  ++ map (fun r => EvTestRecv r removeRecvDuplicates) ns.

(** The deadlock warning of a pass of [finalizeLoop] with counter
    [waitCounter] and waiting time [t]: the warning and one
    [deadlockDiagnosticSendRecv()] per neighbour if [t > waitCounter],
    nothing otherwise. *)
Definition passWarning (ns : list Z) (waitCounter t : Q) : list Event :=
  if qltb waitCounter t then EvWarning waitCounter :: map EvDiagnostic ns else [].

(** A pass with nothing completed after a waiting time of [t] seconds. *)
Definition silentPass (t : Q) : Obs :=
  mkObs t (fun _ => false) (fun _ => false) (fun _ => false).

End Halo.

(* ------------------------------------------------------------------ *)
(** ** One-stage initialisation and the three-stage scheme *)

Module Halo3.

Import Halo.
Local Open Scope Q_scope.

Inductive MessageType := LEAVING_AND_HALO_COPIES | LEAVING_ONLY | HALO_COPIES.

(** The calls of the exchange initialisation: the sequential
    [DomainDecompBase::handleDomainLeavingParticles(d, ...)] and
    [DomainDecompBase::populateHaloLayerWithCopies(d, ...)], and
    [initSend] to a partner rank. *)
Inductive InitEvent :=
  | HandleLeaving (d : nat)
  | PopulateHalo (d : nat)
  | InitSend (rank : Z).

(** [_coversWholeDomain[d]] for [d < 3]. *)
Definition coversAt (coversWholeDomain : bool * bool * bool) (d : nat) : bool :=
  let '(c0, c1, c2) := coversWholeDomain in
  match d with 0 => c0 | 1 => c1 | 2 => c2 | _ => false end%nat.

(** The [switch (msgType)] of the sequential version for dimension [d]. *)
Definition sequentialExchange (d : nat) (msgType : MessageType) : list InitEvent :=
  match msgType with
  | LEAVING_AND_HALO_COPIES => [HandleLeaving d; PopulateHalo d]
  | LEAVING_ONLY => [HandleLeaving d]
  | HALO_COPIES => [PopulateHalo d]
  end.

(** [NeighbourCommunicationScheme1Stage::initExchangeMoleculesMPI]: the
    sequential version for every covered dimension, then [initSend] to every
    partner of [_neighbours[0]] whose rank is not the own rank. *)
Definition initExchangeMoleculesMPI (me : Z) (neighbours : list Z) (msgType : MessageType)
    (coversWholeDomain : bool * bool * bool) : list InitEvent :=
  flat_map (fun d => if coversAt coversWholeDomain d then sequentialExchange d msgType else [])
    [0; 1; 2]%nat
  ++ map InitSend (others me neighbours).

(** [NeighbourCommunicationScheme3Stage::initExchangeMoleculesMPI1D]: the
    sequential version if dimension [d] is covered, otherwise [initSend] to
    every partner of [_neighbours[d]] (no rank test). *)
Definition initExchangeMoleculesMPI1D (neighbours_d : list Z) (msgType : MessageType)
    (coversWholeDomain : bool * bool * bool) (d : nat) : list InitEvent :=
  if coversAt coversWholeDomain d then sequentialExchange d msgType
  else map InitSend neighbours_d.

(** The [while (not allDone)] loop of
    [NeighbourCommunicationScheme3Stage::finalizeExchangeMoleculesMPI1D]:
    the loop of the one-stage scheme over every partner of [_neighbours[d]],
    without the rank test. *)
Fixpoint finalizeLoop1D (neighbours_d : list Z) (removeRecvDuplicates : bool)
    (waitCounter : Q) (obs : list Obs) : list Event * Outcome :=
  match obs with
  | [] => ([], Pending)
  | o :: rest =>
      let ns := neighbours_d in
      let allDone := forallb (ob_send o) ns && forallb (ob_probe o) ns && forallb (ob_recv o) ns in
      let ev_comm := map EvTestSend ns ++ map EvIprobeCount ns
                     ++ map (fun r => EvTestRecv r removeRecvDuplicates) ns in
      let waitingTime := ob_time o in
      let warn := qltb waitCounter waitingTime in
      let ev_warn := if warn then EvWarning waitCounter :: map EvDiagnostic ns else [] in
      let waitCounter' := if warn then waitCounter + 1 else waitCounter in
      if qltb deadlockTimeOut waitingTime then
        (ev_comm ++ ev_warn ++ [EvError deadlockTimeOut] ++ map EvDiagnostic ns ++ [EvExit 457%Z],
         Exited 457)
      else if allDone then (ev_comm ++ ev_warn, Completed)
      else
        let '(evs, out) := finalizeLoop1D neighbours_d removeRecvDuplicates waitCounter' rest in
        (ev_comm ++ ev_warn ++ evs, out)
  end.

(** [NeighbourCommunicationScheme3Stage::finalizeExchangeMoleculesMPI1D]:
    an immediate [return] for a covered dimension, otherwise the loop with
    [waitCounter = 1.0] and the caller's [removeRecvDuplicates]. *)
Definition finalizeExchangeMoleculesMPI1D (neighbours_d : list Z) (removeRecvDuplicates : bool)
    (coversWholeDomain : bool * bool * bool) (d : nat) (obs : list Obs) : list Event * Outcome :=
  if coversAt coversWholeDomain d then ([], Completed)
  else finalizeLoop1D neighbours_d removeRecvDuplicates 1 obs.

(** [NeighbourCommunicationScheme3Stage::exchangeMoleculesMPI]: for each
    dimension [exchangeMoleculesMPI1D], i.e. [initExchangeMoleculesMPI1D]
    then [finalizeExchangeMoleculesMPI1D]; an exit or a loop still waiting
    ends the trace.  [neighbours d] is [_neighbours[d]], [obs d] the passes
    of dimension [d]'s loop. *)
Fixpoint exchangeDims (ds : list nat) (neighbours : nat -> list Z) (msgType : MessageType)
    (removeRecvDuplicates : bool) (coversWholeDomain : bool * bool * bool)
    (obs : nat -> list Obs) : list (InitEvent + Event) * Outcome :=
  match ds with
  | [] => ([], Completed)
  | d :: rest =>
      let ini := map inl (initExchangeMoleculesMPI1D (neighbours d) msgType coversWholeDomain d) in
      let '(evs, out) :=
        finalizeExchangeMoleculesMPI1D (neighbours d) removeRecvDuplicates coversWholeDomain d (obs d) in
      match out with
      | Completed =>
          let '(evs', out') := exchangeDims rest neighbours msgType removeRecvDuplicates
                                 coversWholeDomain obs in
          (ini ++ map inr evs ++ evs', out')
      | _ => (ini ++ map inr evs, out)
      end
  end.

(** What [exchangeDims] records for dimension [d]: the calls of
    [initExchangeMoleculesMPI1D] and then those of
    [finalizeExchangeMoleculesMPI1D]. *)
Definition dimBlock (neighbours : nat -> list Z) (msgType : MessageType)
    (removeRecvDuplicates : bool) (coversWholeDomain : bool * bool * bool)
    (obs : nat -> list Obs) (d : nat) : list (InitEvent + Event) :=
  map inl (initExchangeMoleculesMPI1D (neighbours d) msgType coversWholeDomain d)
  ++ map inr (fst (finalizeExchangeMoleculesMPI1D (neighbours d) removeRecvDuplicates
                     coversWholeDomain d (obs d))).

Definition exchangeMoleculesMPI3 (neighbours : nat -> list Z) (msgType : MessageType)
    (removeRecvDuplicates : bool) (coversWholeDomain : bool * bool * bool)
    (obs : nat -> list Obs) : list (InitEvent + Event) * Outcome :=
  exchangeDims [0; 1; 2]%nat neighbours msgType removeRecvDuplicates coversWholeDomain obs.

Section Partners.

(** A [CommunicationPartner] with [isFaceCommunicator()],
    [getFaceCommunicationDirection()] and the copy that
    [enlargeInOtherDirections(d, cutoffRadius)] leaves in the list. *)
Context {P H : Type}.
Variable isFaceCommunicator : P -> bool.
Variable getFaceCommunicationDirection : P -> nat.
Variable enlargeInOtherDirections : nat -> P -> P.

Fixpoint setNthList (l : list (list P)) (i : nat) (v : list P) : list (list P) :=
  match l, i with
  | [], _ => []
  | _ :: t, O => v :: t
  | h :: t, S i' => h :: setNthList t i' v
  end.

(** [NeighbourCommunicationScheme3Stage::convert1StageTo3StageNeighbours]:
    a face partner is pushed onto [neighbours[d]] for its direction [d] and
    enlarged there; the others are skipped.  [neighbours[d]] out of range
    is [None]. *)
Fixpoint convert1StageTo3StageNeighbours (commPartners : list P) (neighbours : list (list P))
    : option (list (list P)) :=
  match commPartners with
  | [] => Some neighbours
  | p :: rest =>
      if negb (isFaceCommunicator p) then convert1StageTo3StageNeighbours rest neighbours
      else
        let d := getFaceCommunicationDirection p in
        match nth_error neighbours d with
        | None => None
        | Some l => convert1StageTo3StageNeighbours rest
                      (setNthList neighbours d (l ++ [enlargeInOtherDirections d p]))
        end
  end.

(** [NeighbourCommunicationScheme3Stage::initCommunicationPartners] from the
    halo regions on: [_neighbours[d].clear()] for [d < _commDimms], the
    partners of all halo regions concatenated ([_fullShellNeighbours]),
    then the conversion.  Returns [_fullShellNeighbours] and [_neighbours]. *)
Definition initCommunicationPartners3 (commDimms : nat) (haloRegions : list H)
    (getNeighboursFromHaloRegion : H -> list P) (neighbours : list (list P))
    : option (list P * list (list P)) :=
  let cleared := map (fun _ => []) (firstn commDimms neighbours) ++ skipn commDimms neighbours in
  let commPartners := flat_map getNeighboursFromHaloRegion haloRegions in
  match convert1StageTo3StageNeighbours commPartners cleared with
  | Some n => Some (commPartners, n)
  | None => None
  end.

End Partners.

End Halo3.

(* ------------------------------------------------------------------ *)
(** ** Exit paths of [Mirror::readXML] *)

Module Mirror.

Local Open Scope Z_scope.

(** The mirror types [readXML] dispatches on. *)
Inductive MirrorType :=
  | MT_UNKNOWN | MT_REFLECT | MT_FORCE_CONSTANT | MT_ZERO_GRADIENT
  | MT_NORMDISTR_MB | MT_MELAND_2004 | MT_RAMPING.

(** The XML node: the paths that are present, with their (numeric) values. *)
Definition XMLConfig := list (string * Z).

(** [xmlconfig.getNodeValue(path, v)]: [Some v] when the node is present. *)
Fixpoint getNodeValue (cfg : XMLConfig) (path : string) : option Z :=
  match cfg with
  | [] => None
  | (p, v) :: rest => if String.eqb p path then Some v else getNodeValue rest path
  end.

Definition present (cfg : XMLConfig) (path : string) : bool :=
  match getNodeValue cfg path with Some _ => true | None => false end.

(** Modelled from the spec: [Simulation::exit(code)] (Simulation.cpp is not
    part of the sources here) ends the run with the exit code it is given;
    [readXML] either returns or ends in such a call. *)
Inductive ReadResult := ReadOk | SimExit (code : Z).

(** [position/refID] (default 0), as [int id] read by [getNodeValue]. *)
Definition refID (cfg : XMLConfig) : Z :=
  match getNodeValue cfg "position/refID" with Some i => i | None => 0 end.

(** The position block of [Mirror::readXML] (Mirror.cpp lines 64-83), its
    exit path: [_position.ref.id = (uint16_t)(id)], and for
    [_position.ref.id > 0] [Simulation::exit(-1)] when [getSubject()] is
    [nullptr]; [subjectFound] is [getSubject() != nullptr], i.e. a
    [DistControl] plugin is present. *)
Definition positionBlock (subjectFound : bool) (cfg : XMLConfig) : ReadResult :=
  if (0 <? refID cfg mod 65536) && negb subjectFound then SimExit (-1) else ReadOk.

(** The mirror-type dispatch of [readXML] (the parameter blocks that can
    exit). *)
Definition readXMLType (type : MirrorType) (cfg : XMLConfig) : ReadResult :=
  if (match type with MT_ZERO_GRADIENT => true | _ => false end) then SimExit (-1)
  else if (match type with MT_NORMDISTR_MB => true | _ => false end) then SimExit (-1)
  else if (match type with MT_MELAND_2004 => true | _ => false end) then
    (* "meland/fixed_probability" is optional *)
    if negb (present cfg "meland/velo_target") then SimExit (-2004) else ReadOk
  else if (match type with MT_RAMPING => true | _ => false end) then
    let bRet := present cfg "ramping/start" && present cfg "ramping/stop"
                && present cfg "ramping/treatment" in
    if negb bRet then SimExit (-1)
    else
      match getNodeValue cfg "ramping/start", getNodeValue cfg "ramping/stop",
            getNodeValue cfg "ramping/treatment" with
      | Some start, Some stop, Some treatment =>
          if start >? stop then SimExit (-1)
          else if (treatment =? 0) || (treatment =? 1) then ReadOk
          else SimExit (-1)
      | _, _, _ => ReadOk
      end
  else ReadOk.

(** src/src/plugins/Mirror.cpp, [Mirror::readXML]: the position block, then
    the mirror-type dispatch ([pluginID], [cid] and the other reads cannot
    exit). *)
Definition readXML (subjectFound : bool) (type : MirrorType) (cfg : XMLConfig) : ReadResult :=
  match positionBlock subjectFound cfg with
  | SimExit code => SimExit code
  | ReadOk => readXMLType type cfg
  end.

(** The other revision of [Mirror::readXML] (src/unnamed/part_005), its
    Meland2004 block: both [meland/use_probability] and [meland/velo_target]
    are required. *)
Definition readXML_meland_rev (type : MirrorType) (cfg : XMLConfig) : ReadResult :=
  if (match type with MT_MELAND_2004 => true | _ => false end) then
    let bRet := present cfg "meland/use_probability" && present cfg "meland/velo_target" in
    if negb bRet then SimExit (-2004) else ReadOk
  else ReadOk.

End Mirror.

(* ------------------------------------------------------------------ *)
(** ** Particle handling of [Mirror] (src/src/plugins/Mirror.cpp) *)

Module MirrorDyn.

Import Mirror.
Local Open Scope R_scope.

(** [_direction]: the two named values, and any other value the
    [static_cast<MirrorDirection>] of [direction] can give. *)
Inductive MirrorDirection := MD_LEFT_MIRROR | MD_RIGHT_MIRROR | MD_OTHER_DIRECTION.

Definition isRight (d : MirrorDirection) : bool :=
  match d with MD_RIGHT_MIRROR => true | _ => false end.
Definition isLeft (d : MirrorDirection) : bool :=
  match d with MD_LEFT_MIRROR => true | _ => false end.

Definition Rltb (x y : R) : bool := if Rlt_dec x y then true else false.
Definition Rleb (x y : R) : bool := if Rle_dec x y then true else false.

(** The part of a molecule the mirror reads and writes: [getID()],
    [componentid()], [r(1)], [v(1)] and the y component of its force. *)
Record Particle := mkParticle {
  pid : nat; componentid : nat; ry : R; vy : R; Fy : R
}.

Definition setVy (p : Particle) (v : R) : Particle :=
  mkParticle (pid p) (componentid p) (ry p) v (Fy p).
Definition addFy (p : Particle) (f : R) : Particle :=
  mkParticle (pid p) (componentid p) (ry p) (vy p) (Fy p + f).

(** [(_targetComp != 0) and (cid_ub != _targetComp)]: the particle is
    skipped. *)
Definition skipComp (targetComp : nat) (p : Particle) : bool :=
  negb (Nat.eqb targetComp 0) && negb (Nat.eqb (S (componentid p)) targetComp).

(** The check in front of the particle loops: the mirror plane lies inside
    the container in the direction the mirror acts. *)
Definition mirrorInBox (dir : MirrorDirection) (coord boxMinY boxMaxY : R) : bool :=
  (isRight dir && Rltb coord boxMaxY) || (isLeft dir && Rltb boxMinY coord).

(** The loop body of [Mirror::VelocityChange]. *)
Definition velocityChangeBody (type : MirrorType) (dir : MirrorDirection) (targetComp : nat)
    (coord forceConstant : R) (p : Particle) : Particle :=
  let v := vy p in
  if skipComp targetComp p then p
  else match type with
       | MT_REFLECT =>
           if (isRight dir && Rltb 0 v) || (isLeft dir && Rltb v 0) then setVy p (- v) else p
       | MT_FORCE_CONSTANT =>
           let distance := coord - ry p in
           addFy p (forceConstant * distance)
       | _ => p
       end.

(** [Mirror::VelocityChange] on the particles the region iterator yields. *)
Definition VelocityChange (type : MirrorType) (dir : MirrorDirection) (targetComp : nat)
    (coord forceConstant boxMinY boxMaxY : R) (visited : list Particle) : list Particle :=
  if mirrorInBox dir coord boxMinY boxMaxY
  then map (velocityChangeBody type dir targetComp coord forceConstant) visited
  else visited.

(** *** [getSubject] and [update] *)

(** [Mirror::getSubject]: the [dynamic_cast<SubjectBase*>] of the last
    plugin named ["DistControl"], [None] (nullptr) if there is none.  A
    plugin is its name and the result of the cast. *)
Definition getSubject {S : Type} (plugins : list (string * option S)) : option S :=
  fold_left (fun subject '(name, cast) => if String.eqb name "DistControl" then cast else subject)
    plugins None.

(** [Mirror::update]: [dMidpointLeft] and [dMidpointRight] from the
    [DistControl] (both 0 without one), the origin chosen by
    [_position.ref.id], and [_position.coord = origin + ref.coord]. *)
Definition update (distControl : option (R * R)) (refId : Z) (refCoord : R) : R :=
  let '(dMidpointLeft, dMidpointRight) :=
    match distControl with Some mids => mids | None => (0, 0) end in
  let origin := match refId with 1%Z => dMidpointLeft | 2%Z => dMidpointRight | _ => 0 end in
  origin + refCoord.

(** The position block of [Mirror::readXML]: [refID] (default 0) cast to
    [uint16_t], [position/coord] (default 0), [getSubject()], [update], and
    [Simulation::exit(-1)] for a reference id above 0 without a subject.
    [asDistControl] is the [dynamic_cast<DistControl*>] of [update]. *)
Definition readXMLPosition {S : Type} (asDistControl : S -> option (R * R))
    (refID : option Z) (coord : option R) (plugins : list (string * option S))
    : ReadResult * R :=
  let id := match refID with Some i => i | None => 0%Z end in
  let refId := Z.modulo id 65536 in
  let refCoord := match coord with Some c => c | None => 0 end in
  let subject := getSubject plugins in
  let distControl := match subject with Some s => asDistControl s | None => None end in
  let position := update distControl refId refCoord in
  if (0 <? refId)%Z then
    match subject with
    | Some _ => (ReadOk, position)
    | None => (SimExit (-1), position)
    end
  else (ReadOk, position).

(** *** The particle counters *)

(** [vector::at(i)++]; [None] is the [std::out_of_range] it throws. *)
Definition incAt (l : list nat) (i : nat) : option (list nat) :=
  if Nat.ltb i (List.length l) then Some (SoAPipeline.setNth l i (S (nth i l 0%nat))) else None.

(** [.at(0)++] then [.at(cid_ub)++]. *)
Definition count (l : list nat) (cid_ub : nat) : option (list nat) :=
  match incAt l 0 with
  | Some l' => incAt l' cid_ub
  | None => None
  end.

(** What the loops thread through: the local reflected and deleted
    counters, [_diffuse_mirror.pos_map] and how many numbers [_rnd->rnd()]
    has handed out. *)
Record MState := mkMState {
  reflected : list nat; deleted : list nat; pos_map : list (nat * R); rndIdx : nat
}.

Fixpoint mapFind (m : list (nat * R)) (k : nat) : option R :=
  match m with
  | [] => None
  | (k', v) :: rest => if Nat.eqb k k' then Some v else mapFind rest k
  end.

Fixpoint mapErase (m : list (nat * R)) (k : nat) : list (nat * R) :=
  match m with
  | [] => []
  | (k', v) :: rest => if Nat.eqb k k' then rest else (k', v) :: mapErase rest k
  end.

(** The outcome for one particle: it stays (possibly with a new velocity) or
    [deleteMolecule] removes it. *)
Inductive Fate := Keep (p : Particle) | Delete.

(** [frnd < pbf] of the Meland2004 branch, [pbf] being
    [fixed_probability_factor] if it is positive and
    [std::abs(vy_reflected / vy)] otherwise; at [vy = 0] that quotient is
    infinite (the branch is only reached with [vy_reflected] nonzero) and
    the test holds. *)
Definition melandReflects (fixed_probability_factor vy_reflected v frnd : R) : bool :=
  if Rltb 0 fixed_probability_factor then Rltb frnd fixed_probability_factor
  else if Req_dec_T v 0 then true
  else Rltb frnd (Rabs (vy_reflected / v)).

Section Meland.

Variable rnd : nat -> R.   (** the [n]-th number of [_rnd->rnd()] *)
Variables (dir : MirrorDirection) (coord : R) (targetComp : nat).
Variables (velo_target fixed_probability_factor : R).
Variables (diffuse_enabled : bool) (width : R).

Definition withRefl (st : MState) (l : list nat) : MState :=
  mkMState l (deleted st) (pos_map st) (rndIdx st).
Definition withDel (st : MState) (l : list nat) : MState :=
  mkMState (reflected st) l (pos_map st) (rndIdx st).

(** [vy_reflected] is taken or the particle deleted, with its counters. *)
Definition melandReflectOrDelete (p : Particle) (st : MState) : option (Fate * MState) :=
  let cid_ub := S (componentid p) in
  let v := vy p in
  let vy_reflected := 2 * velo_target - v in
  if (isRight dir && Rltb vy_reflected 0) || (isLeft dir && Rltb 0 vy_reflected) then
    let frnd := rnd (rndIdx st) in
    let st := mkMState (reflected st) (deleted st) (pos_map st) (S (rndIdx st)) in
    if melandReflects fixed_probability_factor vy_reflected v frnd then
      match count (reflected st) cid_ub with
      | Some l => Some (Keep (setVy p vy_reflected), withRefl st l)
      | None => None
      end
    else
      match count (deleted st) cid_ub with
      | Some l => Some (Delete, withDel st l)
      | None => None
      end
  else
    match count (deleted st) cid_ub with
    | Some l => Some (Delete, withDel st l)
    | None => None
    end.

(** The loop body of the [MT_MELAND_2004] branch of [Mirror::beforeForces]. *)
Definition melandStep (p : Particle) (st : MState) : option (Fate * MState) :=
  let v := vy p in
  if skipComp targetComp p then Some (Keep p, st)
  else if (isRight dir && Rltb v 0) || (isLeft dir && Rltb 0 v) then Some (Keep p, st)
  else if diffuse_enabled then
    let '(mirror_pos, st) :=
      match mapFind (pos_map st) (pid p) with
      | Some mp => (mp, st)
      | None =>
          let frnd := rnd (rndIdx st) in
          let mp := if isRight dir then coord - frnd * width else coord + frnd * width in
          (mp, mkMState (reflected st) (deleted st) ((pid p, mp) :: pos_map st) (S (rndIdx st)))
      end in
    if Rleb (ry p) mirror_pos then Some (Keep p, st)
    else melandReflectOrDelete p
           (mkMState (reflected st) (deleted st) (mapErase (pos_map st) (pid p)) (rndIdx st))
  else melandReflectOrDelete p st.

End Meland.

(** The particle loop: the particles left in the container, the state,
    [None] if an exception ended it. *)
Fixpoint runLoop (step : Particle -> MState -> option (Fate * MState))
    (ps : list Particle) (st : MState) : option (list Particle * MState) :=
  match ps with
  | [] => Some ([], st)
  | p :: rest =>
      match step p st with
      | None => None
      | Some (f, st') =>
          match runLoop step rest st' with
          | None => None
          | Some (out, st'') =>
              Some (match f with Keep q => q :: out | Delete => out end, st'')
          end
      end
  end.

(** [reset local values]: every local counter set to 0. *)
Definition resetCounters (st : MState) : MState :=
  mkMState (map (fun _ => 0%nat) (reflected st)) (map (fun _ => 0%nat) (deleted st))
    (pos_map st) (rndIdx st).

(** The [MT_MELAND_2004] branch of [Mirror::beforeForces] on the particles
    the region iterator yields. *)
Definition beforeForcesMeland (rnd : nat -> R) (dir : MirrorDirection) (coord : R)
    (targetComp : nat) (velo_target fixed_probability_factor : R) (diffuse_enabled : bool)
    (width boxMinY boxMaxY : R) (visited : list Particle) (st : MState)
    : option (list Particle * MState) :=
  if (isRight dir && Rltb (coord - width) boxMaxY) || (isLeft dir && Rltb boxMinY (coord + width))
  then runLoop (melandStep rnd dir coord targetComp velo_target fixed_probability_factor
                  diffuse_enabled width) visited (resetCounters st)
  else Some (visited, st).

(** *** Ramping *)

(** [ratioRefl] of the [MT_RAMPING] branch at step [currentSimstep]. *)
Definition ratioRefl (startStep stopStep currentSimstep : nat) : R :=
  if Nat.leb currentSimstep startStep then 1
  else if Nat.ltb startStep currentSimstep && Nat.ltb currentSimstep stopStep
  then INR (stopStep - currentSimstep) / INR (stopStep - startStep)
  else 0.

Section Ramping.

Variable rnd : nat -> R.
Variables (dir : MirrorDirection) (targetComp : nat).
Variables (startStep stopStep treatment currentSimstep : nat).

(** The loop body of the [MT_RAMPING] branch of [Mirror::beforeForces]. *)
Definition rampingStep (p : Particle) (st : MState) : option (Fate * MState) :=
  let cid_ub := S (componentid p) in
  let v := vy p in
  if skipComp targetComp p then Some (Keep p, st)
  else if (isRight dir && Rltb v 0) || (isLeft dir && Rltb 0 v) then Some (Keep p, st)
  else
    let frnd := rnd (rndIdx st) in
    let st := mkMState (reflected st) (deleted st) (pos_map st) (S (rndIdx st)) in
    if Rleb frnd (ratioRefl startStep stopStep currentSimstep) then
      match count (reflected st) cid_ub with
      | Some l => Some (Keep (setVy p (- v)), withRefl st l)
      | None => None
      end
    else if Nat.eqb treatment 0 then
      match count (deleted st) cid_ub with
      | Some l => Some (Delete, withDel st l)
      | None => None
      end
    else Some (Keep p, st).

End Ramping.

Definition beforeForcesRamping (rnd : nat -> R) (dir : MirrorDirection) (coord : R)
    (targetComp startStep stopStep treatment currentSimstep : nat)
    (boxMinY boxMaxY : R) (visited : list Particle) (st : MState)
    : option (list Particle * MState) :=
  if mirrorInBox dir coord boxMinY boxMaxY
  then runLoop (rampingStep rnd dir targetComp startStep stopStep treatment currentSimstep)
         visited (resetCounters st)
  else Some (visited, st).

End MirrorDyn.


(* ================================================================== *)
(** * Properties *)

(* ------------------------------------------------------------------ *)
(** ** Traversal *)

Module TraversalFacts.

Import Traversal.
Local Open Scope nat_scope.

(** Two distinct cell indices are ordered exactly one way round. *)
Lemma ltb_exactly_one (a b : nat) : a <> b -> xorb (a <? b) (b <? a) = true.
Proof.
  intros Hne. destruct (Nat.ltb_spec a b), (Nat.ltb_spec b a); simpl; try reflexivity; lia.
Qed.

(** C9.  [processCell] on a halo cell, or on a cell whose SoA holds fewer
    than two molecules, leaves the processor state unchanged. *)
Theorem processCell_halo_or_small_noop (State : Type)
    (calculatePairs : ForcePolicy -> bool -> ParticleCell -> ParticleCell -> State -> State)
    (c : ParticleCell) (st : State) :
  isHaloCell c = true \/ mol_num c < 2 ->
  processCell State calculatePairs c st = st.
Proof.
  intros H. unfold processCell.
  destruct H as [H | H].
  - rewrite H. reflexivity.
  - apply Nat.ltb_lt in H. rewrite H, orb_true_r. reflexivity.
Qed.

Lemma processCell_halo_or_small_noop_witness :
  (true = true \/ 5 < 2)%nat /\
  processCell CallLog logPairs (mkCell true 2 5) [] = [].
Proof.
  split; [left; reflexivity |].
  apply (processCell_halo_or_small_noop CallLog logPairs (mkCell true 2 5) []).
  left; reflexivity.
Defined.

(** C10.  [processCellPair] on two cells of which at least one holds no
    molecule leaves the processor state unchanged, whatever the halo
    status of either cell. *)
Theorem processCellPair_empty_noop (State : Type)
    (calculatePairs : ForcePolicy -> bool -> ParticleCell -> ParticleCell -> State -> State)
    (c1 c2 : ParticleCell) (st : State) :
  mol_num c1 = 0 \/ mol_num c2 = 0 ->
  processCellPair State calculatePairs c1 c2 st = st.
Proof.
  intros H. unfold processCellPair.
  destruct H as [H | H]; rewrite H; simpl.
  - reflexivity.
  - rewrite orb_true_r. reflexivity.
Qed.

Lemma processCellPair_empty_noop_witness :
  (0 = 0 \/ 2 = 0)%nat /\
  processCellPair CallLog logPairs (mkCell false 0 0) (mkCell false 1 2) [] = [].
Proof.
  split; [left; reflexivity |].
  apply (processCellPair_empty_noop CallLog logPairs (mkCell false 0 0) (mkCell false 1 2) []).
  left; reflexivity.
Defined.

End TraversalFacts.

(* ------------------------------------------------------------------ *)
(** ** Cell-pair dispatch into [_calculatePairs] *)

Module PairCalcFacts.

Import Traversal LJ Kernels PairCalc.
Local Open Scope R_scope.

Lemma runCall_out_indep (cm : bool) (k : KernelCall) (s : Sums) :
  fst (runCall cm k s) = callOut k.
Proof. unfold callOut. destruct cm, k; reflexivity. Qed.

Lemma runCall_false_sums (k : KernelCall) (s : Sums) :
  snd (runCall false k s) = s.
Proof. destruct s, k; reflexivity. Qed.

Lemma runCall_true_sums (k : KernelCall) (s : Sums) :
  snd (runCall true k s) = addSums s (contrib k).
Proof.
  unfold contrib, addSums. destruct s, k; cbn; unfold fma; f_equal; ring.
Qed.

Lemma runCalls_out (cm : bool) (ks : list KernelCall) (s : Sums) :
  fst (runCalls cm ks s) = map callOut ks.
Proof.
  revert s. induction ks as [|k ks IH]; intros s; [reflexivity|].
  cbn [runCalls]. change (map callOut (k :: ks)) with (callOut k :: map callOut ks).
  rewrite <- (runCall_out_indep cm k s).
  destruct (runCall cm k s) as [o s1] eqn:E1.
  specialize (IH s1). destruct (runCalls cm ks s1) as [os s2]. cbn in *. congruence.
Qed.

Lemma runCalls_false_sums (ks : list KernelCall) (s : Sums) :
  snd (runCalls false ks s) = s.
Proof.
  revert s. induction ks as [|k ks IH]; intros s; [reflexivity|].
  cbn [runCalls]. pose proof (runCall_false_sums k s) as Hk.
  destruct (runCall false k s) as [o s1]. cbn in Hk. subst s1.
  specialize (IH s). destruct (runCalls false ks s) as [os s2]. exact IH.
Qed.

Lemma addSums_assoc (a b c : Sums) : addSums (addSums a b) c = addSums a (addSums b c).
Proof. unfold addSums; cbn; f_equal; ring. Qed.

Lemma addSums_zero_r (a : Sums) : addSums a zeroSums = a.
Proof. destruct a; unfold addSums; cbn; f_equal; ring. Qed.

Lemma runCalls_true_sums (ks : list KernelCall) (s : Sums) :
  snd (runCalls true ks s) = addSums s (sumContrib ks).
Proof.
  revert s. induction ks as [|k ks IH]; intros s.
  - cbn. symmetry. apply addSums_zero_r.
  - cbn [runCalls sumContrib]. pose proof (runCall_true_sums k s) as Hk.
    destruct (runCall true k s) as [o s1]. cbn in Hk. subst s1.
    specialize (IH (addSums s (contrib k))).
    destruct (runCalls true ks (addSums s (contrib k))) as [os s2]. cbn in IH |- *.
    rewrite IH. apply addSums_assoc.
Qed.

Lemma calculatePairs_forceLog schedule pol cm c1 c2 st :
  forceLog (calculatePairs schedule pol cm c1 c2 st)
  = forceLog st ++ map callOut (schedule pol c1 c2).
Proof.
  unfold calculatePairs. rewrite <- (runCalls_out cm (schedule pol c1 c2) zeroSums).
  destruct (runCalls cm (schedule pol c1 c2) zeroSums). reflexivity.
Qed.

(** C1.  Let [_calculatePairs] make, for a pair of cells, the kernel calls
    of its loops (all seven lane kernels: LJ, charge, charge-dipole,
    dipole, charge-quadrupole, dipole-quadrupole, quadrupole).  For two
    cells of which exactly one is a halo cell, [processCellPair]:
    - does nothing when either cell holds no molecule (there is no pair);
    - otherwise runs [_calculatePairs<CellPairPolicy_, M>] with
      [M] = [cellIndex(c1) < cellIndex(c2)];
    - with either [M] hands the same force and torque of every call to the
      SoA stores, so forces are applied to both cells' sites;
    - with [M = true] adds to [_upot6lj], [_upotXpoles], [_virial] every
      call's energy and virial contribution once (and subtracts its
      reaction-field contribution from [_myRF]);
    - with [M = false] leaves [_upot6lj], [_upotXpoles], [_virial] and
      [_myRF] unchanged;
    and of the two orders of a pair of distinct cell indices exactly one
    has [M = true], so each inter-rank pair is counted once. *)
Theorem processCellPair_one_halo_macroscopic
    (schedule : ForcePolicy -> ParticleCell -> ParticleCell -> list KernelCall)
    (c1 c2 : ParticleCell) (st : PState) :
  isHaloCell c1 <> isHaloCell c2 ->
  let run := processCellPair PState (calculatePairs schedule) in
  let calc m := calculatePairs schedule CellPairPolicy_ m c1 c2 st in
  ((mol_num c1 = 0 \/ mol_num c2 = 0)%nat -> run c1 c2 st = st) /\
  ((mol_num c1 <> 0)%nat -> (mol_num c2 <> 0)%nat ->
     run c1 c2 st = calc (getCellIndex c1 <? getCellIndex c2)%nat) /\
  (forall m, forceLog (calc m) = forceLog st ++ map callOut (schedule CellPairPolicy_ c1 c2)) /\
  (upot6lj (calc true) = upot6lj st + s_upot6lj (sumContrib (schedule CellPairPolicy_ c1 c2)) /\
   upotXpoles (calc true) = upotXpoles st + s_upotXpoles (sumContrib (schedule CellPairPolicy_ c1 c2)) /\
   virial (calc true) = virial st + s_virial (sumContrib (schedule CellPairPolicy_ c1 c2)) /\
   myRF (calc true) = myRF st - s_myRF (sumContrib (schedule CellPairPolicy_ c1 c2))) /\
  (upot6lj (calc false) = upot6lj st /\ upotXpoles (calc false) = upotXpoles st /\
   virial (calc false) = virial st /\ myRF (calc false) = myRF st) /\
  (getCellIndex c1 <> getCellIndex c2 ->
   xorb (getCellIndex c1 <? getCellIndex c2) (getCellIndex c2 <? getCellIndex c1) = true)%nat.
Proof.
  intros Hh. cbv zeta. split; [|split; [|split; [|split; [|split]]]].
  - intros H. unfold processCellPair.
    destruct H as [H | H]; rewrite H; cbn; [reflexivity | rewrite orb_true_r; reflexivity].
  - intros H1 H2. unfold processCellPair.
    apply Nat.eqb_neq in H1. apply Nat.eqb_neq in H2. rewrite H1, H2. cbn [orb].
    destruct (isHaloCell c1), (isHaloCell c2); cbn [negb orb Bool.eqb]; try congruence;
      destruct (getCellIndex c1 <? getCellIndex c2)%nat; reflexivity.
  - intros m. apply calculatePairs_forceLog.
  - unfold calculatePairs.
    pose proof (runCalls_true_sums (schedule CellPairPolicy_ c1 c2) zeroSums) as Hs.
    destruct (runCalls true (schedule CellPairPolicy_ c1 c2) zeroSums) as [outs s].
    cbn in Hs. subst s. unfold addSums; cbn.
    repeat split; ring.
  - unfold calculatePairs.
    pose proof (runCalls_false_sums (schedule CellPairPolicy_ c1 c2) zeroSums) as Hs.
    destruct (runCalls false (schedule CellPairPolicy_ c1 c2) zeroSums) as [outs s].
    cbn in Hs. subst s. cbn. repeat split; ring.
  - apply TraversalFacts.ltb_exactly_one.
Qed.

Lemma processCellPair_one_halo_macroscopic_witness :
  false <> true /\
  processCellPair PState
    (calculatePairs (fun _ _ _ => [CallLJ (mkVec3 0 0 0) (mkVec3 0 0 0) (mkVec3 1 0 0) (mkVec3 1 0 0)
                                          true 24 1 0]))
    (mkCell false 4 1) (mkCell true 7 3) (mkPState [] 0 0 0 0)
  = calculatePairs (fun _ _ _ => [CallLJ (mkVec3 0 0 0) (mkVec3 0 0 0) (mkVec3 1 0 0) (mkVec3 1 0 0)
                                         true 24 1 0])
      CellPairPolicy_ (4 <? 7)%nat (mkCell false 4 1) (mkCell true 7 3) (mkPState [] 0 0 0 0).
Proof.
  assert (H : false <> true) by discriminate.
  split; [exact H|].
  exact (proj1 (proj2 (processCellPair_one_halo_macroscopic
                         (fun _ _ _ => [CallLJ (mkVec3 0 0 0) (mkVec3 0 0 0) (mkVec3 1 0 0)
                                                (mkVec3 1 0 0) true 24 1 0])
                         (mkCell false 4 1) (mkCell true 7 3) (mkPState [] 0 0 0 0) H))
           ltac:(discriminate) ltac:(discriminate)).
Defined.

End PairCalcFacts.

(* ------------------------------------------------------------------ *)
(** ** The Lennard-Jones lane *)

Module LJFacts.

Import LJ.
Local Open Scope R_scope.

(** C2.  On an unmasked lane with [r2 = |r1 - r2|^2 > 0], [_loopBodyLJ]
    writes the force [d * ((eps_24 / r2) * (2 s12 - s6))] with [d = r1 -
    r2], [s2 = sig2 / r2], [s6 = s2^3], [s12 = s6^2]; with macroscopic
    accumulation it adds the masked value [eps_24 (s12 - s6) + shift6] to
    the running [6 U_LJ] sum, and without it the sum is unchanged. *)
Theorem loopBodyLJ_unmasked_lane (calculateMacroscopic : bool) (m1 r1 m2 r2 : vec3)
    (sum_upot6lj sum_virial eps_24 sig2 shift6 : R) :
  let dx := vx r1 - vx r2 in
  let dy := vy r1 - vy r2 in
  let dz := vz r1 - vz r2 in
  let rr := dx * dx + dy * dy + dz * dz in
  let s2 := sig2 / rr in
  let s6 := s2 ^ 3 in
  let s12 := s6 ^ 2 in
  0 < rr ->
  let res := loopBodyLJ calculateMacroscopic m1 r1 m2 r2 sum_upot6lj sum_virial true
               eps_24 sig2 shift6 in
  fst (fst res) = mkVec3 (dx * ((eps_24 / rr) * (2 * s12 - s6)))
                         (dy * ((eps_24 / rr) * (2 * s12 - s6)))
                         (dz * ((eps_24 / rr) * (2 * s12 - s6)))
  /\ snd (fst res)
     = sum_upot6lj + (if calculateMacroscopic
                      then applymask (eps_24 * (s12 - s6) + shift6) true else 0).
Proof.
  intros dx dy dz rr s2 s6 s12 Hpos res.
  assert (Hne : rr <> 0) by lra.
  subst res s12 s6 s2. unfold loopBodyLJ, applymask. fold dx dy dz. fold rr.
  destruct calculateMacroscopic; simpl; split;
    try (f_equal; field; exact Hne); try (field; exact Hne); try ring.
Qed.

Lemma loopBodyLJ_unmasked_lane_witness :
  0 < (1 - 0) * (1 - 0) + (0 - 0) * (0 - 0) + (0 - 0) * (0 - 0)
  /\ snd (fst (loopBodyLJ true (mkVec3 0 0 0) (mkVec3 1 0 0) (mkVec3 0 0 0) (mkVec3 0 0 0)
                 0 0 true 24 1 0))
     = 0 + applymask (24 * (((1 / ((1 - 0) * (1 - 0) + (0 - 0) * (0 - 0) + (0 - 0) * (0 - 0))) ^ 3) ^ 2
                            - (1 / ((1 - 0) * (1 - 0) + (0 - 0) * (0 - 0) + (0 - 0) * (0 - 0))) ^ 3)
                      + 0) true.
Proof.
  assert (H : 0 < (1 - 0) * (1 - 0) + (0 - 0) * (0 - 0) + (0 - 0) * (0 - 0)) by lra.
  split; [exact H |].
  exact (proj2 (loopBodyLJ_unmasked_lane true (mkVec3 0 0 0) (mkVec3 1 0 0) (mkVec3 0 0 0)
                  (mkVec3 0 0 0) 0 0 24 1 0 H)).
Defined.

End LJFacts.

(* ------------------------------------------------------------------ *)
(** ** Newton's third law in the force stores *)

Module Newton3Facts.

Import Newton3.
Local Open Scope R_scope.

(** C4.  In each of the ten blocks of [_calculatePairs] (seven kernel
    routines), the force contribution a site pair adds to the source
    site's sum is exactly the negation of the contribution added to the
    target site's accumulator, and no other target site is touched. *)
Theorem pairStore_newton3 (b : PairBlock) (j : nat) (f sum_f1 : vec3) (f2 : Forces) :
  let res := pairStore b j f sum_f1 f2 in
  vsub (fst res) sum_f1 = vopp (vsub (snd res j) (f2 j))
  /\ (forall k, k <> j -> snd res k = f2 k).
Proof.
  intros res. subst res. unfold pairStore.
  split.
  - destruct (sourceAdds b); simpl; unfold upd; rewrite Nat.eqb_refl;
      unfold vsub, vadd, vopp; simpl; f_equal; ring.
  - intros k Hk. destruct (sourceAdds b); simpl; unfold upd;
      apply Nat.eqb_neq in Hk; rewrite Hk; reflexivity.
Qed.

End Newton3Facts.

(* ------------------------------------------------------------------ *)
(** ** Reaction-field prefactor *)

Module ReactionFieldFacts.

Import ReactionField.
Local Open Scope R_scope.

Lemma epsRFInvrc3_minus_limit (e rc : R) :
  0 < rc -> 0 < e ->
  epsRFInvrc3 e rc - 1 / (rc * rc * rc) = - (3 / ((rc * rc * rc) * (2 * e + 1))).
Proof.
  intros Hrc He. unfold epsRFInvrc3.
  field. repeat split; lra.
Qed.

(** C5.  [_epsRFInvrc3 = 2 (eps_RF - 1) / ((2 eps_RF + 1) r_c^3)], and for
    [r_c > 0] it tends to [1 / r_c^3] as [eps_RF] tends to infinity. *)
Theorem epsRFInvrc3_formula_and_limit (rc : R) :
  0 < rc ->
  (forall e, epsRFInvrc3 e rc = 2 * (e - 1) / ((2 * e + 1) * rc ^ 3))
  /\ (forall eps, 0 < eps -> exists M, forall e, M < e ->
        Rabs (epsRFInvrc3 e rc - 1 / rc ^ 3) < eps).
Proof.
  intros Hrc.
  assert (Hk : 0 < rc * rc * rc) by (repeat apply Rmult_lt_0_compat; lra).
  split.
  - intros e. unfold epsRFInvrc3. f_equal. simpl. ring.
  - intros eps Heps.
    exists (Rmax 0 (3 / (eps * (rc * rc * rc)))).
    intros e He.
    assert (He0 : 0 < e) by (eapply Rle_lt_trans; [apply Rmax_l | exact He]).
    assert (He1 : 3 / (eps * (rc * rc * rc)) < e)
      by (eapply Rle_lt_trans; [apply Rmax_r | exact He]).
    replace (rc ^ 3) with (rc * rc * rc) by ring.
    rewrite epsRFInvrc3_minus_limit by assumption.
    rewrite Rabs_Ropp, Rabs_right.
    + assert (Hd : 0 < rc * rc * rc * (2 * e + 1)) by (apply Rmult_lt_0_compat; lra).
      apply (Rmult_lt_reg_r (rc * rc * rc * (2 * e + 1))); [exact Hd |].
      unfold Rdiv. rewrite Rmult_assoc, Rinv_l by lra. rewrite Rmult_1_r.
      assert (Hek : 3 / (eps * (rc * rc * rc)) * (eps * (rc * rc * rc)) = 3)
        by (field; split; lra).
      assert (Hpk : 0 < eps * (rc * rc * rc)) by (apply Rmult_lt_0_compat; lra).
      assert (3 < e * (eps * (rc * rc * rc))).
      { rewrite <- Hek. apply Rmult_lt_compat_r; assumption. }
      nra.
    + apply Rle_ge. unfold Rdiv. apply Rmult_le_pos; [lra |].
      apply Rlt_le, Rinv_0_lt_compat, Rmult_lt_0_compat; lra.
Qed.

Lemma epsRFInvrc3_formula_and_limit_witness :
  0 < 1 /\ epsRFInvrc3 3 1 = 2 * (3 - 1) / ((2 * 3 + 1) * 1 ^ 3).
Proof.
  assert (H : 0 < 1) by lra.
  split; [exact H |].
  exact (proj1 (epsRFInvrc3_formula_and_limit 1 H) 3).
Defined.

End ReactionFieldFacts.

(* ------------------------------------------------------------------ *)
(** ** The distance lookup *)

Module DistLookupFacts.

Import DistLookup.
Local Open Scope Q_scope.

(** The [double] nearest to the all-ones word [2^64 - 1] is [2^64]. *)
Lemma ulongToDouble_ALL_ONES : ulongToDouble ALL_ONES = (2 ^ 64)%Z.
Proof. vm_compute. reflexivity. Qed.

Lemma ulongToDouble_0 : ulongToDouble 0 = 0%Z.
Proof. reflexivity. Qed.

Lemma ALL_ONES_neq_0 : ALL_ONES <> 0%Z.
Proof. unfold ALL_ONES. vm_compute. discriminate. Qed.

Lemma two64_neq_0 : inject_Z (2 ^ 64) <> 0.
Proof. vm_compute. discriminate. Qed.

Section Loop.

Variables (P : ForcePolicy) (mx my mz : Q) (m2x m2y m2z : nat -> Q) (rc2 : Q).

Local Abbreviation mask := (maskAt P mx my mz m2x m2y m2z rc2).

Lemma mask_cases (k : nat) : mask k = 0%Z \/ mask k = ALL_ONES.
Proof. unfold maskAt. destruct (Condition _ _ _); auto. Qed.

Lemma distLoop_spec (n : nat) : forall (j : nat) (lookup : Lookup) (cm : Z),
  let res := distLoop P mx my mz m2x m2y m2z rc2 j n lookup cm in
  (forall k, (j <= k < j + n)%nat -> fst res k = inject_Z (ulongToDouble (mask k)))
  /\ (forall k, (k < j \/ j + n <= k)%nat -> fst res k = lookup k)
  /\ (snd res = 0%Z <-> cm = 0%Z /\ forall k, (j <= k < j + n)%nat -> mask k = 0%Z)
  /\ (cm = 0%Z \/ cm = ALL_ONES -> snd res = 0%Z \/ snd res = ALL_ONES).
Proof.
  induction n as [| n IH]; intros j lookup cm res; subst res; simpl.
  - split; [intros k Hk; lia |]. split; [reflexivity |].
    split; [split; [intros H; split; [exact H | intros k Hk; lia] | intros [H _]; exact H] |].
    intros H; exact H.
  - match goal with
    | |- context [distLoop _ _ _ _ _ _ _ _ (S j) n ?l ?c] =>
        destruct (IH (S j) l c) as (Hin & Hout & Hcm & Hval)
    end.
    fold (comDist2 mx my mz m2x m2y m2z j) in *.
    fold (mask j) in *.
    split; [| split; [| split]].
    + intros k Hk. destruct (Nat.eq_dec k j) as [-> | Hne].
      * rewrite Hout by lia. unfold upd. rewrite Nat.eqb_refl. reflexivity.
      * apply Hin. lia.
    + intros k Hk. rewrite Hout by lia. unfold upd.
      destruct (Nat.eqb_spec k j); [lia | reflexivity].
    + rewrite Hcm, Z.lor_eq_0_iff. split.
      * intros [[H0 Hj] Hk]. split; [exact H0 |].
        intros k Hk'. destruct (Nat.eq_dec k j) as [-> | Hne]; [exact Hj | apply Hk; lia].
      * intros [H0 Hk]. split; [split; [exact H0 | apply Hk; lia] |].
        intros k Hk'. apply Hk. lia.
    + intros Hc. apply Hval.
      destruct Hc as [-> | ->]; destruct (mask_cases j) as [-> | ->].
      * left; reflexivity.
      * right; reflexivity.
      * right; apply Z.lor_0_r.
      * right; apply Z.lor_diag.
Qed.

End Loop.

(** C3 (as amended).  [calcDistLookup] writes exactly the entries [j] with
    [InitJ(i_center_idx) <= j < soa2_num_centers]: each becomes the
    [double] [2^64] (the numeric conversion of the all-ones word [~0l],
    not an all-ones bit pattern) iff the squared COM separation is below
    the cutoff squared (and, under the single-cell policy,
    [j > i_center_idx] holds for all of them), and 0 otherwise; every other
    entry keeps the value it had before the call; the returned
    [compute_molecule] is 0 or the all-ones word, and it is nonzero iff one
    of the entries written by this call is [2^64]. *)
Theorem calcDistLookup_written_range (P : ForcePolicy) (mx my mz : Q)
    (i_center_idx soa2_num_centers : nat) (rc2 : Q) (lookup : Lookup)
    (m2x m2y m2z : nat -> Q) :
  let res := calcDistLookup P mx my mz i_center_idx soa2_num_centers rc2 lookup m2x m2y m2z in
  let j0 := InitJ P i_center_idx in
  (forall j, (j0 <= j < soa2_num_centers)%nat ->
     fst res j = (if qltb (comDist2 mx my mz m2x m2y m2z j) rc2
                     && (match P with SingleCellPolicy_ => Nat.ltb i_center_idx j
                                    | CellPairPolicy_ => true end)
                  then inject_Z (2 ^ 64) else 0))
  /\ (forall j, (j < j0 \/ soa2_num_centers <= j)%nat -> fst res j = lookup j)
  /\ (snd res <> 0%Z <->
      exists j, (j0 <= j < soa2_num_centers)%nat /\ fst res j = inject_Z (2 ^ 64))
  /\ (snd res = 0%Z \/ snd res = ALL_ONES).
Proof.
  intros res j0. subst res. unfold calcDistLookup. fold j0.
  destruct (distLoop_spec P mx my mz m2x m2y m2z rc2 (soa2_num_centers - j0) j0 lookup 0%Z)
    as (Hin & Hout & Hcm & Hval).
  assert (Hd : forall k, inject_Z (ulongToDouble (maskAt P mx my mz m2x m2y m2z rc2 k))
                         = if Condition P (comDist2 mx my mz m2x m2y m2z k) rc2
                           then inject_Z (2 ^ 64) else 0).
  { intros k. unfold maskAt. destruct (Condition _ _ _);
      [rewrite ulongToDouble_ALL_ONES | rewrite ulongToDouble_0]; reflexivity. }
  split; [| split; [| split]].
  - intros j Hj. rewrite Hin by lia. rewrite Hd. unfold Condition.
    destruct P; simpl in j0 |- *.
    + assert (Hlt : Nat.ltb i_center_idx j = true) by (apply Nat.ltb_lt; subst j0; lia).
      rewrite Hlt, andb_true_r. reflexivity.
    + rewrite andb_true_r. reflexivity.
  - intros j Hj. apply Hout. lia.
  - split.
    + intros Hne.
      destruct (existsb (fun k => Z.eqb (maskAt P mx my mz m2x m2y m2z rc2 k) ALL_ONES)
                  (seq j0 (soa2_num_centers - j0))) eqn:Hex.
      * apply existsb_exists in Hex. destruct Hex as (k & Hk & Heq).
        apply in_seq in Hk. apply Z.eqb_eq in Heq.
        exists k. split; [lia |]. rewrite Hin by lia. rewrite Heq, ulongToDouble_ALL_ONES.
        reflexivity.
      * exfalso. apply Hne. apply Hcm. split; [reflexivity |].
        intros k Hk.
        destruct (mask_cases P mx my mz m2x m2y m2z rc2 k) as [H0 | H1]; [exact H0 |].
        assert (Hin' : In k (seq j0 (soa2_num_centers - j0))) by (apply in_seq; lia).
        assert (Hcontra : existsb (fun k => Z.eqb (maskAt P mx my mz m2x m2y m2z rc2 k) ALL_ONES)
                  (seq j0 (soa2_num_centers - j0)) = true).
        { apply existsb_exists. exists k. split; [exact Hin' | apply Z.eqb_eq; exact H1]. }
        congruence.
    + intros (k & Hk & Heq) H0.
      apply Hcm in H0. destruct H0 as [_ Hall].
      rewrite Hin in Heq by lia. rewrite Hall in Heq by lia.
      rewrite ulongToDouble_0 in Heq. apply two64_neq_0. symmetry. exact Heq.
  - apply Hval. left. reflexivity.
Qed.

Lemma calcDistLookup_written_range_witness :
  (1 <= 1 < 2)%nat /\
  fst (calcDistLookup SingleCellPolicy_ 0 0 0 0 2 4 (fun _ => 0) ex_m2x ex_m2y ex_m2z) 1%nat
  = (if qltb (comDist2 0 0 0 ex_m2x ex_m2y ex_m2z 1%nat) 4 && Nat.ltb 0 1
     then inject_Z (2 ^ 64) else 0).
Proof.
  assert (H : (InitJ SingleCellPolicy_ 0 <= 1 < 2)%nat) by (simpl; lia).
  split; [lia |].
  exact (proj1 (calcDistLookup_written_range SingleCellPolicy_ 0 0 0 0 2 4 (fun _ => 0)
                  ex_m2x ex_m2y ex_m2z) 1%nat H).
Defined.

(** C3, counterexample.  [_calculatePairs] calls [calcDistLookup] for
    molecule 0 (centre index 0) and then for molecule 1 (centre index 1)
    on the same lookup array.  The entry written for an interacting centre
    is the [double] [2^64], not the all-ones value [2^64 - 1]; after the
    second call entry 1 still holds it although [j = 1] is not greater than
    the source centre index 1, and the returned [compute_molecule] is 0:
    entries below the start index are not cleared. *)
Lemma calcDistLookup_stale_entry_below_start :
  let '(l1, _) := calcDistLookup SingleCellPolicy_ 0 0 0 0 2 4 (fun _ => 0)
                    ex_m2x ex_m2y ex_m2z in
  let '(l2, cm2) := calcDistLookup SingleCellPolicy_ 1 0 0 1 2 4 l1
                      ex_m2x ex_m2y ex_m2z in
  l2 1%nat = inject_Z (2 ^ 64) /\ ~ (l2 1%nat == inject_Z ALL_ONES)
  /\ ~ (1 < 1)%nat /\ cm2 = 0%Z.
Proof.
  vm_compute. split; [reflexivity |].
  split; [intros H; discriminate H |].
  split; [lia | reflexivity].
Qed.

End DistLookupFacts.

(* ------------------------------------------------------------------ *)
(** ** The one-stage finalize loop *)

Module HaloFacts.

Import Halo.
Local Open Scope Q_scope.

Local Ltac qlra := Lqa.lra.

Lemma qltb_true (x y : Q) : qltb x y = true <-> x < y.
Proof.
  unfold qltb. rewrite negb_true_iff. split.
  - intros H. apply Qnot_le_lt. intros Hle. apply Qle_bool_iff in Hle. congruence.
  - intros H. destruct (Qle_bool y x) eqn:E; [| reflexivity].
    apply Qle_bool_iff in E. exfalso. apply (Qlt_not_le x y); assumption.
Qed.

Lemma qltb_false (x y : Q) : qltb x y = false <-> y <= x.
Proof.
  unfold qltb. rewrite negb_false_iff. apply Qle_bool_iff.
Qed.

Lemma warnings_app (a b : list Event) : warnings (a ++ b) = warnings a ++ warnings b.
Proof. induction a as [| e a IH]; [reflexivity |]. destruct e; simpl; rewrite ?IH; reflexivity. Qed.

Lemma warnings_map_send (l : list Z) : warnings (map EvTestSend l) = [].
Proof. induction l; simpl; auto. Qed.

Lemma warnings_map_probe (l : list Z) : warnings (map EvIprobeCount l) = [].
Proof. induction l; simpl; auto. Qed.

Lemma warnings_map_recv (b : bool) (l : list Z) :
  warnings (map (fun r => EvTestRecv r b) l) = [].
Proof. induction l; simpl; auto. Qed.

Lemma warnings_map_diag (l : list Z) : warnings (map EvDiagnostic l) = [].
Proof. induction l; simpl; auto. Qed.

Create Rewrite HintDb warn.

#[local] Hint Rewrite warnings_app warnings_map_send warnings_map_probe warnings_map_recv
  warnings_map_diag : warn.

(** Warnings carry the counters [wc, wc + 1, ...] in order. *)
Lemma finalizeLoop_warnings (me : Z) (ns : list Z) (rrd : bool) (obs : list Obs) :
  forall wc, exists n, warnings (fst (finalizeLoop me ns rrd wc obs)) = qseq wc n.
Proof.
  induction obs as [| o rest IH]; intros wc; simpl.
  - exists O. reflexivity.
  - destruct (IH (if qltb wc (ob_time o) then wc + 1 else wc)) as [n Hn].
    destruct (finalizeLoop me ns rrd (if qltb wc (ob_time o) then wc + 1 else wc) rest)
      as [evs out] eqn:Erec.
    simpl in Hn.
    destruct (qltb wc (ob_time o)) eqn:Ew;
      destruct (qltb deadlockTimeOut (ob_time o));
      [| destruct (passDone me ns o) | | destruct (passDone me ns o)];
      repeat progress (simpl; autorewrite with warn).
    + exists 1%nat. reflexivity.
    + exists 1%nat. reflexivity.
    + exists (S n). rewrite Hn. reflexivity.
    + exists O. reflexivity.
    + exists O. reflexivity.
    + exists n. exact Hn.
Qed.

Lemma finalizeLoop_exit_shape (me : Z) (ns : list Z) (rrd : bool) (obs : list Obs) :
  forall wc c, snd (finalizeLoop me ns rrd wc obs) = Exited c ->
  c = 457%Z /\ exists pre, fst (finalizeLoop me ns rrd wc obs)
                    = pre ++ EvError deadlockTimeOut :: map EvDiagnostic (others me ns)
                          ++ [EvExit 457].
Proof.
  induction obs as [| o rest IH]; intros wc c H; cbn [finalizeLoop] in *.
  - discriminate.
  - destruct (qltb deadlockTimeOut (ob_time o)).
    + simpl in H. injection H as <-. split; [reflexivity |].
      set (ns' := others me ns).
      exists (map EvTestSend ns' ++ map EvIprobeCount ns' ++ map (fun r => EvTestRecv r rrd) ns'
              ++ (if qltb wc (ob_time o) then EvWarning wc :: map EvDiagnostic ns' else [])).
      simpl. rewrite <- !app_assoc. reflexivity.
    + destruct (passDone me ns o); [discriminate |].
      destruct (finalizeLoop me ns rrd _ rest) as [evs out] eqn:E.
      simpl in H. subst out.
      match type of E with
      | finalizeLoop _ _ _ ?w _ = _ =>
          destruct (IH w c) as [Hc [pre Hpre]]; [rewrite E; reflexivity |]; rewrite E in Hpre
      end.
      split; [exact Hc |]. simpl in Hpre. subst evs.
      set (ns' := others me ns).
      exists (map EvTestSend ns' ++ map EvIprobeCount ns' ++ map (fun r => EvTestRecv r rrd) ns'
              ++ (if qltb wc (ob_time o) then EvWarning wc :: map EvDiagnostic ns' else []) ++ pre).
      simpl. rewrite <- !app_assoc. reflexivity.
Qed.

Lemma finalizeLoop_timeout (me : Z) (ns : list Z) (rrd : bool) (o : Obs) (post : list Obs) :
  deadlockTimeOut < ob_time o ->
  forall pre wc, continues me ns pre = true ->
  snd (finalizeLoop me ns rrd wc (pre ++ o :: post)) = Exited 457.
Proof.
  intros Ht pre. induction pre as [| p pre IH]; intros wc Hc; cbn [app finalizeLoop].
  - apply qltb_true in Ht. rewrite Ht. reflexivity.
  - cbn [continues forallb] in Hc. apply andb_prop in Hc. destruct Hc as [Hp Hc].
    apply andb_prop in Hp. destruct Hp as [Hle Hnd].
    apply negb_true_iff in Hnd.
    assert (Hq : qltb deadlockTimeOut (ob_time p) = false)
      by (apply qltb_false; apply Qle_bool_iff; exact Hle).
    rewrite Hq, Hnd.
    destruct (finalizeLoop me ns rrd _ (pre ++ o :: post)) as [evs out] eqn:E.
    match type of E with
    | finalizeLoop _ _ _ ?w _ = _ => specialize (IH w Hc); rewrite E in IH
    end.
    exact IH.
Qed.

Lemma qnat_S (n : nat) : qnat (S n) == qnat n + 1.
Proof. unfold qnat. rewrite Nat2Z.inj_succ, <- Z.add_1_r, inject_Z_plus. reflexivity. Qed.

Lemma qnat_nonneg (n : nat) : 0 <= qnat n.
Proof.
  unfold qnat. change 0 with (inject_Z 0). rewrite <- Zle_Qle. lia.
Qed.

(** With passes shorter than a second the warning counter never lags:
    the waiting time of any pass the loop reaches is at most [wc] plus the
    number of warnings emitted up to and including that pass. *)
Lemma finalizeLoop_cadence (me : Z) (ns : list Z) (rrd : bool) (o : Obs) :
  forall pre wc prev, prev <= wc -> fastPasses prev (pre ++ [o]) ->
  continues me ns pre = true ->
  ob_time o <= wc + qnat (List.length (warnings (fst (finalizeLoop me ns rrd wc (pre ++ [o]))))).
Proof.
  intros pre. induction pre as [| p pre IH]; intros wc prev Hprev Hfast Hc.
  - cbn [app fastPasses] in Hfast. destruct Hfast as [Ho _].
    assert (H1 : qnat 1 == 1) by reflexivity.
    assert (H0 : qnat 0 == 0) by reflexivity.
    cbn [app finalizeLoop].
    destruct (qltb wc (ob_time o)) eqn:Ew;
      destruct (qltb deadlockTimeOut (ob_time o));
      [| destruct (passDone me ns o) | | destruct (passDone me ns o)];
      cbn [fst]; autorewrite with warn; cbn [warnings app List.length];
      autorewrite with warn; cbn [warnings app List.length].
    all: first [ apply qltb_true in Ew; qlra | apply qltb_false in Ew; qlra ].
  - cbn [app fastPasses] in Hfast. destruct Hfast as [Hp Hfast].
    cbn [continues forallb] in Hc. apply andb_prop in Hc. destruct Hc as [Hp' Hc].
    apply andb_prop in Hp'. destruct Hp' as [Hle Hnd].
    apply negb_true_iff in Hnd.
    assert (Hq : qltb deadlockTimeOut (ob_time p) = false)
      by (apply qltb_false; apply Qle_bool_iff; exact Hle).
    cbn [app finalizeLoop]. rewrite Hq, Hnd.
    destruct (qltb wc (ob_time p)) eqn:Ew.
    + apply qltb_true in Ew.
      destruct (finalizeLoop me ns rrd _ (pre ++ [o])) as [evs out] eqn:E.
      match type of E with
      | finalizeLoop _ _ _ ?w _ = _ =>
          assert (Hw : ob_time p <= w) by (change w with (wc + 1); qlra);
          specialize (IH w (ob_time p) Hw Hfast Hc); rewrite E in IH;
          change w with (wc + 1) in IH
      end.
      cbn [fst] in *. autorewrite with warn. cbn [warnings app List.length].
      rewrite warnings_map_diag. cbn [app].
      pose proof (qnat_S (List.length (warnings evs))). qlra.
    + apply qltb_false in Ew.
      specialize (IH wc (ob_time p) Ew Hfast Hc).
      destruct (finalizeLoop me ns rrd _ (pre ++ [o])) as [evs out] eqn:E.
      try rewrite E in IH. cbn [fst] in *. autorewrite with warn. cbn [warnings app List.length].
      exact IH.
Qed.

Lemma finalizeLoop_cons_continue (me : Z) (ns : list Z) (rrd : bool) (wc : Q) (p : Obs)
    (rest : list Obs) :
  qltb deadlockTimeOut (ob_time p) = false -> passDone me ns p = false ->
  fst (finalizeLoop me ns rrd wc (p :: rest))
  = passCalls (others me ns) rrd ++ passWarning (others me ns) wc (ob_time p)
    ++ fst (finalizeLoop me ns rrd (if qltb wc (ob_time p) then wc + 1 else wc) rest).
Proof.
  intros Hq Hd. cbn [finalizeLoop]. rewrite Hq, Hd.
  destruct (finalizeLoop me ns rrd _ rest) as [evs out].
  unfold passCalls, passWarning. reflexivity.
Qed.

(** Every pass the loop reaches makes its calls and then warns, with one
    diagnostic per neighbour, exactly when its waiting time exceeds the
    counter, which is [wc] plus the number of warnings of the passes
    before. *)
Lemma finalizeLoop_pass (me : Z) (ns : list Z) (rrd : bool) (o : Obs) (post : list Obs) :
  forall pre wc, continues me ns pre = true ->
  exists wc' evpost,
    wc' == wc + qnat (List.length (warnings (fst (finalizeLoop me ns rrd wc pre))))
    /\ fst (finalizeLoop me ns rrd wc (pre ++ o :: post))
       = fst (finalizeLoop me ns rrd wc pre) ++ passCalls (others me ns) rrd
         ++ passWarning (others me ns) wc' (ob_time o) ++ evpost.
Proof.
  intros pre. induction pre as [| p pre IH]; intros wc Hc.
  - exists wc. change ([] ++ o :: post) with (o :: post).
    cbn [finalizeLoop fst]. cbn [warnings List.length].
    assert (H0 : qnat 0 == 0) by reflexivity.
    destruct (qltb deadlockTimeOut (ob_time o));
      [| destruct (passDone me ns o);
         [exists []; rewrite app_nil_r | destruct (finalizeLoop me ns rrd _ post) as [evs out]]];
      (lazymatch goal with |- ex _ => eexists | _ => idtac end; split;
       [qlra | rewrite app_nil_l; unfold passCalls, passWarning; cbn [fst]; reflexivity]).
  - cbn [continues forallb] in Hc. apply andb_prop in Hc. destruct Hc as [Hp Hc].
    apply andb_prop in Hp. destruct Hp as [Hle Hnd].
    apply negb_true_iff in Hnd.
    assert (Hq : qltb deadlockTimeOut (ob_time p) = false)
      by (apply qltb_false; apply Qle_bool_iff; exact Hle).
    rewrite <- app_comm_cons.
    rewrite !(finalizeLoop_cons_continue me ns rrd wc p _ Hq Hnd).
    destruct (IH (if qltb wc (ob_time p) then wc + 1 else wc) Hc) as (wc' & evpost & Hw & He).
    exists wc', evpost. rewrite He. split.
    + unfold passCalls, passWarning. autorewrite with warn.
      destruct (qltb wc (ob_time p)); cbn [warnings app List.length];
        autorewrite with warn; cbn [app].
      * pose proof (qnat_S (List.length (warnings (fst (finalizeLoop me ns rrd (wc + 1) pre))))).
        qlra.
      * exact Hw.
    + rewrite <- !app_assoc. reflexivity.
Qed.

Lemma finalizeLoop_exit_after_timeout (me : Z) (ns : list Z) (rrd : bool) (obs : list Obs) :
  forall wc c, snd (finalizeLoop me ns rrd wc obs) = Exited c ->
  exists o, In o obs /\ deadlockTimeOut < ob_time o.
Proof.
  induction obs as [| o rest IH]; intros wc c H; cbn [finalizeLoop] in H.
  - discriminate.
  - destruct (qltb deadlockTimeOut (ob_time o)) eqn:Et.
    + exists o. split; [left; reflexivity | apply qltb_true; exact Et].
    + destruct (passDone me ns o); [discriminate |].
      destruct (finalizeLoop me ns rrd _ rest) as [evs out] eqn:E.
      cbn [snd] in H. subst out.
      match type of E with
      | finalizeLoop _ _ _ ?w _ = _ =>
          destruct (IH w c) as (o' & Hin & Ht); [rewrite E; reflexivity |]
      end.
      exists o'. split; [right; exact Hin | exact Ht].
Qed.

(** Every [testRecv] of the loop gets the loop's [removeRecvDuplicates]. *)
Lemma finalizeLoop_recv_flag_all (me : Z) (ns : list Z) (rrd : bool) (obs : list Obs) :
  forall wc, Forall (recvFlagIs rrd) (fst (finalizeLoop me ns rrd wc obs)).
Proof.
  assert (Hm : forall (A : Type) (f : A -> Event) l,
             (forall a, recvFlagIs rrd (f a)) -> Forall (recvFlagIs rrd) (map f l)).
  { intros A f l Hf. apply Forall_map, Forall_forall. intros; apply Hf. }
  assert (Hc : forall wc o,
             Forall (recvFlagIs rrd)
               ((map EvTestSend (others me ns) ++ map EvIprobeCount (others me ns)
                 ++ map (fun r => EvTestRecv r rrd) (others me ns))
                ++ (if qltb wc (ob_time o)
                    then EvWarning wc :: map EvDiagnostic (others me ns) else []))).
  { intros wc o. rewrite !Forall_app.
    split; [split; [| split] |].
    - apply Hm. intros; exact I.
    - apply Hm. intros; exact I.
    - apply Hm. intros; reflexivity.
    - destruct (qltb wc (ob_time o)); [| constructor].
      constructor; [exact I |]. apply Hm. intros; exact I. }
  induction obs as [| o rest IH]; intros wc; cbn [finalizeLoop].
  - constructor.
  - destruct (qltb deadlockTimeOut (ob_time o)).
    + cbn [fst]. rewrite !Forall_app.
      repeat match goal with |- _ /\ _ => split end;
        try (apply Hm; intros; first [exact I | reflexivity]);
        try (constructor; [exact I | constructor]).
      destruct (qltb wc (ob_time o)); [| constructor].
      constructor; [exact I |]. apply Hm. intros; exact I.
    + destruct (passDone me ns o).
      * apply Hc.
      * destruct (finalizeLoop me ns rrd _ rest) as [evs out] eqn:E.
        cbn [fst]. rewrite app_assoc. apply Forall_app. split; [apply Hc |].
        match type of E with
        | finalizeLoop _ _ _ ?w _ = _ => specialize (IH w); rewrite E in IH; exact IH
        end.
Qed.

Lemma finalizeLoop_recv_flag (me : Z) (ns : list Z) (rrd : bool) (obs : list Obs) :
  forall wc r b, In (EvTestRecv r b) (fst (finalizeLoop me ns rrd wc obs)) -> b = rrd.
Proof.
  intros wc r b H.
  exact (proj1 (Forall_forall _ _) (finalizeLoop_recv_flag_all me ns rrd obs wc) _ H).
Qed.

(** C6 (as the code has it): in [finalizeExchangeMoleculesMPI] the warnings
    carry the counters 1, 2, 3, ... in order, a pass whose waiting time
    exceeds the counter emits one and raises it by one, and with passes
    shorter than a second the counter keeps up with the elapsed seconds;
    the loop exits only after a pass whose waiting time exceeds the fixed
    [deadlockTimeOut] of 60 seconds, and always does so at the first such
    pass, printing the error and one diagnostic per neighbour other than the
    process itself and then calling exit with 457.  Pass by pass: every
    pass the loop reaches makes its calls and then emits a warning exactly
    when its waiting time exceeds the counter (1 plus the number of earlier
    warnings), the warning followed by one diagnostic per neighbour. *)
Theorem finalizeExchange_deadlock_detection (me : Z) (ns : list Z) (rrd : bool)
    (cov : bool * bool * bool) (obs : list Obs) :
  let F := finalizeExchangeMoleculesMPI me ns rrd cov obs in
  (exists n, warnings (fst F) = qseq 1 n)
  /\ (forall c, snd F = Exited c ->
        c = 457%Z
        /\ (exists pre, fst F = pre ++ EvError deadlockTimeOut
                                  :: map EvDiagnostic (others me ns) ++ [EvExit 457])
        /\ exists o, In o obs /\ deadlockTimeOut < ob_time o)
  /\ (forall pre o post, obs = pre ++ o :: post -> continues me ns pre = true ->
        deadlockTimeOut < ob_time o -> snd F = Exited 457)
  /\ (forall pre o, obs = pre ++ [o] -> fastPasses 0 obs -> continues me ns pre = true ->
        ob_time o <= 1 + qnat (List.length (warnings (fst F))))
  /\ (forall pre o post, obs = pre ++ o :: post -> continues me ns pre = true ->
        let E := fst (finalizeExchangeMoleculesMPI me ns rrd cov pre) in
        exists wc evpost,
          wc == 1 + qnat (List.length (warnings E))
          /\ fst F = E ++ passCalls (others me ns) (let '(c0, c1, c2) := cov in rrd && c0 && c1 && c2)
                      ++ passWarning (others me ns) wc (ob_time o) ++ evpost).
Proof.
  intros F. subst F. destruct cov as [[c0 c1] c2]. unfold finalizeExchangeMoleculesMPI.
  set (r := rrd && c0 && c1 && c2).
  split; [| split; [| split; [| split]]].
  - apply finalizeLoop_warnings.
  - intros c Hc.
    destruct (finalizeLoop_exit_shape me ns r obs 1 c Hc) as [H457 Hpre].
    split; [exact H457 | split; [exact Hpre |]].
    exact (finalizeLoop_exit_after_timeout me ns r obs 1 c Hc).
  - intros pre o post -> Hc Ht. exact (finalizeLoop_timeout me ns r o post Ht pre 1 Hc).
  - intros pre o -> Hfast Hc.
    apply (finalizeLoop_cadence me ns r o pre 1 0); [qlra | exact Hfast | exact Hc].
  - intros pre o post -> Hc. cbv zeta. exact (finalizeLoop_pass me ns r o post pre 1 Hc).
Qed.

Lemma finalizeExchange_deadlock_detection_witness :
  (forall c, snd (finalizeExchangeMoleculesMPI 0%Z [0%Z; 1%Z] true (true, true, true)
                  [silentPass (1 # 2); silentPass 61]) = Exited c -> c = 457%Z)
  /\ snd (finalizeExchangeMoleculesMPI 0%Z [0%Z; 1%Z] true (true, true, true)
           [silentPass (1 # 2); silentPass 61]) = Exited 457.
Proof.
  destruct (finalizeExchange_deadlock_detection 0%Z [0%Z; 1%Z] true (true, true, true)
              [silentPass (1 # 2); silentPass 61]) as (_ & Hexit & Htime & _ & _).
  split.
  - intros c Hc. exact (proj1 (Hexit c Hc)).
  - apply (Htime [silentPass (1 # 2)] (silentPass 61) []); [reflexivity | vm_compute; reflexivity |].
    unfold deadlockTimeOut, silentPass. cbn [ob_time]. vm_compute. reflexivity.
Defined.

(** C6 (counterexample): the timeout is not configurable. No input of the
    finalize loop carries a timeout, [deadlockTimeOut] is the constant 60,
    and a single pass after 61 seconds already ends in exit 457 whatever
    flags are passed, although 61 seconds is below a timeout of, say, 120
    seconds that a configuration might ask for. *)
Lemma finalize_timeout_not_configurable :
  deadlockTimeOut == 60
  /\ snd (finalizeExchangeMoleculesMPI 0%Z [1%Z] false (false, false, false) [silentPass 61])
     = Exited 457
  /\ snd (finalizeExchangeMoleculesMPI 0%Z [1%Z] true (true, true, true) [silentPass 61])
     = Exited 457
  /\ 61 < 120.
Proof. vm_compute. repeat split; reflexivity. Qed.

(** C8 (as the code has it): the one-stage finalize loop hands [testRecv]
    duplicate removal exactly when it was requested and the subdomain covers
    the whole domain in all three dimensions; the merge with duplicate
    removal adds no received molecule whose id is already in the halo. *)
Theorem finalizeExchange_dedup_flag (me : Z) (ns : list Z) (rrd c0 c1 c2 : bool)
    (obs : list Obs) (r : Z) (b : bool) :
  In (EvTestRecv r b) (fst (finalizeExchangeMoleculesMPI me ns rrd (c0, c1, c2) obs)) ->
  b = rrd && c0 && c1 && c2
  /\ forall halo received id, In id halo ->
       count_occ Z.eq_dec (mergeReceived b halo received) id
       = if b then count_occ Z.eq_dec halo id
         else (count_occ Z.eq_dec halo id + count_occ Z.eq_dec received id)%nat.
Proof.
  intros H. unfold finalizeExchangeMoleculesMPI in H.
  apply finalizeLoop_recv_flag in H. split; [exact H |].
  intros halo received id Hin. clear H.
  unfold mergeReceived. destruct b; rewrite count_occ_app; [| reflexivity].
  assert (H0 : count_occ Z.eq_dec (filter (fun id0 => negb (existsb (Z.eqb id0) halo)) received) id
               = 0%nat).
  { apply count_occ_not_In. intros Hf. apply filter_In in Hf. destruct Hf as [_ Hf].
    apply negb_true_iff in Hf. rewrite <- Bool.not_true_iff_false in Hf. apply Hf.
    apply existsb_exists. exists id. split; [exact Hin | apply Z.eqb_refl]. }
  rewrite H0. lia.
Qed.

Lemma finalizeExchange_dedup_flag_witness :
  In (EvTestRecv 1%Z true)
     (fst (finalizeExchangeMoleculesMPI 0%Z [1%Z] true (true, true, true) [silentPass 0]))
  /\ true = (true && true && true && true)%bool
  /\ count_occ Z.eq_dec (mergeReceived true [5%Z] [5%Z; 6%Z]) 5%Z = 1%nat.
Proof.
  assert (Hin : In (EvTestRecv 1%Z true)
     (fst (finalizeExchangeMoleculesMPI 0%Z [1%Z] true (true, true, true) [silentPass 0])))
    by (vm_compute; auto 10).
  destruct (finalizeExchange_dedup_flag 0%Z [1%Z] true true true true [silentPass 0] 1%Z true Hin)
    as [Hb Hm].
  split; [exact Hin | split; [exact Hb |]].
  rewrite (Hm [5%Z] [5%Z; 6%Z] 5%Z (or_introl eq_refl)). reflexivity.
Defined.

(** C8 (counterexample): a subdomain that covers the whole domain in the
    first dimension only, with duplicate removal requested, gets no
    duplicate removal: [testRecv] is called with [false], and the merge then
    keeps both the local periodic copy and the received copy of molecule 5. *)
Lemma finalize_partial_cover_no_dedup :
  In (EvTestRecv 1%Z false)
     (fst (finalizeExchangeMoleculesMPI 0%Z [1%Z] true (true, false, false) [silentPass 0]))
  /\ ~ In (EvTestRecv 1%Z true)
       (fst (finalizeExchangeMoleculesMPI 0%Z [1%Z] true (true, false, false) [silentPass 0]))
  /\ mergeReceived false [5%Z] [5%Z] = [5%Z; 5%Z].
Proof.
  split; [vm_compute; auto 10 |].
  split; [| reflexivity].
  vm_compute. intuition discriminate.
Qed.

End HaloFacts.

(* ------------------------------------------------------------------ *)

Module MirrorFacts.

Import Mirror.
Local Open Scope Z_scope.

(** C7 (as the code has it): [Mirror::readXML] first exits with code -1
    when [position/refID], cast to [uint16_t], is above 0 and no
    [DistControl] subject is found, whatever the mirror type.  Past the
    position block, incomplete Meland2004 parameters (no
    [meland/velo_target]) end the run in [Simulation::exit(-2004)], complete
    ones are accepted, and incomplete ramping parameters end it in
    [Simulation::exit(-1)]; in the other revision (no position block), no
    [meland/use_probability] or no [meland/velo_target] ends it in
    [Simulation::exit(-2004)]. *)
Theorem readXML_incomplete_params_exit (subjectFound : bool) (cfg : XMLConfig) :
  ((0 < refID cfg mod 65536) /\ subjectFound = false ->
     forall type, readXML subjectFound type cfg = SimExit (-1))
  /\ (refID cfg mod 65536 = 0 \/ subjectFound = true ->
       (present cfg "meland/velo_target" = false ->
          readXML subjectFound MT_MELAND_2004 cfg = SimExit (-2004))
       /\ (present cfg "meland/velo_target" = true ->
          readXML subjectFound MT_MELAND_2004 cfg = ReadOk)
       /\ (present cfg "ramping/start" && present cfg "ramping/stop"
             && present cfg "ramping/treatment" = false ->
           readXML subjectFound MT_RAMPING cfg = SimExit (-1)))
  /\ (present cfg "meland/use_probability" && present cfg "meland/velo_target" = false ->
        readXML_meland_rev MT_MELAND_2004 cfg = SimExit (-2004)).
Proof.
  unfold readXML, positionBlock.
  split; [|split].
  - intros [Hr Hs] type. rewrite Hs. apply Z.ltb_lt in Hr. rewrite Hr. reflexivity.
  - intros Hp.
    assert (Hb : ((0 <? refID cfg mod 65536) && negb subjectFound)%bool = false).
    { destruct Hp as [Hp|Hp]; rewrite Hp; [reflexivity | apply andb_false_r]. }
    rewrite Hb. unfold readXMLType. cbn iota.
    repeat split; intros H; rewrite H; reflexivity.
  - unfold readXML_meland_rev. cbn iota. intros H; rewrite H; reflexivity.
Qed.

Lemma readXML_incomplete_params_exit_witness :
  readXML false MT_RAMPING [("position/refID"%string, 1)] = SimExit (-1)
  /\ readXML true MT_MELAND_2004 [("position/refID"%string, 1)] = SimExit (-2004)
  /\ readXML_meland_rev MT_MELAND_2004 [("meland/velo_target"%string, 1)] = SimExit (-2004).
Proof.
  destruct (readXML_incomplete_params_exit false [("position/refID"%string, 1)]) as [H1 _].
  destruct (readXML_incomplete_params_exit true [("position/refID"%string, 1)]) as [_ [H2 _]].
  destruct (readXML_incomplete_params_exit true [("meland/velo_target"%string, 1)]) as [_ [_ H3]].
  split; [|split].
  - apply H1. split; [reflexivity | reflexivity].
  - exact (proj1 (H2 (or_intror eq_refl)) eq_refl).
  - apply H3. reflexivity.
Defined.

(** C7 (counterexample): an empty Meland2004 block ends the run with code
    -2004, not 2004; an empty ramping block, also incomplete scenario
    parameters, ends it with -1; and a complete Meland2004 block with a
    reference id of 1 and no [DistControl] plugin ends it with -1 before
    the block is read. *)
Lemma readXML_meland_exit_code_negative :
  readXML false MT_MELAND_2004 [] = SimExit (-2004)
  /\ SimExit (-2004) <> SimExit 2004
  /\ readXML false MT_RAMPING [] = SimExit (-1)
  /\ SimExit (-1) <> SimExit 2004
  /\ readXML false MT_MELAND_2004 [("position/refID"%string, 1); ("meland/velo_target"%string, 0)]
     = SimExit (-1).
Proof. repeat split; try reflexivity; discriminate. Qed.

End MirrorFacts.

(* ------------------------------------------------------------------ *)

Module KernelFacts.

Import LJ Kernels.
Local Open Scope R_scope.

Lemma scalProd_swap (a1 a2 a3 b1 b2 b3 : R) :
  scalProd (b1 - a1) (b2 - a2) (b3 - a3) (b1 - a1) (b2 - a2) (b3 - a3)
  = scalProd (a1 - b1) (a2 - b2) (a3 - b3) (a1 - b1) (a2 - b2) (a3 - b3).
Proof. unfold scalProd. ring. Qed.

Lemma LJ_r2_swap (a1 a2 a3 b1 b2 b3 : R) :
  (b1 - a1) * (b1 - a1) + (b2 - a2) * (b2 - a2) + (b3 - a3) * (b3 - a3)
  = (a1 - b1) * (a1 - b1) + (a2 - b2) * (a2 - b2) + (a3 - b3) * (a3 - b3).
Proof. ring. Qed.

Ltac masked_lane :=
  cbn [applymask]; rewrite ?sqrt_0;
  repeat match goal with |- context [if ?b then _ else _] => destruct b end;
  cbv zeta; cbn [vx vy vz fst snd];
  unfold zeroV, scalProd, fma, fms, fnma;
  repeat (f_equal; try ring).

(** A masked-out lane of [_loopBodyLJ] writes a zero force and leaves
    both sums unchanged. *)
Theorem loopBodyLJ_masked_noop (mac : bool) (m1 r1 m2 r2 : vec3) (su sv eps_24 sig2 shift6 : R) :
  loopBodyLJ mac m1 r1 m2 r2 su sv false eps_24 sig2 shift6 = (zeroV, su, sv).
Proof. unfold loopBodyLJ. masked_lane. Qed.

(** Swapping the two sites of [_loopBodyLJ] negates the force and adds
    the same potential energy and virial. *)
Theorem loopBodyLJ_swap (mac : bool) (m1 r1 m2 r2 : vec3) (su sv : R) (mask : bool)
    (eps_24 sig2 shift6 : R) :
  let '(f, su', sv') := loopBodyLJ mac m1 r1 m2 r2 su sv mask eps_24 sig2 shift6 in
  loopBodyLJ mac m2 r2 m1 r1 su sv mask eps_24 sig2 shift6 = (vneg f, su', sv').
Proof.
  unfold loopBodyLJ. cbv zeta.
  rewrite (LJ_r2_swap (vx r1) (vy r1) (vz r1) (vx r2) (vy r2) (vz r2)).
  set (i := applymask _ mask).
  destruct mac; cbn [vx vy vz fst snd vneg]; unfold vneg; cbn [vx vy vz];
    repeat (f_equal; try ring).
Qed.

(** A masked-out lane of [_loopBodyCharge] writes a zero force and leaves
    both sums unchanged. *)
Theorem loopBodyCharge_masked_noop (mac : bool) (m1 r1 : vec3) (qii : R) (m2 r2 : vec3)
    (qjj su sv : R) :
  loopBodyCharge mac m1 r1 qii m2 r2 qjj su sv false = (zeroV, su, sv).
Proof. unfold loopBodyCharge. masked_lane. Qed.

(** On an unmasked lane at distance [r > 0], [_loopBodyCharge] computes
    the Coulomb pair: potential [qii qjj / r], force [qii qjj / r^3] times
    the separation; swapping the two charges negates the force and adds the
    same energy and virial. *)
Theorem loopBodyCharge_coulomb (mac : bool) (m1 r1 : vec3) (qii : R) (m2 r2 : vec3)
    (qjj su sv : R) :
  let d2 := scalProd (vx r1 - vx r2) (vy r1 - vy r2) (vz r1 - vz r2)
                     (vx r1 - vx r2) (vy r1 - vy r2) (vz r1 - vz r2) in
  0 < d2 ->
  let '(f, su', sv') := loopBodyCharge mac m1 r1 qii m2 r2 qjj su sv true in
  f = mkVec3 ((vx r1 - vx r2) * (qii * qjj / (d2 * sqrt d2)))
             ((vy r1 - vy r2) * (qii * qjj / (d2 * sqrt d2)))
             ((vz r1 - vz r2) * (qii * qjj / (d2 * sqrt d2)))
  /\ su' = (if mac then su + qii * qjj / sqrt d2 else su)
  /\ loopBodyCharge mac m2 r2 qjj m1 r1 qii su sv true = (vneg f, su', sv').
Proof.
  intros d2 Hd2. unfold loopBodyCharge. cbv zeta. cbn [applymask].
  rewrite (scalProd_swap (vx r1) (vy r1) (vz r1) (vx r2) (vy r2) (vz r2)).
  fold d2.
  assert (Hs : sqrt (1 / d2) = 1 / sqrt d2).
  { rewrite sqrt_div_alt by lra. rewrite sqrt_1. reflexivity. }
  assert (Hsq : 0 < sqrt d2) by (apply sqrt_lt_R0; exact Hd2).
  rewrite Hs.
  destruct mac; cbn [vx vy vz fst snd]; unfold vneg, scalProd; cbn [vx vy vz];
    (split; [f_equal; field; lra | split; [try field; try reflexivity; lra |]]);
    repeat (f_equal; try ring).
Qed.

Lemma loopBodyCharge_coulomb_witness :
  0 < scalProd (1 - 0) (0 - 0) (0 - 0) (1 - 0) (0 - 0) (0 - 0) /\
  let '(_, su', _) := loopBodyCharge true zeroV (mkVec3 1 0 0) 2 zeroV zeroV 3 0 0 true in
  su' = 6.
Proof.
  assert (Hd : 0 < scalProd (1 - 0) (0 - 0) (0 - 0) (1 - 0) (0 - 0) (0 - 0))
    by (unfold scalProd; lra).
  split; [exact Hd|].
  pose proof (loopBodyCharge_coulomb true zeroV (mkVec3 1 0 0) 2 zeroV zeroV 3 0 0) as H.
  cbv zeta in H. cbn [vx vy vz zeroV] in H. specialize (H Hd).
  destruct (loopBodyCharge true zeroV (mkVec3 1 0 0) 2 zeroV zeroV 3 0 0 true)
    as [[f su'] sv'].
  destruct H as (_ & Hsu & _). rewrite Hsu.
  replace (scalProd (1 - 0) (0 - 0) (0 - 0) (1 - 0) (0 - 0) (0 - 0)) with 1
    by (unfold scalProd; ring).
  rewrite sqrt_1. field.
Defined.

(** A masked-out lane of [_loopBodyChargeDipole] writes zero force and
    torque and leaves both sums unchanged. *)
Theorem loopBodyChargeDipole_masked_noop (mac : bool) (m1 r1 : vec3) (q : R)
    (m2 r2 e : vec3) (p su sv : R) :
  loopBodyChargeDipole mac m1 r1 q m2 r2 e p su sv false = (zeroV, zeroV, su, sv).
Proof. unfold loopBodyChargeDipole. masked_lane. Qed.

(** The torque [_loopBodyChargeDipole] returns for the dipole is
    perpendicular to the dipole axis [e], for every input. *)
Theorem loopBodyChargeDipole_torque_perp (mac : bool) (m1 r1 : vec3) (q : R)
    (m2 r2 e : vec3) (p su sv : R) (mask : bool) :
  let '(_, M, _, _) := loopBodyChargeDipole mac m1 r1 q m2 r2 e p su sv mask in
  dot M e = 0.
Proof.
  unfold loopBodyChargeDipole. cbv zeta.
  destruct mac; cbn [vx vy vz fst snd]; unfold dot, fms, fnma, scalProd; cbn [vx vy vz]; ring.
Qed.

(** A masked-out lane of [_loopBodyDipole] writes zero force and torques
    and leaves the energy, virial and reaction-field sums unchanged. *)
Theorem loopBodyDipole_masked_noop (mac : bool) (m1 r1 eii : vec3) (pii : R)
    (m2 r2 ejj : vec3) (pjj su sv srf epsRFInvrc3 : R) :
  loopBodyDipole mac m1 r1 eii pii m2 r2 ejj pjj su sv srf false epsRFInvrc3
  = (zeroV, zeroV, zeroV, su, sv, srf).
Proof. unfold loopBodyDipole. masked_lane. Qed.

(** The torques of [_loopBodyDipole] are perpendicular to their own dipole
    axes: [M1] to [eii], [M2] to [ejj]. *)
Theorem loopBodyDipole_torque_perp (mac : bool) (m1 r1 eii : vec3) (pii : R)
    (m2 r2 ejj : vec3) (pjj su sv srf : R) (mask : bool) (epsRFInvrc3 : R) :
  let '(_, M1, M2, _, _, _) :=
    loopBodyDipole mac m1 r1 eii pii m2 r2 ejj pjj su sv srf mask epsRFInvrc3 in
  dot M1 eii = 0 /\ dot M2 ejj = 0.
Proof.
  unfold loopBodyDipole. cbv zeta.
  destruct mac; cbn [vx vy vz fst snd]; unfold dot, fma, fms, fnma, scalProd; cbn [vx vy vz];
    split; ring.
Qed.

(** Swapping the two dipoles of [_loopBodyDipole] negates the force and
    adds the same energy, virial and reaction-field contribution. *)
Theorem loopBodyDipole_swap (mac : bool) (m1 r1 eii : vec3) (pii : R)
    (m2 r2 ejj : vec3) (pjj su sv srf : R) (mask : bool) (epsRFInvrc3 : R) :
  let '(f, _, _, su', sv', srf') :=
    loopBodyDipole mac m1 r1 eii pii m2 r2 ejj pjj su sv srf mask epsRFInvrc3 in
  let '(f', _, _, su'', sv'', srf'') :=
    loopBodyDipole mac m2 r2 ejj pjj m1 r1 eii pii su sv srf mask epsRFInvrc3 in
  f' = vneg f /\ su'' = su' /\ sv'' = sv' /\ srf'' = srf'.
Proof.
  unfold loopBodyDipole. cbv zeta.
  rewrite (scalProd_swap (vx r1) (vy r1) (vz r1) (vx r2) (vy r2) (vz r2)).
  set (i := applymask (1 / _) mask).
  set (s := sqrt i).
  replace (pjj * pii) with (pii * pjj) by ring.
  set (pp := applymask (pii * pjj) mask).
  destruct mac; cbn [vx vy vz fst snd]; unfold vneg, fma, fms, fnma, scalProd; cbn [vx vy vz];
    repeat split; try (f_equal; ring); ring.
Qed.

(** A masked-out lane of [_loopBodyChargeQuadrupole] writes zero force and
    torque and leaves both sums unchanged. *)
Theorem loopBodyChargeQuadrupole_masked_noop (mac : bool) (m1 r1 : vec3) (q : R)
    (m2 r2 ejj : vec3) (m su sv : R) :
  loopBodyChargeQuadrupole mac m1 r1 q m2 r2 ejj m su sv false = (zeroV, zeroV, su, sv).
Proof. unfold loopBodyChargeQuadrupole. masked_lane. Qed.

(** The torque [_loopBodyChargeQuadrupole] returns for the quadrupole is
    perpendicular to its axis [ejj]. *)
Theorem loopBodyChargeQuadrupole_torque_perp (mac : bool) (m1 r1 : vec3) (q : R)
    (m2 r2 ejj : vec3) (m su sv : R) (mask : bool) :
  let '(_, M, _, _) := loopBodyChargeQuadrupole mac m1 r1 q m2 r2 ejj m su sv mask in
  dot M ejj = 0.
Proof.
  unfold loopBodyChargeQuadrupole. cbv zeta.
  destruct mac; cbn [vx vy vz fst snd]; unfold dot, fma, fms, fnma, scalProd; cbn [vx vy vz]; ring.
Qed.

(** A masked-out lane of [_loopBodyDipoleQuadrupole] writes zero force and
    torques and leaves both sums unchanged. *)
Theorem loopBodyDipoleQuadrupole_masked_noop (mac : bool) (m1 r1 eii : vec3) (p : R)
    (m2 r2 ejj : vec3) (m su sv : R) :
  loopBodyDipoleQuadrupole mac m1 r1 eii p m2 r2 ejj m su sv false
  = (zeroV, zeroV, zeroV, su, sv).
Proof. unfold loopBodyDipoleQuadrupole. masked_lane. Qed.

(** The torques of [_loopBodyDipoleQuadrupole] are perpendicular to their
    own axes: [M1] to [eii], [M2] to [ejj]. *)
Theorem loopBodyDipoleQuadrupole_torque_perp (mac : bool) (m1 r1 eii : vec3) (p : R)
    (m2 r2 ejj : vec3) (m su sv : R) (mask : bool) :
  let '(_, M1, M2, _, _) := loopBodyDipoleQuadrupole mac m1 r1 eii p m2 r2 ejj m su sv mask in
  dot M1 eii = 0 /\ dot M2 ejj = 0.
Proof.
  unfold loopBodyDipoleQuadrupole. cbv zeta.
  destruct mac; cbn [vx vy vz fst snd]; unfold dot, fma, fms, fnma, scalProd; cbn [vx vy vz];
    split; ring.
Qed.

(** A masked-out lane of [_loopBodyQuadrupole] writes zero force and
    torques and leaves both sums unchanged. *)
Theorem loopBodyQuadrupole_masked_noop (mac : bool) (m1 r1 eii : vec3) (mii : R)
    (m2 r2 ejj : vec3) (mjj su sv : R) :
  loopBodyQuadrupole mac m1 r1 eii mii m2 r2 ejj mjj su sv false
  = (zeroV, zeroV, zeroV, su, sv).
Proof. unfold loopBodyQuadrupole. masked_lane. Qed.

(** The torques of [_loopBodyQuadrupole] are perpendicular to their own
    axes: [Mii] to [eii], [Mjj] to [ejj]. *)
Theorem loopBodyQuadrupole_torque_perp (mac : bool) (m1 r1 eii : vec3) (mii : R)
    (m2 r2 ejj : vec3) (mjj su sv : R) (mask : bool) :
  let '(_, M1, M2, _, _) := loopBodyQuadrupole mac m1 r1 eii mii m2 r2 ejj mjj su sv mask in
  dot M1 eii = 0 /\ dot M2 ejj = 0.
Proof.
  unfold loopBodyQuadrupole. cbv zeta.
  destruct mac; cbn [vx vy vz fst snd]; unfold dot, fma, fms, fnma, scalProd; cbn [vx vy vz];
    split; ring.
Qed.

(** Swapping the two quadrupoles of [_loopBodyQuadrupole] negates the
    force and adds the same energy and virial. *)
Theorem loopBodyQuadrupole_swap (mac : bool) (m1 r1 eii : vec3) (mii : R)
    (m2 r2 ejj : vec3) (mjj su sv : R) (mask : bool) :
  let '(f, _, _, su', sv') := loopBodyQuadrupole mac m1 r1 eii mii m2 r2 ejj mjj su sv mask in
  let '(f', _, _, su'', sv'') := loopBodyQuadrupole mac m2 r2 ejj mjj m1 r1 eii mii su sv mask in
  f' = vneg f /\ su'' = su' /\ sv'' = sv'.
Proof.
  unfold loopBodyQuadrupole. cbv zeta.
  rewrite (scalProd_swap (vx r1) (vy r1) (vz r1) (vx r2) (vy r2) (vz r2)).
  set (i := applymask (1 / _) mask).
  set (s := sqrt i).
  replace (mjj * mii) with (mii * mjj) by ring.
  destruct mac; cbn [vx vy vz fst snd]; unfold vneg, fma, fms, fnma, scalProd; cbn [vx vy vz];
    repeat split; try (f_equal; ring); ring.
Qed.

End KernelFacts.
(* ------------------------------------------------------------------ *)
(** ** Facts on the traversal bookkeeping *)

Module SoAFacts.

Import LJ SoAPipeline.
Local Open Scope R_scope.

(** *** Pool and cell pointers *)

Lemma firstn_skipn_at {A : Type} (l1 l2 : list A) (x y : A) :
  firstn (List.length l1) (l1 ++ x :: l2) ++ y :: skipn (S (List.length l1)) (l1 ++ x :: l2)
  = l1 ++ y :: l2.
Proof.
  induction l1 as [|h t IH]; [reflexivity|].
  cbn [List.length]. rewrite <- app_comm_cons.
  change (firstn (S (List.length t)) (h :: ?r)) with (h :: firstn (List.length t) r).
  change (skipn (S (S (List.length t))) (h :: ?r)) with (skipn (S (List.length t)) r).
  cbn [app]. now rewrite IH.
Qed.

Lemma held_app {B : Type} (a b : CellSoAs B) : held (a ++ b) = held a ++ held b.
Proof. unfold held. apply flat_map_app. Qed.

Lemma nth_error_split_at {A : Type} (l : list A) (i : nat) (x : A) :
  nth_error l i = Some x ->
  exists l1 l2, l = l1 ++ x :: l2 /\ List.length l1 = i.
Proof. apply nth_error_split. Qed.

Lemma preprocessPool_conserves {B : Type} i (pool p' : list B) (cells c' : CellSoAs B) :
  preprocessPool i pool cells = Some (p', c') ->
  Permutation (p' ++ held c') (pool ++ held cells) /\ List.length c' = List.length cells.
Proof.
  unfold preprocessPool.
  destruct (nth_error cells i) as [[b0|]|] eqn:E; try discriminate.
  destruct (rev pool) as [|b rest] eqn:R; try discriminate.
  intros H; injection H as <- <-.
  destruct (nth_error_split_at _ _ _ E) as (l1 & l2 & -> & <-).
  change (match l1 ++ None :: l2 with [] => [] | _ :: l => skipn (List.length l1) l end)
    with (skipn (S (List.length l1)) (l1 ++ None :: l2)).
  rewrite firstn_skipn_at.
  assert (Hp : pool = rev rest ++ [b]) by (rewrite <- (rev_involutive pool), R; reflexivity).
  rewrite Hp, !held_app, !length_app; cbn.
  split; [|reflexivity].
  rewrite <- !app_assoc; cbn.
  apply Permutation_app_head. symmetry. apply Permutation_middle.
Qed.

Lemma postprocessPool_conserves {B : Type} i (pool p' : list B) (cells c' : CellSoAs B) :
  postprocessPool i pool cells = Some (p', c') ->
  Permutation (p' ++ held c') (pool ++ held cells) /\ List.length c' = List.length cells.
Proof.
  unfold postprocessPool.
  destruct (nth_error cells i) as [[b|]|] eqn:E; try discriminate.
  intros H; injection H as <- <-.
  destruct (nth_error_split_at _ _ _ E) as (l1 & l2 & -> & <-).
  change (match l1 ++ Some b :: l2 with [] => [] | _ :: l => skipn (List.length l1) l end)
    with (skipn (S (List.length l1)) (l1 ++ Some b :: l2)).
  rewrite firstn_skipn_at, !held_app, !length_app; cbn.
  split; [|reflexivity].
  rewrite <- !app_assoc; cbn.
  apply Permutation_app_head. apply Permutation_middle.
Qed.

(** *** LJ-centre layout *)

Lemma lsum_cons (a : nat) (l : list nat) : list_sum (a :: l) = (a + list_sum l)%nat.
Proof. reflexivity. Qed.

Lemma addCenterForces_force (soa_f : nat -> vec3) (m : Molecule) (b i n j : nat) :
  ljc_force (addCenterForces soa_f m b i n) j =
  if andb (Nat.leb i j) (Nat.ltb j (i + n))
  then vplus (ljc_force m j) (soa_f (b + (j - i))%nat)
  else ljc_force m j.
Proof.
  revert m b i. induction n as [|n IH]; intros m b i; cbn [addCenterForces].
  - destruct (Nat.leb_spec i j), (Nat.ltb_spec j (i + 0)); cbn; try reflexivity; lia.
  - rewrite IH. cbn [ljc_force Fljcenteradd].
    destruct (Nat.eqb_spec j i) as [->|Hne].
    + destruct (Nat.leb_spec (S i) i); [lia|]. cbn [andb].
      destruct (Nat.leb_spec i i), (Nat.ltb_spec i (i + S n)); try lia; cbn [andb].
      rewrite Nat.sub_diag, Nat.add_0_r. reflexivity.
    + destruct (Nat.leb_spec (S i) j), (Nat.ltb_spec j (S i + n)),
               (Nat.leb_spec i j), (Nat.ltb_spec j (i + S n)); cbn [andb]; try lia; try reflexivity.
      f_equal. f_equal. lia.
Qed.

Lemma addCenterForces_shape (soa_f : nat -> vec3) (m : Molecule) (b i n : nat) :
  numLJcenters (addCenterForces soa_f m b i n) = numLJcenters m /\
  mol_r (addCenterForces soa_f m b i n) = mol_r m.
Proof.
  revert m b i. induction n as [|n IH]; intros m b i; cbn; [auto|].
  destruct (IH (Fljcenteradd m i (soa_f b)) (S b) (S i)) as [-> ->]. auto.
Qed.

Lemma length_postprocessLJ soa_f b mols :
  List.length (postprocessLJ soa_f b mols) = List.length mols.
Proof. revert b; induction mols; intros; cbn; auto. Qed.

Lemma postprocessLJ_nth soa_f (mols : list Molecule) (b k : nat) (d : Molecule) :
  (k < List.length mols)%nat ->
  nth k (postprocessLJ soa_f b mols) d =
  addCenterForces soa_f (nth k mols d) (b + ljOffset mols k) 0 (numLJcenters (nth k mols d)).
Proof.
  revert b k. induction mols as [|m rest IH]; intros b k Hk; cbn in Hk; [lia|].
  destruct k as [|k]; cbn [postprocessLJ nth].
  - unfold ljOffset; cbn. now rewrite Nat.add_0_r.
  - rewrite IH by lia. f_equal. unfold ljOffset; cbn [firstn map]; rewrite lsum_cons. lia.
Qed.

Lemma preprocessLJ_nth compIDs (mols : list Molecule) (k j : nat) (d : Molecule) :
  (k < List.length mols)%nat -> (j < numLJcenters (nth k mols d))%nat ->
  nth_error (preprocessLJ compIDs mols) (ljOffset mols k + j) =
  Some (let m := nth k mols d in
        mkLJEntry (mol_r m) (vplus (ljcenter_d m j) (mol_r m)) (mkVec3 0 0 0)
                  (compIDs (componentid m) + j) 0).
Proof.
  revert k. induction mols as [|m rest IH]; intros k Hk Hj; cbn in Hk; [lia|].
  unfold preprocessLJ; cbn [flat_map].
  destruct k as [|k]; cbn [nth] in Hj |- *.
  - unfold ljOffset; cbn. rewrite nth_error_app1 by (rewrite length_map, length_seq; lia).
    rewrite nth_error_map, nth_error_seq.
    destruct (Nat.ltb_spec j (numLJcenters m)); [|lia]. reflexivity.
  - unfold ljOffset; cbn [firstn map]; rewrite lsum_cons.
    rewrite nth_error_app2 by (rewrite length_map, length_seq; lia).
    rewrite length_map, length_seq.
    replace (numLJcenters m + list_sum (map numLJcenters (firstn k rest)) + j - numLJcenters m)%nat
      with (ljOffset rest k + j)%nat by (unfold ljOffset; lia).
    apply IH; lia.
Qed.

(** *** The [_compIDs] table *)

Lemma skipn_nth_cons {A : Type} (k : nat) (l : list A) (d : A) :
  (k < List.length l)%nat -> skipn k l = nth k l d :: skipn (S k) l.
Proof.
  revert l; induction k as [|k IH]; intros [|x l] H; cbn in H |- *; try lia; auto.
  apply IH; lia.
Qed.

Lemma length_setNth l i v : List.length (setNth l i v) = List.length l.
Proof. revert i; induction l; intros [|i]; cbn; auto. Qed.

Lemma nth_setNth_same l i v : (i < List.length l)%nat -> nth i (setNth l i v) 0%nat = v.
Proof. revert i; induction l; intros [|i] H; cbn in *; auto; try lia. apply IHl; lia. Qed.

Lemma nth_setNth_other l i j v : i <> j -> nth j (setNth l i v) 0%nat = nth j l 0%nat.
Proof. revert i j; induction l; intros [|i] [|j] H; cbn; auto; try congruence. Qed.

Lemma maxID_bound (comps : list Component) (a : nat) :
  (a <= fold_left (fun acc c => Nat.max acc (compID c)) comps a)%nat /\
  Forall (fun c => compID c <= fold_left (fun acc c => Nat.max acc (compID c)) comps a)%nat comps.
Proof.
  revert a; induction comps as [|c rest IH]; intros a; cbn; [split; auto|].
  destruct (IH (Nat.max a (compID c))) as [H1 H2]. split; [lia|].
  constructor; [lia|exact H2].
Qed.

Definition stepCompIDs : list nat * nat -> Component -> list nat * nat :=
  fun '(tbl, centers) c => (setNth tbl (compID c) centers, (centers + compLJ c)%nat).

Lemma fold_compIDs_other (comps : list Component) tbl c0 id :
  ~ In id (map compID comps) ->
  nth id (fst (fold_left stepCompIDs comps (tbl, c0))) 0%nat = nth id tbl 0%nat.
Proof.
  revert tbl c0; induction comps as [|c rest IH]; intros tbl c0 Hn; cbn in *; auto.
  rewrite IH by tauto. apply nth_setNth_other. tauto.
Qed.

Lemma fold_compIDs_length (comps : list Component) tbl c0 :
  List.length (fst (fold_left stepCompIDs comps (tbl, c0))) = List.length tbl /\
  snd (fold_left stepCompIDs comps (tbl, c0)) = (c0 + list_sum (map compLJ comps))%nat.
Proof.
  revert tbl c0; induction comps as [|c rest IH]; intros tbl c0; cbn [fold_left map].
  { unfold list_sum; cbn. split; lia. }
  rewrite lsum_cons.
  change (stepCompIDs (tbl, c0) c) with (setNth tbl (compID c) c0, (c0 + compLJ c)%nat).
  destruct (IH (setNth tbl (compID c) c0) (c0 + compLJ c)%nat) as [-> ->].
  rewrite length_setNth. split; lia.
Qed.

Lemma fold_compIDs_entry (comps : list Component) tbl c0 k d :
  NoDup (map compID comps) ->
  Forall (fun c => compID c < List.length tbl)%nat comps ->
  (k < List.length comps)%nat ->
  nth (compID (nth k comps d)) (fst (fold_left stepCompIDs comps (tbl, c0))) 0%nat
  = (c0 + list_sum (map compLJ (firstn k comps)))%nat.
Proof.
  revert tbl c0 k; induction comps as [|c rest IH]; intros tbl c0 k Hnd Hb Hk; cbn in Hk; [lia|].
  inversion Hnd as [|? ? Hnin Hnd']; subst. inversion Hb as [|? ? Hc Hb']; subst.
  destruct k as [|k]; cbn [nth firstn map fold_left];
    change (stepCompIDs (tbl, c0) c) with (setNth tbl (compID c) c0, (c0 + compLJ c)%nat).
  - rewrite fold_compIDs_other by exact Hnin. rewrite nth_setNth_same by exact Hc.
    unfold list_sum; cbn; lia.
  - rewrite lsum_cons, IH; auto; [lia| |lia].
    eapply Forall_impl; [|exact Hb']. intros x Hx; cbn. rewrite length_setNth. exact Hx.
Qed.

Lemma buildCompIDs_fold comps :
  buildCompIDs comps =
  fold_left stepCompIDs comps
    (repeat 0%nat (S (fold_left (fun acc c => Nat.max acc (compID c)) comps 0%nat)), 0%nat).
Proof. reflexivity. Qed.

(** *** Properties *)

(** [initTraversal(numCells)] grows the pool to at least [numCells] buffers,
    keeping the old ones first and in order and appending one newly
    allocated buffer per missing cell; when the old buffers come from
    earlier allocations and the allocations give distinct buffers, the
    appended ones are pairwise distinct and distinct from the old ones.  It
    resets the four sums, so an [endTraversal] right after it reports a
    virial and a potential energy of 0. *)
Theorem initTraversal_pool_reset {B : Type} (alloc : nat -> B) (next numCells : nat)
    (s : VCP B) :
  (forall a a', alloc a = alloc a' -> a = a') ->
  (forall b, In b (particleCellDataVector s) -> exists a, (a < next)%nat /\ b = alloc a) ->
  NoDup (particleCellDataVector s) ->
  let pool := particleCellDataVector s in
  let '(s', next') := initTraversal alloc next numCells s in
  let pool' := particleCellDataVector s' in
  List.length pool' = Nat.max (List.length pool) numCells /\
  firstn (List.length pool) pool' = pool /\
  skipn (List.length pool) pool' = map alloc (seq next (next' - next)) /\
  NoDup pool' /\
  (forall b, In b (skipn (List.length pool) pool') -> ~ In b pool) /\
  endTraversal s' = (0, 0).
Proof.
  intros Hinj Hold Hnd. cbv zeta. unfold initTraversal.
  set (pool := particleCellDataVector s).
  assert (Hfresh : forall k b, In b (map alloc (seq next k)) -> ~ In b pool).
  { intros k b Hb Hp. apply in_map_iff in Hb as (a & <- & Ha). apply in_seq in Ha.
    destruct (Hold _ Hp) as (a' & Ha' & E). apply Hinj in E. lia. }
  assert (Hnd' : forall k, NoDup (map alloc (seq next k))).
  { intros k. apply NoDup_map_NoDup_ForallPairs; [intros x y _ _; apply Hinj | apply seq_NoDup]. }
  destruct (Nat.ltb_spec (List.length pool) numCells) as [Hlt | Hge];
    cbn [particleCellDataVector]; unfold endTraversal; cbn [virial upot6lj upotXpoles myRF].
  - repeat split.
    + rewrite length_app, length_map, length_seq. lia.
    + rewrite firstn_app, Nat.sub_diag, firstn_all. cbn. apply app_nil_r.
    + rewrite skipn_app, Nat.sub_diag, skipn_all. cbn.
      f_equal. f_equal. lia.
    + apply NoDup_app; [exact Hnd | apply Hnd' |].
      intros b Hb Hb'. exact (Hfresh _ b Hb' Hb).
    + rewrite skipn_app, Nat.sub_diag, skipn_all. cbn. apply Hfresh.
    + f_equal; field.
  - repeat split.
    + lia.
    + apply firstn_all.
    + rewrite skipn_all, Nat.sub_diag. reflexivity.
    + exact Hnd.
    + rewrite skipn_all. intros b [].
    + f_equal; field.
Qed.

Lemma initTraversal_pool_reset_witness :
  NoDup (particleCellDataVector
           (fst (initTraversal (fun a : nat => a) 2 4 (mkVCP 1 1 1 1 [0; 1]%nat))))
  /\ particleCellDataVector
       (fst (initTraversal (fun a : nat => a) 2 4 (mkVCP 1 1 1 1 [0; 1]%nat))) = [0; 1; 2; 3]%nat.
Proof.
  assert (H1 : forall a a' : nat, (fun a => a) a = (fun a => a) a' -> a = a')
    by (intros a a' E; exact E).
  assert (H2 : forall b, In b (particleCellDataVector (mkVCP 1 1 1 1 [0; 1]%nat)) ->
                         exists a, (a < 2)%nat /\ b = (fun a => a) a).
  { intros b Hb. exists b. split; [| reflexivity].
    cbn in Hb. destruct Hb as [<- | [<- | []]]; lia. }
  assert (H3 : NoDup (particleCellDataVector (mkVCP 1 1 1 1 [0; 1]%nat))).
  { cbn. constructor; [intros [E | []]; discriminate | constructor; [intros [] | constructor]]. }
  destruct (initTraversal_pool_reset (fun a : nat => a) 2 4 (mkVCP 1 1 1 1 [0; 1]%nat) H1 H2 H3)
    as (_ & _ & _ & Hnd & _).
  split; [exact Hnd | reflexivity].
Defined.

(** [postprocessCell] undoes [preprocessCell] on the pool and the cell:
    after a successful [preprocessCell(c)], [postprocessCell(c)] succeeds and
    gives back the same pool, in the same order, and a null pointer in [c]. *)
Theorem preprocess_postprocess_pool {B : Type} (i : nat) (pool p' : list B) (cells c' : CellSoAs B) :
  preprocessPool i pool cells = Some (p', c') ->
  postprocessPool i p' c' = Some (pool, cells).
Proof.
  unfold preprocessPool.
  destruct (nth_error cells i) as [[b0|]|] eqn:E; try discriminate.
  destruct (rev pool) as [|b rest] eqn:R; try discriminate.
  intros H; injection H as <- <-.
  destruct (nth_error_split_at _ _ _ E) as (l1 & l2 & -> & <-).
  change (match l1 ++ None :: l2 with [] => [] | _ :: l => skipn (List.length l1) l end)
    with (skipn (S (List.length l1)) (l1 ++ None :: l2)).
  rewrite firstn_skipn_at.
  unfold postprocessPool.
  rewrite nth_error_app2, Nat.sub_diag by lia. cbn [nth_error].
  change (skipn (S (List.length l1)) (l1 ++ Some b :: l2))
    with (skipn (S (List.length l1)) (l1 ++ Some b :: l2)).
  rewrite firstn_skipn_at.
  do 2 f_equal. rewrite <- (rev_involutive pool), R. reflexivity.
Qed.

(** Over any sequence of [preprocessCell] / [postprocessCell] calls that
    passes its assertions, no [CellDataSoA] buffer is lost or duplicated:
    the pool and the buffers the cells hold form the same multiset before
    and after, and the cell list keeps its length. *)
Theorem runPool_conserves_buffers {B : Type} (calls : list CellCall) (pool p' : list B)
    (cells c' : CellSoAs B) :
  runPool calls pool cells = Some (p', c') ->
  Permutation (p' ++ held c') (pool ++ held cells) /\ List.length c' = List.length cells.
Proof.
  revert pool cells. induction calls as [|[i|i] rest IH]; intros pool cells H; cbn [runPool] in H.
  - injection H as <- <-. split; reflexivity.
  - destruct (preprocessPool i pool cells) as [[p c]|] eqn:E; [|discriminate].
    destruct (preprocessPool_conserves _ _ _ _ _ E) as [P1 L1].
    destruct (IH _ _ H) as [P2 L2]. split; [eapply Permutation_trans; eauto | congruence].
  - destruct (postprocessPool i pool cells) as [[p c]|] eqn:E; [|discriminate].
    destruct (postprocessPool_conserves _ _ _ _ _ E) as [P1 L1].
    destruct (IH _ _ H) as [P2 L2]. split; [eapply Permutation_trans; eauto | congruence].
Qed.

(** [preprocessCell] and [postprocessCell] agree on the LJ-centre layout of
    the SoA: the slot [ljOffset k + j] is filled with centre [j] of molecule
    [k] (its molecule position, centre position, a zero force and the
    parameter row [_compIDs[cid] + j]), and the force a kernel leaves in
    that slot is added to centre [j] of molecule [k] and to no other centre. *)
Theorem ljCenter_slot_roundtrip (compIDs : nat -> nat) (soa_f : nat -> vec3)
    (mols : list Molecule) (k j : nat) (d : Molecule) :
  (k < List.length mols)%nat -> (j < numLJcenters (nth k mols d))%nat ->
  let m := nth k mols d in
  let m' := nth k (postprocessLJ soa_f 0 mols) d in
  nth_error (preprocessLJ compIDs mols) (ljOffset mols k + j) =
    Some (mkLJEntry (mol_r m) (vplus (ljcenter_d m j) (mol_r m)) (mkVec3 0 0 0)
                    (compIDs (componentid m) + j) 0) /\
  ljc_force m' j = vplus (ljc_force m j) (soa_f (ljOffset mols k + j)%nat) /\
  (forall j', (numLJcenters m <= j')%nat -> ljc_force m' j' = ljc_force m j') /\
  List.length (postprocessLJ soa_f 0 mols) = List.length mols.
Proof.
  intros Hk Hj. cbn zeta.
  rewrite postprocessLJ_nth by exact Hk.
  repeat split.
  - apply preprocessLJ_nth; assumption.
  - rewrite addCenterForces_force.
    destruct (Nat.leb_spec 0 j), (Nat.ltb_spec j (0 + numLJcenters (nth k mols d))); try lia.
    cbn [andb]. do 2 f_equal. lia.
  - intros j' Hj'. rewrite addCenterForces_force.
    destruct (Nat.ltb_spec j' (0 + numLJcenters (nth k mols d))); [lia|].
    rewrite andb_false_r. reflexivity.
  - apply length_postprocessLJ.
Qed.

(** With pairwise distinct component IDs, the constructor's [_compIDs]
    table gives component [k] the number of LJ centres of the components
    before it, its ID indexes inside the table, and every parameter row
    [_compIDs[ID] + j] of one of its centres ([j < numLJcenters()]) is below
    the number of rows [centers] of [_eps_sig] and [_shift6]. *)
Theorem buildCompIDs_rows (comps : list Component) (k j : nat) (d : Component) :
  NoDup (map compID comps) ->
  (k < List.length comps)%nat -> (j < compLJ (nth k comps d))%nat ->
  let '(tbl, centers) := buildCompIDs comps in
  (compID (nth k comps d) < List.length tbl)%nat /\
  nth (compID (nth k comps d)) tbl 0%nat = list_sum (map compLJ (firstn k comps)) /\
  (nth (compID (nth k comps d)) tbl 0%nat + j < centers)%nat.
Proof.
  intros Hnd Hk Hj.
  rewrite buildCompIDs_fold.
  set (maxID := fold_left (fun acc c => Nat.max acc (compID c)) comps 0%nat).
  destruct (maxID_bound comps 0) as [_ Hmax]. fold maxID in Hmax.
  assert (Hb : Forall (fun c => compID c < List.length (repeat 0%nat (S maxID)))%nat comps).
  { eapply Forall_impl; [|exact Hmax]. intros c Hc. cbv beta in Hc |- *. rewrite repeat_length. lia. }
  destruct (fold_compIDs_length comps (repeat 0%nat (S maxID)) 0) as [HL HS].
  pose proof (fold_compIDs_entry comps (repeat 0%nat (S maxID)) 0 k d Hnd Hb Hk) as HE.
  destruct (fold_left stepCompIDs comps (repeat 0%nat (S maxID), 0%nat)) as [tbl centers].
  cbn [fst snd] in HL, HS, HE. rewrite HE.
  split; [|split; [lia|]].
  - rewrite HL. apply (Forall_forall _ _ ) with (x := nth k comps d) in Hb; [exact Hb|].
    apply nth_In; exact Hk.
  - rewrite HS.
    rewrite <- (firstn_skipn k comps) at 2. rewrite map_app, list_sum_app.
    rewrite (skipn_nth_cons k comps d Hk). cbn [map]. rewrite lsum_cons. lia.
Qed.

Lemma preprocess_postprocess_pool_witness :
  preprocessPool 1 [10; 20]%nat [None; None] = Some ([10]%nat, [None; Some 20%nat]) /\
  postprocessPool 1 [10]%nat [None; Some 20%nat] = Some ([10; 20]%nat, [None; None]).
Proof.
  split; [reflexivity|].
  apply preprocess_postprocess_pool. reflexivity.
Defined.

Lemma runPool_conserves_buffers_witness :
  runPool [Pre 0; Pre 1; Post 0] [1; 2; 3]%nat [None; None]
    = Some ([1; 3]%nat, [None; Some 2%nat]) /\
  (Permutation ([1; 3]%nat ++ held [None; Some 2%nat]) ([1; 2; 3]%nat ++ held [None; None]) /\
   List.length [None; Some 2%nat] = List.length [@None nat; None]).
Proof.
  split; [reflexivity|].
  apply (runPool_conserves_buffers [Pre 0; Pre 1; Post 0]). reflexivity.
Defined.

Lemma ljCenter_slot_roundtrip_witness :
  let z := mkVec3 0 0 0 in
  let mols := [mkMolecule z 0 2 (fun _ => z) (fun _ => z);
               mkMolecule (mkVec3 1 0 0) 1 1 (fun _ => mkVec3 0 1 0) (fun _ => z)] in
  (1 < List.length mols)%nat /\ (0 < numLJcenters (nth 1 mols (hd (mkMolecule z 0 0 (fun _ => z) (fun _ => z)) mols)))%nat /\
  ljc_force (nth 1 (postprocessLJ (fun i => mkVec3 (INR i) 0 0) 0 mols) (hd (mkMolecule z 0 0 (fun _ => z) (fun _ => z)) mols)) 0
    = vplus z (mkVec3 (INR (ljOffset mols 1 + 0)) 0 0).
Proof.
  cbv zeta. split; [cbn; lia|]. split; [cbn; lia|].
  apply (ljCenter_slot_roundtrip (fun c => c)); cbn; lia.
Defined.

Lemma buildCompIDs_rows_witness :
  let comps := [mkComponent 2 1; mkComponent 0 3] in
  NoDup (map compID comps) /\ (1 < List.length comps)%nat /\
  (2 < compLJ (nth 1 comps (mkComponent 0 0)))%nat /\
  let '(tbl, centers) := buildCompIDs comps in
  (compID (nth 1 comps (mkComponent 0 0)) < List.length tbl)%nat /\
  nth (compID (nth 1 comps (mkComponent 0 0))) tbl 0%nat = list_sum (map compLJ (firstn 1 comps)) /\
  (nth (compID (nth 1 comps (mkComponent 0 0))) tbl 0%nat + 2 < centers)%nat.
Proof.
  cbv zeta.
  assert (Hnd : NoDup (map compID [mkComponent 2 1; mkComponent 0 3])).
  { cbn. constructor; [cbn; intuition discriminate|]. constructor; [cbn; tauto|constructor]. }
  split; [exact Hnd|]. split; [cbn; lia|]. split; [cbn; lia|].
  apply buildCompIDs_rows; [exact Hnd|cbn; lia|cbn; lia].
Defined.

End SoAFacts.
(* ------------------------------------------------------------------ *)
(** ** Facts on the one-stage initialisation and the three-stage scheme *)

Module Halo3Facts.

Import Halo Halo3.
Local Open Scope Q_scope.

Lemma others_notin (me : Z) (ns : list Z) : ~ In me ns -> others me ns = ns.
Proof.
  unfold others. induction ns as [|r ns IH]; intros Hn; cbn; [reflexivity|].
  destruct (Z.eqb_spec r me) as [->|Hne]; [exfalso; apply Hn; left; reflexivity|].
  cbn. f_equal. apply IH. intros Hin; apply Hn; right; exact Hin.
Qed.

Lemma length_setNthList {P : Type} (l : list (list P)) i v :
  List.length (setNthList l i v) = List.length l.
Proof. revert i; induction l; intros [|i]; cbn; auto. Qed.

Lemma nth_setNthList {P : Type} (l : list (list P)) i j v :
  (i < List.length l)%nat ->
  nth j (setNthList l i v) [] = if Nat.eqb j i then v else nth j l [].
Proof.
  revert i j; induction l as [|h t IH]; intros [|i] [|j] Hi; cbn in *; try lia; try reflexivity.
  apply IH; lia.
Qed.

Section Convert.

Context {P : Type}.
Variable isFace : P -> bool.
Variable dir : P -> nat.
Variable enlarge : nat -> P -> P.

Lemma convert_spec (ps : list P) (nbs : list (list P)) :
  (forall p, In p ps -> isFace p = true -> (dir p < List.length nbs)%nat) ->
  exists nbs',
    convert1StageTo3StageNeighbours isFace dir enlarge ps nbs = Some nbs' /\
    List.length nbs' = List.length nbs /\
    forall d, nth d nbs' [] =
      nth d nbs [] ++ map (enlarge d) (filter (fun p => isFace p && Nat.eqb (dir p) d) ps).
Proof.
  revert nbs. induction ps as [|p rest IH]; intros nbs Hdir.
  - exists nbs. cbn. repeat split. intros d. rewrite app_nil_r. reflexivity.
  - cbn [convert1StageTo3StageNeighbours filter].
    destruct (isFace p) eqn:Hf; cbn [negb andb].
    + assert (Hd : (dir p < List.length nbs)%nat) by (apply Hdir; [left|]; auto).
      destruct (nth_error nbs (dir p)) as [l|] eqn:E;
        [|apply nth_error_None in E; lia].
      destruct (IH (setNthList nbs (dir p) (l ++ [enlarge (dir p) p]))) as (n' & Hc & Hl & Hn).
      { intros q Hq Hfq. rewrite length_setNthList. apply Hdir; [right|]; auto. }
      exists n'. split; [exact Hc|]. split; [rewrite Hl; apply length_setNthList|].
      intros d. rewrite Hn, nth_setNthList by exact Hd.
      destruct (Nat.eqb_spec d (dir p)) as [->|Hne].
      * rewrite Nat.eqb_refl. cbn [map].
        rewrite (nth_error_nth _ _ [] E). rewrite <- app_assoc. reflexivity.
      * destruct (Nat.eqb_spec (dir p) d); [congruence|]. reflexivity.
    + apply IH. intros q Hq Hfq. apply Hdir; [right|]; auto.
Qed.

End Convert.

(** *** Properties *)

(** With the own rank not among the partners of [_neighbours[d]], the loop
    of the three-stage [finalizeExchangeMoleculesMPI1D] does exactly what
    the one-stage loop does on the same partners: same calls, warnings,
    diagnostics and exit, pass by pass. *)
Theorem finalizeLoop1D_as_1stage (me : Z) (ns : list Z) (rrd : bool) (waitCounter : Q)
    (obs : list Obs) :
  ~ In me ns ->
  finalizeLoop1D ns rrd waitCounter obs = finalizeLoop me ns rrd waitCounter obs.
Proof.
  intros Hn. revert waitCounter. induction obs as [|o rest IH]; intros w; [reflexivity|].
  cbn [finalizeLoop1D finalizeLoop]. unfold passDone. rewrite (others_notin me ns Hn).
  rewrite IH. reflexivity.
Qed.

(** When all three dimensions are covered by the own process, the
    three-stage [exchangeMoleculesMPI] communicates with nobody: it runs the
    sequential version for dimensions 0, 1 and 2 in turn and completes,
    whatever the partner lists and the message timing. *)
Theorem exchange3_fully_covered (neighbours : nat -> list Z) (msgType : MessageType)
    (rrd : bool) (obs : nat -> list Obs) :
  exchangeMoleculesMPI3 neighbours msgType rrd (true, true, true) obs =
  (map inl (sequentialExchange 0 msgType ++ sequentialExchange 1 msgType
            ++ sequentialExchange 2 msgType), Completed).
Proof.
  destruct msgType; reflexivity.
Qed.

Ltac flag_solve :=
  repeat match goal with
  | |- Forall _ (_ ++ _) => apply Forall_app; split
  | |- Forall _ (_ :: _) => constructor
  | |- Forall _ [] => constructor
  | |- Forall _ (map _ _) => apply Forall_map, Forall_forall; intros; cbn; auto
  | |- Forall _ (if ?b then _ else _) => destruct b
  | |- recvFlagIs _ _ => cbn; auto
  end.

Lemma finalizeLoop1D_flag (ns : list Z) (rrd : bool) (w : Q) (obs : list Obs) :
  Forall (recvFlagIs rrd) (fst (finalizeLoop1D ns rrd w obs)).
Proof.
  revert w. induction obs as [|o rest IH]; intros w; cbn [finalizeLoop1D]; [constructor|].
  destruct (qltb deadlockTimeOut (ob_time o)); [cbn [fst]; flag_solve|].
  destruct (forallb _ _ && _ && _); [cbn [fst]; flag_solve|].
  specialize (IH (if qltb w (ob_time o) then w + 1 else w)).
  destruct (finalizeLoop1D ns rrd _ rest) as [evs out]. cbn [fst] in IH |- *.
  flag_solve. exact IH.
Qed.

Lemma exchangeDims_blocks (neighbours : nat -> list Z) (msgType : MessageType)
    (rrd : bool) (cov : bool * bool * bool) (obs : nat -> list Obs) (ds : list nat) :
  exists k, (k <= List.length ds)%nat /\
    fst (exchangeDims ds neighbours msgType rrd cov obs)
    = flat_map (dimBlock neighbours msgType rrd cov obs) (firstn k ds).
Proof.
  induction ds as [|d ds IH]; cbn [exchangeDims].
  - exists O. split; [lia | reflexivity].
  - set (f := dimBlock neighbours msgType rrd cov obs).
    destruct (finalizeExchangeMoleculesMPI1D (neighbours d) rrd cov d (obs d)) as [evs out] eqn:E.
    assert (Hf : f d = map inl (initExchangeMoleculesMPI1D (neighbours d) msgType cov d)
                       ++ map inr evs)
      by (unfold f, dimBlock; rewrite E; reflexivity).
    destruct out.
    + destruct IH as (k & Hk & He).
      destruct (exchangeDims ds neighbours msgType rrd cov obs) as [evs' out'].
      cbn [fst] in He |- *.
      exists (S k). split; [cbn [List.length]; lia |].
      change (flat_map f (firstn (S k) (d :: ds))) with (f d ++ flat_map f (firstn k ds)).
      rewrite He, Hf, <- app_assoc. reflexivity.
    + exists 1%nat. split; [cbn [List.length]; lia |].
      change (flat_map f (firstn 1 (d :: ds))) with (f d ++ []).
      rewrite Hf, app_nil_r. reflexivity.
    + exists 1%nat. split; [cbn [List.length]; lia |].
      change (flat_map f (firstn 1 (d :: ds))) with (f d ++ []).
      rewrite Hf, app_nil_r. reflexivity.
Qed.

(** The three-stage [exchangeMoleculesMPI] hands the caller's
    [removeRecvDuplicates] unchanged to every [testRecv] it makes: unlike
    the one-stage scheme it does not clear the flag for dimensions the own
    process does not cover.  It never calls [testRecv] (nor any other
    communication) for a covered one: its trace is the blocks of
    dimensions 0, 1, 2 in turn, up to the one that does not complete, and
    the block of a covered dimension holds only the sequential calls. *)
Theorem exchange3_recv_flag (neighbours : nat -> list Z) (msgType : MessageType)
    (rrd : bool) (cov : bool * bool * bool) (obs : nat -> list Obs) :
  Forall (fun s => match s with inr e => recvFlagIs rrd e | inl _ => True end)
    (fst (exchangeMoleculesMPI3 neighbours msgType rrd cov obs))
  /\ (exists k, (k <= 3)%nat /\
        fst (exchangeMoleculesMPI3 neighbours msgType rrd cov obs)
        = flat_map (dimBlock neighbours msgType rrd cov obs) (firstn k [0; 1; 2]%nat))
  /\ (forall d, coversAt cov d = true ->
        dimBlock neighbours msgType rrd cov obs d = map inl (sequentialExchange d msgType)).
Proof.
  split; [| split].
  2: { exact (exchangeDims_blocks neighbours msgType rrd cov obs [0; 1; 2]%nat). }
  2: { intros d Hd. unfold dimBlock, initExchangeMoleculesMPI1D, finalizeExchangeMoleculesMPI1D.
       rewrite Hd. cbn [fst]. apply app_nil_r. }
  unfold exchangeMoleculesMPI3.
  generalize [0; 1; 2]%nat as ds. induction ds as [|d ds IH]; cbn [exchangeDims]; [constructor|].
  assert (Hf : Forall (recvFlagIs rrd)
                 (fst (finalizeExchangeMoleculesMPI1D (neighbours d) rrd cov d (obs d)))).
  { unfold finalizeExchangeMoleculesMPI1D. destruct (coversAt cov d); [constructor|].
    apply finalizeLoop1D_flag. }
  assert (Hi : forall l : list InitEvent,
             Forall (fun s => match s with inr e => recvFlagIs rrd e | inl _ => True end)
               (map (@inl InitEvent Event) l)).
  { intros l. rewrite Forall_map. apply Forall_forall; intros; exact I. }
  assert (Hm : forall l : list Event, Forall (recvFlagIs rrd) l ->
             Forall (fun s => match s with inr e => recvFlagIs rrd e | inl _ => True end)
               (map (@inr InitEvent Event) l)).
  { intros l Hl. rewrite Forall_map. exact Hl. }
  destruct (finalizeExchangeMoleculesMPI1D (neighbours d) rrd cov d (obs d)) as [evs out].
  cbn [fst] in Hf.
  destruct out.
  - destruct (exchangeDims ds neighbours msgType rrd cov obs) as [evs' out'].
    cbn [fst] in IH |- *. rewrite !Forall_app. auto.
  - cbn [fst]. rewrite Forall_app. auto.
  - cbn [fst]. rewrite Forall_app. auto.
Qed.

(** The one-stage [initExchangeMoleculesMPI] calls [initSend] exactly for
    the partners whose rank is not the own rank, and runs the sequential
    [handleDomainLeavingParticles(d)] / [populateHaloLayerWithCopies(d)]
    exactly for the covered dimensions [d < 3] whose message type asks for
    it. *)
Theorem initExchange_calls (me : Z) (ns : list Z) (msgType : MessageType)
    (cov : bool * bool * bool) :
  let tr := initExchangeMoleculesMPI me ns msgType cov in
  (forall r, In (InitSend r) tr <-> In r ns /\ r <> me) /\
  (forall d, In (HandleLeaving d) tr <->
             (d < 3)%nat /\ coversAt cov d = true /\ msgType <> HALO_COPIES) /\
  (forall d, In (PopulateHalo d) tr <->
             (d < 3)%nat /\ coversAt cov d = true /\ msgType <> LEAVING_ONLY).
Proof.
  cbv zeta. unfold initExchangeMoleculesMPI.
  split; [|split]; intros x; split.
  - intros H. apply in_app_or in H as [H|H].
    + exfalso. apply in_flat_map in H as (d & _ & H).
      destruct (coversAt cov d); [|destruct H]. destruct msgType; cbn in H; intuition discriminate.
    + apply in_map_iff in H as (r' & E & H). injection E as ->.
      unfold others in H. apply filter_In in H as [H1 H2]. split; [exact H1|].
      intros ->. rewrite Z.eqb_refl in H2. discriminate.
  - intros [Hin Hne]. apply in_or_app. right. apply in_map. unfold others.
    apply filter_In. split; [exact Hin|]. apply negb_true_iff, Z.eqb_neq. exact Hne.
  - intros H. apply in_app_or in H as [H|H].
    + apply in_flat_map in H as (d' & Hd' & H).
      destruct (coversAt cov d') eqn:Ec; [|destruct H].
      destruct msgType; cbn in H; intuition (try discriminate);
        match goal with E : HandleLeaving _ = HandleLeaving _ |- _ => injection E as <- end;
        first [exact Ec | discriminate | (cbn in Hd'; intuition lia)].
    + exfalso. apply in_map_iff in H as (r' & E & _). discriminate.
  - intros (Hd & Hc & Hm). apply in_or_app. left. apply in_flat_map. exists x.
    split; [cbn; lia|]. rewrite Hc. destruct msgType; cbn; auto; congruence.
  - intros H. apply in_app_or in H as [H|H].
    + apply in_flat_map in H as (d' & Hd' & H).
      destruct (coversAt cov d') eqn:Ec; [|destruct H].
      destruct msgType; cbn in H; intuition (try discriminate);
        match goal with E : PopulateHalo _ = PopulateHalo _ |- _ => injection E as <- end;
        first [exact Ec | discriminate | (cbn in Hd'; intuition lia)].
    + exfalso. apply in_map_iff in H as (r' & E & _). discriminate.
  - intros (Hd & Hc & Hm). apply in_or_app. left. apply in_flat_map. exists x.
    split; [cbn; lia|]. rewrite Hc. destruct msgType; cbn; auto; congruence.
Qed.

Lemma nth_map_nil {A B : Type} (l : list A) d :
  nth d (map (fun _ => @nil B) l) [] = [].
Proof. revert d; induction l; intros [|d]; cbn; auto. Qed.

(** [NeighbourCommunicationScheme3Stage::initCommunicationPartners]: when
    [_neighbours] has [_commDimms] lists and every face partner's direction
    is below [_commDimms], it keeps all partners of the halo regions, in
    order, as [_fullShellNeighbours], and makes [_neighbours[d]] the face
    partners of direction [d], in their order and enlarged for [d]; the
    partners sharing no face with the own region are in no [_neighbours[d]],
    and nothing of the old lists is kept. *)
Theorem initCommunicationPartners3_faces {P H : Type} (isFace : P -> bool) (dir : P -> nat)
    (enlarge : nat -> P -> P) (commDimms : nat) (haloRegions : list H)
    (getNeighbours : H -> list P) (neighbours : list (list P)) :
  List.length neighbours = commDimms ->
  (forall p, In p (flat_map getNeighbours haloRegions) -> isFace p = true ->
             (dir p < commDimms)%nat) ->
  exists nbs',
    initCommunicationPartners3 isFace dir enlarge commDimms haloRegions getNeighbours neighbours
      = Some (flat_map getNeighbours haloRegions, nbs') /\
    List.length nbs' = commDimms /\
    forall d, (d < commDimms)%nat ->
      nth d nbs' [] = map (enlarge d)
        (filter (fun p => isFace p && Nat.eqb (dir p) d) (flat_map getNeighbours haloRegions)).
Proof.
  intros Hl Hdir. unfold initCommunicationPartners3.
  rewrite <- Hl, firstn_all, skipn_all, app_nil_r.
  destruct (convert_spec isFace dir enlarge (flat_map getNeighbours haloRegions)
              (map (fun _ => []) neighbours)) as (n' & Hc & Hlen & Hn).
  { intros p Hp Hf. rewrite length_map, Hl. apply Hdir; assumption. }
  rewrite Hc. exists n'. split; [reflexivity|]. split; [rewrite Hlen, length_map; reflexivity|].
  intros d _. rewrite Hn, nth_map_nil. reflexivity.
Qed.

Lemma finalizeLoop1D_as_1stage_witness :
  ~ In 0%Z [1; 2]%Z /\
  finalizeLoop1D [1; 2]%Z true 1 [silentPass (1 # 2); silentPass 2]
  = finalizeLoop 0 [1; 2]%Z true 1 [silentPass (1 # 2); silentPass 2].
Proof.
  assert (Hn : ~ In 0%Z [1; 2]%Z) by (cbn; lia).
  split; [exact Hn|]. apply finalizeLoop1D_as_1stage. exact Hn.
Defined.

Lemma initCommunicationPartners3_faces_witness :
  let getN := fun h : nat => [h; (h + 7)%nat] in
  let isFace := fun p : nat => Nat.ltb p 6 in
  let dir := fun p : nat => Nat.modulo p 3 in
  List.length [[5%nat]; []; [9%nat]] = 3%nat /\
  (forall p, In p (flat_map getN [0; 1]%nat) -> isFace p = true -> (dir p < 3)%nat) /\
  exists nbs',
    initCommunicationPartners3 isFace dir (fun d p => (p + 10 * d)%nat) 3 [0; 1]%nat getN
      [[5%nat]; []; [9%nat]] = Some (flat_map getN [0; 1]%nat, nbs') /\
    List.length nbs' = 3%nat /\
    forall d, (d < 3)%nat ->
      nth d nbs' [] = map (fun p => (p + 10 * d)%nat)
        (filter (fun p => isFace p && Nat.eqb (dir p) d) (flat_map getN [0; 1]%nat)).
Proof.
  cbv zeta.
  assert (Hd : forall p, In p (flat_map (fun h : nat => [h; (h + 7)%nat]) [0; 1]%nat) ->
                 Nat.ltb p 6 = true -> (Nat.modulo p 3 < 3)%nat).
  { intros p _ _. apply Nat.mod_upper_bound. lia. }
  split; [reflexivity|]. split; [exact Hd|].
  apply initCommunicationPartners3_faces; [reflexivity|exact Hd].
Defined.

End Halo3Facts.
(* ------------------------------------------------------------------ *)
(** ** Facts on the particle handling of [Mirror] *)

Module MirrorDynFacts.

Import Mirror MirrorDyn.
Local Open Scope R_scope.

Lemma Rltb_spec x y : Rltb x y = true <-> x < y.
Proof. unfold Rltb. destruct (Rlt_dec x y); split; intros; auto; discriminate || lra. Qed.

Lemma Rleb_spec x y : Rleb x y = true <-> x <= y.
Proof. unfold Rleb. destruct (Rle_dec x y); split; intros; auto; discriminate || lra. Qed.

Lemma Rltb_false x y : Rltb x y = false <-> y <= x.
Proof.
  split; intros H.
  - destruct (Rle_lt_dec y x) as [Hl|Hl]; [exact Hl|]. apply Rltb_spec in Hl. congruence.
  - destruct (Rltb x y) eqn:E; [apply Rltb_spec in E; lra|reflexivity].
Qed.

(** *** Counters *)

Lemma lsum_cons_counts (a : nat) (l : list nat) : list_sum (a :: l) = (a + list_sum l)%nat.
Proof. reflexivity. Qed.

Lemma list_sum_setNth_inc (t : list nat) (c : nat) :
  (c < List.length t)%nat ->
  list_sum (SoAPipeline.setNth t c (S (nth c t 0%nat))) = S (list_sum t).
Proof.
  revert c; induction t as [|h t IH]; intros [|c] Hc; cbn in Hc; try lia.
  - cbn [SoAPipeline.setNth nth]. rewrite !lsum_cons_counts. lia.
  - cbn [SoAPipeline.setNth nth]. rewrite !lsum_cons_counts, IH by lia. lia.
Qed.

Lemma length_setNth' (l : list nat) i v : List.length (SoAPipeline.setNth l i v) = List.length l.
Proof. revert i; induction l; intros [|i]; cbn; auto. Qed.

(** Head is the total of the tail. *)
Definition totalOk (l : list nat) : Prop := nth 0 l 0%nat = list_sum (tl l).

Lemma count_spec (l l' : list nat) (c : nat) :
  (1 <= c)%nat -> count l c = Some l' ->
  nth 0 l' 0%nat = S (nth 0 l 0%nat) /\ list_sum (tl l') = S (list_sum (tl l)) /\
  List.length l' = List.length l.
Proof.
  intros Hc. unfold count, incAt.
  destruct l as [|h t]; cbn [List.length Nat.ltb Nat.leb]; [discriminate|].
  cbn [SoAPipeline.setNth nth]. destruct c as [|c]; [lia|].
  cbn [List.length SoAPipeline.setNth nth].
  destruct (Nat.leb_spec (S c) (List.length t)); [|discriminate].
  intros E; injection E as <-. cbn [nth tl List.length].
  rewrite list_sum_setNth_inc by lia. rewrite length_setNth'. auto.
Qed.

Lemma count_some (l : list nat) (c : nat) :
  (1 <= c)%nat -> (c < List.length l)%nat -> exists l', count l c = Some l' /\ List.length l' = List.length l.
Proof.
  intros H1 H2. unfold count, incAt.
  destruct (Nat.ltb_spec 0 (List.length l)); [|lia].
  destruct (Nat.ltb_spec c (List.length (SoAPipeline.setNth l 0 (S (nth 0 l 0%nat)))));
    rewrite length_setNth' in *; [|lia].
  eexists; split; [reflexivity|]. rewrite !length_setNth'. reflexivity.
Qed.

(** How one loop step may touch the counters. *)
Definition stepCounts (step : Particle -> MState -> option (Fate * MState)) : Prop :=
  forall p st f st', step p st = Some (f, st') ->
    (f = Delete /\ reflected st' = reflected st /\
       exists c, (1 <= c)%nat /\ count (deleted st) c = Some (deleted st'))
    \/ (exists q, f = Keep q /\ deleted st' = deleted st /\
          (reflected st' = reflected st \/
           exists c, (1 <= c)%nat /\ count (reflected st) c = Some (reflected st'))).

Lemma runLoop_counts step ps st out st' :
  stepCounts step -> runLoop step ps st = Some (out, st') ->
  totalOk (reflected st) -> totalOk (deleted st) ->
  totalOk (reflected st') /\ totalOk (deleted st') /\
  (List.length out + nth 0 (deleted st') 0 = List.length ps + nth 0 (deleted st) 0)%nat.
Proof.
  intros Hs. revert st out. induction ps as [|p rest IH]; intros st out H Hr Hd; cbn [runLoop] in H.
  - injection H as <- <-. cbn. auto.
  - destruct (step p st) as [[f s1]|] eqn:E; [|discriminate].
    destruct (runLoop step rest s1) as [[out1 s2]|] eqn:E2; [|discriminate].
    injection H as <- <-.
    destruct (Hs _ _ _ _ E) as [(-> & Hr1 & c & Hc & Hd1) | (q & -> & Hd1 & Hr1)].
    + destruct (count_spec _ _ _ Hc Hd1) as (Ha & Hb & _).
      assert (Hr' : totalOk (reflected s1)) by (rewrite Hr1; exact Hr).
      assert (Hd' : totalOk (deleted s1)) by (unfold totalOk in *; lia).
      destruct (IH _ _ E2 Hr' Hd') as (X1 & X2 & X3). cbn [List.length]. split; [|split]; auto. lia.
    + assert (Hd' : totalOk (deleted s1)) by (rewrite Hd1; exact Hd).
      assert (Hr' : totalOk (reflected s1)).
      { destruct Hr1 as [-> | (c & Hc & Hr1)]; [exact Hr|].
        destruct (count_spec _ _ _ Hc Hr1) as (Ha & Hb & _). unfold totalOk in *; lia. }
      destruct (IH _ _ E2 Hr' Hd') as (X1 & X2 & X3). cbn [List.length]. split; [|split]; auto.
      rewrite Hd1 in X3. lia.
Qed.

Lemma totalOk_reset (l : list nat) : totalOk (map (fun _ => 0%nat) l).
Proof.
  unfold totalOk. destruct l as [|h t]; [reflexivity|]. cbn [map nth tl].
  induction t as [|x t IH]; [reflexivity|]. cbn [map]. rewrite lsum_cons_counts, <- IH. reflexivity.
Qed.

Lemma meland_stepCounts rnd dir coord tc vt fpf de w :
  stepCounts (melandStep rnd dir coord tc vt fpf de w).
Proof.
  assert (Hrod : forall p st f st',
            melandReflectOrDelete rnd dir vt fpf p st = Some (f, st') ->
            (f = Delete /\ reflected st' = reflected st /\
               exists c, (1 <= c)%nat /\ count (deleted st) c = Some (deleted st'))
            \/ (exists q, f = Keep q /\ deleted st' = deleted st /\
                  (reflected st' = reflected st \/
                   exists c, (1 <= c)%nat /\ count (reflected st) c = Some (reflected st')))).
  { intros p st f st' H. unfold melandReflectOrDelete in H.
    destruct (_ || _); [destruct (melandReflects _ _ _ _)|]; cbn [reflected deleted] in H;
      match type of H with
      | context [count ?l ?c] => destruct (count l c) as [l'|] eqn:Ec; [|discriminate]
      end;
      injection H as <- <-.
    - right. eexists; split; [reflexivity|]. split; [reflexivity|]. right. exists (S (componentid p)).
      split; [lia|exact Ec].
    - left. split; [reflexivity|]. split; [reflexivity|]. exists (S (componentid p)). split; [lia|exact Ec].
    - left. split; [reflexivity|]. split; [reflexivity|]. exists (S (componentid p)). split; [lia|exact Ec]. }
  intros p st f st' H. unfold melandStep in H.
  destruct (skipComp tc p).
  { injection H as <- <-. right. eexists; split; [reflexivity|]. auto. }
  destruct (_ || _).
  { injection H as <- <-. right. eexists; split; [reflexivity|]. auto. }
  destruct de; [|exact (Hrod _ _ _ _ H)].
  destruct (mapFind (pos_map st) (pid p)) as [mp|].
  - destruct (Rleb (ry p) mp).
    + injection H as <- <-. right. eexists; split; [reflexivity|]. auto.
    + apply Hrod in H. exact H.
  - destruct (Rleb (ry p) _).
    + injection H as <- <-. right. eexists; split; [reflexivity|]. auto.
    + apply Hrod in H. exact H.
Qed.

Lemma ramping_stepCounts rnd dir tc start stop treatment cur :
  stepCounts (rampingStep rnd dir tc start stop treatment cur).
Proof.
  intros p st f st' H. unfold rampingStep in H.
  destruct (skipComp tc p).
  { injection H as <- <-. right. eexists; split; [reflexivity|]. auto. }
  destruct (_ || _).
  { injection H as <- <-. right. eexists; split; [reflexivity|]. auto. }
  destruct (Rleb _ _); [|destruct (Nat.eqb treatment 0)]; cbn [reflected deleted] in H.
  - destruct (count (reflected st) (S (componentid p))) as [l'|] eqn:Ec; [|discriminate].
    injection H as <- <-. right. eexists; split; [reflexivity|]. split; [reflexivity|].
    right. exists (S (componentid p)). split; [lia|exact Ec].
  - destruct (count (deleted st) (S (componentid p))) as [l'|] eqn:Ec; [|discriminate].
    injection H as <- <-. left. split; [reflexivity|]. split; [reflexivity|].
    exists (S (componentid p)). split; [lia|exact Ec].
  - injection H as <- <-. right. eexists; split; [reflexivity|]. auto.
Qed.

Lemma runLoop_keep step ps st out st' :
  (forall p st f st', step p st = Some (f, st') ->
     exists q, f = Keep q /\ deleted st' = deleted st) ->
  runLoop step ps st = Some (out, st') ->
  List.length out = List.length ps /\ deleted st' = deleted st.
Proof.
  intros Hs. revert st out. induction ps as [|p rest IH]; intros st out H; cbn [runLoop] in H.
  - injection H as <- <-. auto.
  - destruct (step p st) as [[f s1]|] eqn:E; [|discriminate].
    destruct (runLoop step rest s1) as [[out1 s2]|] eqn:E2; [|discriminate].
    injection H as <- <-. destruct (Hs _ _ _ _ E) as (q & -> & Hd).
    destruct (IH _ _ E2) as [X1 X2]. cbn. split; [lia|congruence].
Qed.

Lemma nth0_reset (l : list nat) : nth 0 (map (fun _ => 0%nat) l) 0%nat = 0%nat.
Proof. destruct l; reflexivity. Qed.

Lemma melandStep_some rnd dir coord tc vt fpf de w p st :
  (S (componentid p) < List.length (reflected st))%nat ->
  (S (componentid p) < List.length (deleted st))%nat ->
  exists f st', melandStep rnd dir coord tc vt fpf de w p st = Some (f, st') /\
    List.length (reflected st') = List.length (reflected st) /\
    List.length (deleted st') = List.length (deleted st).
Proof.
  intros Hr Hd.
  assert (Hrod : forall st0, reflected st0 = reflected st -> deleted st0 = deleted st ->
            exists f st', melandReflectOrDelete rnd dir vt fpf p st0 = Some (f, st') /\
              List.length (reflected st') = List.length (reflected st) /\
              List.length (deleted st') = List.length (deleted st)).
  { intros st0 E1 E2. unfold melandReflectOrDelete. cbn [reflected deleted]. rewrite E1, E2.
    destruct (count_some (reflected st) (S (componentid p))) as (lr & Er & Lr); [lia|exact Hr|].
    destruct (count_some (deleted st) (S (componentid p))) as (ld & Ed & Ld); [lia|exact Hd|].
    rewrite Er, Ed.
    destruct (_ || _); [destruct (melandReflects _ _ _ _)|]; do 2 eexists; (split; [reflexivity|]); cbn; split; first [assumption | reflexivity | rewrite E1; reflexivity]. }
  unfold melandStep.
  destruct (skipComp tc p); [do 2 eexists; split; [reflexivity|split; reflexivity]|].
  destruct (_ || _); [do 2 eexists; split; [reflexivity|split; reflexivity]|].
  destruct de; [|apply Hrod; reflexivity].
  destruct (mapFind (pos_map st) (pid p)) as [mp|].
  - destruct (Rleb (ry p) mp); [do 2 eexists; split; [reflexivity|split; reflexivity]|].
    apply Hrod; reflexivity.
  - destruct (Rleb (ry p) _); [do 2 eexists; split; [reflexivity|split; reflexivity]|].
    apply Hrod; reflexivity.
Qed.

Lemma ratio_div_range (a b : nat) :
  (a <= b)%nat -> (0 < b)%nat -> 0 <= INR a / INR b <= 1.
Proof.
  intros Hab Hb. apply lt_INR in Hb. apply le_INR in Hab. change (INR 0) with 0 in Hb.
  split.
  - unfold Rdiv. apply Rmult_le_pos; [apply pos_INR|]. left. apply Rinv_0_lt_compat. exact Hb.
  - unfold Rdiv. apply (Rmult_le_reg_r (INR b)); [exact Hb|].
    rewrite Rmult_assoc, Rinv_l by lra. lra.
Qed.

(** *** Properties *)

(** The [MT_MELAND_2004] pass keeps its counters consistent: after it the
    local reflected and deleted counters hold in slot 0 the sum of the
    per-component slots, and the deleted total is exactly the number of
    particles it removed from the container. *)
Theorem beforeForcesMeland_counters rnd dir coord tc vt fpf de w bmin bmax visited st out st' :
  (isRight dir && Rltb (coord - w) bmax || isLeft dir && Rltb bmin (coord + w)) = true ->
  beforeForcesMeland rnd dir coord tc vt fpf de w bmin bmax visited st = Some (out, st') ->
  nth 0 (reflected st') 0%nat = list_sum (tl (reflected st')) /\
  nth 0 (deleted st') 0%nat = list_sum (tl (deleted st')) /\
  (List.length out + nth 0 (deleted st') 0 = List.length visited)%nat.
Proof.
  intros Hg H. unfold beforeForcesMeland in H. rewrite Hg in H.
  destruct (runLoop_counts _ _ _ _ _ (meland_stepCounts rnd dir coord tc vt fpf de w) H
              (totalOk_reset _) (totalOk_reset _)) as (X1 & X2 & X3).
  cbn [resetCounters deleted] in X3. rewrite nth0_reset in X3.
  split; [exact X1|]. split; [exact X2|]. lia.
Qed.

(** The [MT_MELAND_2004] pass throws no [std::out_of_range] when every
    particle it visits has a unity-based component id inside the local
    counter vectors (as the constructor sizes them, [numComponents + 1]). *)
Theorem beforeForcesMeland_no_throw rnd dir coord tc vt fpf de w bmin bmax visited st :
  Forall (fun p => S (componentid p) < List.length (reflected st) /\
                   S (componentid p) < List.length (deleted st))%nat visited ->
  exists out st', beforeForcesMeland rnd dir coord tc vt fpf de w bmin bmax visited st
                  = Some (out, st').
Proof.
  intros Hall. unfold beforeForcesMeland.
  destruct (_ || _); [|eexists; eexists; reflexivity].
  assert (Hl : List.length (reflected (resetCounters st)) = List.length (reflected st) /\
               List.length (deleted (resetCounters st)) = List.length (deleted st))
    by (cbn; rewrite !length_map; auto).
  revert Hl. generalize (resetCounters st) as s0.
  induction visited as [|p rest IH]; intros s0 [L1 L2]; cbn [runLoop]; [eexists; eexists; reflexivity|].
  inversion Hall as [|? ? [Hp1 Hp2] Hrest]; subst.
  destruct (melandStep_some rnd dir coord tc vt fpf de w p s0) as (f & s1 & E & M1 & M2); [lia|lia|].
  rewrite E.
  destruct (IH Hrest s1) as (out1 & s2 & E2); [split; lia|]. rewrite E2.
  eexists; eexists; reflexivity.
Qed.

(** One particle of the [MT_MELAND_2004] pass is left as it is, kept with
    the velocity [2 * velo_target - vy], which then points away from the
    mirror, or deleted; only a targeted particle not already moving away
    from the mirror is changed or deleted. *)
Theorem melandStep_fate rnd dir coord tc vt fpf de w p st f st' :
  melandStep rnd dir coord tc vt fpf de w p st = Some (f, st') ->
  f = Keep p \/
  (f = Keep (setVy p (2 * vt - vy p)) /\ skipComp tc p = false /\
   (isRight dir = true -> 0 <= vy p) /\ (isLeft dir = true -> vy p <= 0) /\
   (isRight dir = true -> 2 * vt - vy p < 0) /\ (isLeft dir = true -> 0 < 2 * vt - vy p)) \/
  (f = Delete /\ skipComp tc p = false /\
   (isRight dir = true -> 0 <= vy p) /\ (isLeft dir = true -> vy p <= 0)).
Proof.
  intros H. unfold melandStep in H.
  destruct (skipComp tc p) eqn:Hs; [injection H as <- _; left; reflexivity|].
  destruct (isRight dir && Rltb (vy p) 0 || isLeft dir && Rltb 0 (vy p)) eqn:Hm;
    [injection H as <- _; left; reflexivity|].
  assert (Hdir : (isRight dir = true -> 0 <= vy p) /\ (isLeft dir = true -> vy p <= 0)).
  { split; intros Hd; rewrite Hd in Hm; apply orb_false_iff in Hm as [H1 H2].
    - cbn in H1. destruct (Rltb (vy p) 0) eqn:E; [discriminate|].
      destruct (Rlt_dec (vy p) 0) as [Hl|Hl]; [apply Rltb_spec in Hl; congruence|lra].
    - cbn in H2. destruct (Rltb 0 (vy p)) eqn:E; [discriminate|].
      destruct (Rlt_dec 0 (vy p)) as [Hl|Hl]; [apply Rltb_spec in Hl; congruence|lra]. }
  assert (Hrod : forall st0, melandReflectOrDelete rnd dir vt fpf p st0 = Some (f, st') ->
            f = Keep p \/
            (f = Keep (setVy p (2 * vt - vy p)) /\ skipComp tc p = false /\
             (isRight dir = true -> 0 <= vy p) /\ (isLeft dir = true -> vy p <= 0) /\
             (isRight dir = true -> 2 * vt - vy p < 0) /\ (isLeft dir = true -> 0 < 2 * vt - vy p)) \/
            (f = Delete /\ skipComp tc p = false /\
             (isRight dir = true -> 0 <= vy p) /\ (isLeft dir = true -> vy p <= 0))).
  { intros st0 H0. unfold melandReflectOrDelete in H0. cbv zeta in H0.
    destruct (isRight dir && Rltb (2 * vt - vy p) 0 || isLeft dir && Rltb 0 (2 * vt - vy p)) eqn:Ea.
    - destruct (melandReflects _ _ _ _).
      + destruct (count _ _); [|discriminate]. injection H0 as <- _. right; left.
        split; [reflexivity|]. split; [exact Hs|].
        split; [exact (proj1 Hdir)|]. split; [exact (proj2 Hdir)|].
        split; intros Hd; rewrite Hd in Ea; destruct dir; cbn in Hd, Ea; try discriminate;
          rewrite ?orb_false_r in Ea; apply Rltb_spec in Ea; exact Ea.
      + destruct (count _ _); [|discriminate]. injection H0 as <- _. right; right. split; [reflexivity|split; [exact Hs|exact Hdir]].
    - destruct (count _ _); [|discriminate]. injection H0 as <- _. right; right. split; [reflexivity|split; [exact Hs|exact Hdir]]. }
  destruct de; [|(pose proof (Hrod _ H) as X; rewrite Hs in X; exact X)].
  destruct (mapFind (pos_map st) (pid p)) as [mp|].
  - destruct (Rleb (ry p) mp); [injection H as <- _; left; reflexivity|(pose proof (Hrod _ H) as X; rewrite Hs in X; exact X)].
  - destruct (Rleb (ry p) _); [injection H as <- _; left; reflexivity|(pose proof (Hrod _ H) as X; rewrite Hs in X; exact X)].
Qed.

(** [ratioRefl] of the ramping mirror lies in [0, 1] and does not grow with
    the simulation step. *)
Theorem ratioRefl_range_antitone (startStep stopStep c1 c2 : nat) :
  0 <= ratioRefl startStep stopStep c1 <= 1 /\
  ((c1 <= c2)%nat -> ratioRefl startStep stopStep c2 <= ratioRefl startStep stopStep c1).
Proof.
  assert (Hr : forall c, 0 <= ratioRefl startStep stopStep c <= 1).
  { intros c. unfold ratioRefl.
    destruct (Nat.leb_spec c startStep); [lra|].
    destruct (Nat.ltb_spec startStep c), (Nat.ltb_spec c stopStep); cbn [andb]; try lra.
    apply ratio_div_range; lia. }
  split; [apply Hr|]. intros H12.
  unfold ratioRefl at 2. destruct (Nat.leb_spec c1 startStep); [apply Hr|].
  destruct (Nat.ltb_spec startStep c1), (Nat.ltb_spec c1 stopStep); cbn [andb]; try lia.
  - unfold ratioRefl. destruct (Nat.leb_spec c2 startStep); [lia|].
    destruct (Nat.ltb_spec startStep c2), (Nat.ltb_spec c2 stopStep); cbn [andb]; try lia.
    + unfold Rdiv. apply Rmult_le_compat_r.
      * left. apply Rinv_0_lt_compat. apply lt_INR in H2. change (INR 0) with 0 in H2.
        replace (stopStep - startStep)%nat with (S (stopStep - startStep - 1)) by lia.
        apply lt_0_INR. lia.
      * apply le_INR. lia.
    + apply ratio_div_range; lia.
  - unfold ratioRefl. destruct (Nat.leb_spec c2 startStep); [lia|].
    destruct (Nat.ltb_spec startStep c2), (Nat.ltb_spec c2 stopStep); cbn [andb]; lra || lia.
Qed.

Lemma rampingStep_before_start rnd dir tc start stop treatment cur p st :
  (cur <= start)%nat -> (forall n, rnd n <= 1) ->
  forall f st', rampingStep rnd dir tc start stop treatment cur p st = Some (f, st') ->
  f = Keep (if skipComp tc p || (isRight dir && Rltb (vy p) 0) || (isLeft dir && Rltb 0 (vy p))
            then p else setVy p (- vy p)).
Proof.
  intros Hc Hr f st' H. unfold rampingStep in H.
  destruct (skipComp tc p); cbn [orb] in *; [injection H as <- _; reflexivity|].
  destruct (isRight dir && Rltb (vy p) 0 || isLeft dir && Rltb 0 (vy p));
    [injection H as <- _; reflexivity|].
  assert (Hle : Rleb (rnd (rndIdx st)) (ratioRefl start stop cur) = true).
  { apply Rleb_spec. unfold ratioRefl. destruct (Nat.leb_spec cur start); [apply Hr|lia]. }
  rewrite Hle in H. destruct (count _ _); [|discriminate]. injection H as <- _. reflexivity.
Qed.

Lemma runLoop_map step (g : Particle -> Particle) ps st out st' :
  (forall p st f st', step p st = Some (f, st') -> f = Keep (g p)) ->
  runLoop step ps st = Some (out, st') -> out = map g ps.
Proof.
  intros Hs. revert st out. induction ps as [|p rest IH]; intros st out H; cbn [runLoop] in H.
  - injection H as <- <-. reflexivity.
  - destruct (step p st) as [[f s1]|] eqn:E; [|discriminate].
    destruct (runLoop step rest s1) as [[out1 s2]|] eqn:E2; [|discriminate].
    injection H as <- <-. rewrite (Hs _ _ _ _ E). cbn [map]. f_equal. exact (IH _ _ E2).
Qed.

Lemma rampingStep_keep rnd dir tc start stop treatment cur :
  treatment <> 0%nat ->
  forall p st f st', rampingStep rnd dir tc start stop treatment cur p st = Some (f, st') ->
    exists q, f = Keep q /\ deleted st' = deleted st.
Proof.
  intros Ht p st f st' H. unfold rampingStep in H.
  destruct (skipComp tc p); [injection H as <- <-; eexists; split; reflexivity|].
  destruct (_ || _); [injection H as <- <-; eexists; split; reflexivity|].
  destruct (Rleb _ _).
  - cbn [reflected] in H.
    destruct (count (reflected st) (S (componentid p))) as [l'|]; [|discriminate].
    injection H as <- <-. eexists; split; reflexivity.
  - apply Nat.eqb_neq in Ht. rewrite Ht in H. injection H as <- <-. eexists; split; reflexivity.
Qed.

(** Up to the ramping start step every particle the [MT_RAMPING] pass
    handles (targeted, not moving away from the mirror) is reflected, its
    [vy] negated, and no particle is deleted, given that [_rnd->rnd()]
    returns numbers up to 1; when the mirror plane lies outside the
    container the particles are left as they are. *)
Theorem beforeForcesRamping_before_start rnd dir coord tc start stop treatment cur bmin bmax
    visited st out st' :
  (cur <= start)%nat -> (forall n, rnd n <= 1) ->
  beforeForcesRamping rnd dir coord tc start stop treatment cur bmin bmax visited st = Some (out, st') ->
  out = if mirrorInBox dir coord bmin bmax
        then map (fun p => if skipComp tc p || (isRight dir && Rltb (vy p) 0)
                              || (isLeft dir && Rltb 0 (vy p))
                           then p else setVy p (- vy p)) visited
        else visited.
Proof.
  intros Hc Hr H. unfold beforeForcesRamping in H.
  destruct (mirrorInBox dir coord bmin bmax).
  - refine (runLoop_map _ _ _ _ _ _ _ H).
    intros p s f s' E. exact (rampingStep_before_start rnd dir tc start stop treatment cur p s Hc Hr f s' E).
  - injection H as <- _. reflexivity.
Qed.

(** The [MT_RAMPING] pass keeps its counters consistent: slot 0 of the local
    reflected and deleted counters holds the sum of the per-component slots,
    the deleted total is the number of particles removed, and with a
    [treatment] other than 0 no particle is removed at all. *)
Theorem beforeForcesRamping_counters rnd dir coord tc start stop treatment cur bmin bmax
    visited st out st' :
  mirrorInBox dir coord bmin bmax = true ->
  beforeForcesRamping rnd dir coord tc start stop treatment cur bmin bmax visited st = Some (out, st') ->
  nth 0 (reflected st') 0%nat = list_sum (tl (reflected st')) /\
  nth 0 (deleted st') 0%nat = list_sum (tl (deleted st')) /\
  (List.length out + nth 0 (deleted st') 0 = List.length visited)%nat /\
  (treatment <> 0%nat -> List.length out = List.length visited /\
                         deleted st' = map (fun _ => 0%nat) (deleted st)).
Proof.
  intros Hg H. unfold beforeForcesRamping in H. rewrite Hg in H.
  destruct (runLoop_counts _ _ _ _ _ (ramping_stepCounts rnd dir tc start stop treatment cur) H
              (totalOk_reset _) (totalOk_reset _)) as (X1 & X2 & X3).
  cbn [resetCounters deleted] in X3. rewrite nth0_reset in X3.
  split; [exact X1|]. split; [exact X2|]. split; [lia|].
  intros Ht. exact (runLoop_keep _ _ _ _ _ (rampingStep_keep rnd dir tc start stop treatment cur Ht) H).
Qed.

Lemma dir_not_both d : isRight d = true -> isLeft d = false.
Proof. destruct d; cbn; congruence. Qed.

Lemma velocityChangeBody_reflect_away dir tc coord fc p :
  let q := velocityChangeBody MT_REFLECT dir tc coord fc p in
  skipComp tc q = false -> (isRight dir = true -> vy q <= 0) /\ (isLeft dir = true -> 0 <= vy q).
Proof.
  unfold velocityChangeBody. cbv zeta.
  destruct (skipComp tc p) eqn:Hs; [congruence|]. intros _.
  destruct (isRight dir) eqn:Hr, (isLeft dir) eqn:Hl; cbn [andb orb];
    try (destruct dir; discriminate).
  - destruct (Rltb 0 (vy p)) eqn:E; cbn [orb andb vy setVy].
    + apply Rltb_spec in E. split; intros; [lra|discriminate].
    + split; [intros _|discriminate]. destruct (Rltb_spec 0 (vy p)) as [_ Hx].
      destruct (Rle_dec (vy p) 0); [assumption|]. exfalso. assert (0 < vy p) by (apply Rnot_le_lt; assumption).
      rewrite Hx in E by assumption. discriminate.
  - destruct (Rltb (vy p) 0) eqn:E; cbn [orb andb vy setVy].
    + apply Rltb_spec in E. split; intros; [discriminate|lra].
    + split; [discriminate|intros _]. destruct (Rltb_spec (vy p) 0) as [_ Hx].
      destruct (Rle_dec 0 (vy p)); [assumption|]. exfalso. assert (vy p < 0) by (apply Rnot_le_lt; assumption).
      rewrite Hx in E by assumption. discriminate.
  - split; discriminate.
Qed.

(** After the [MT_REFLECT] pass of [Mirror::VelocityChange] (mirror plane
    inside the container) no targeted particle moves towards the mirror:
    for a right mirror its [vy] is at most 0, for a left mirror at least 0. *)
Theorem VelocityChange_reflect_away dir tc coord fc bmin bmax visited :
  mirrorInBox dir coord bmin bmax = true ->
  Forall (fun q => skipComp tc q = false ->
                   (isRight dir = true -> vy q <= 0) /\ (isLeft dir = true -> 0 <= vy q))
    (VelocityChange MT_REFLECT dir tc coord fc bmin bmax visited).
Proof.
  intros Hg. unfold VelocityChange. rewrite Hg. apply Forall_forall.
  intros q Hq. apply in_map_iff in Hq. destruct Hq as (p & <- & _).
  exact (velocityChangeBody_reflect_away dir tc coord fc p).
Qed.

(** The [MT_REFLECT] pass of [Mirror::VelocityChange] is idempotent: a
    second pass over its result changes nothing. *)
Theorem VelocityChange_reflect_idempotent dir tc coord fc bmin bmax visited :
  VelocityChange MT_REFLECT dir tc coord fc bmin bmax
    (VelocityChange MT_REFLECT dir tc coord fc bmin bmax visited)
  = VelocityChange MT_REFLECT dir tc coord fc bmin bmax visited.
Proof.
  unfold VelocityChange. destruct (mirrorInBox dir coord bmin bmax); [|reflexivity].
  rewrite map_map. apply map_ext. intros p. unfold velocityChangeBody.
  destruct (skipComp tc p) eqn:Hs; [rewrite Hs; reflexivity|].
  destruct (isRight dir && Rltb 0 (vy p) || isLeft dir && Rltb (vy p) 0) eqn:E.
  - assert (Hs' : skipComp tc (setVy p (- vy p)) = false) by exact Hs.
    rewrite Hs'. cbn [vy setVy].
    destruct (isRight dir) eqn:Hr, (isLeft dir) eqn:Hl; cbn [andb orb] in *;
      try (destruct dir; discriminate).
    + rewrite ?orb_false_r in E. apply Rltb_spec in E.
      destruct (Rltb 0 (- vy p)) eqn:E2; [apply Rltb_spec in E2; lra|reflexivity].
    + rewrite ?orb_false_r in E. apply Rltb_spec in E.
      destruct (Rltb (- vy p) 0) eqn:E2; [apply Rltb_spec in E2; lra|reflexivity].
  - rewrite Hs, E. reflexivity.
Qed.

(** With a non-negative [_forceConstant] the [MT_FORCE_CONSTANT] pass of
    [Mirror::VelocityChange] only adds to the y force of each particle, and
    what it adds points towards the mirror plane; identity, position and
    velocity stay as they are. *)
Theorem VelocityChange_force_restoring dir tc coord fc bmin bmax visited :
  0 <= fc ->
  Forall2 (fun p q => pid q = pid p /\ componentid q = componentid p /\ ry q = ry p /\
                      vy q = vy p /\ 0 <= (Fy q - Fy p) * (coord - ry p))
    visited (VelocityChange MT_FORCE_CONSTANT dir tc coord fc bmin bmax visited).
Proof.
  intros Hf. unfold VelocityChange.
  assert (Hid : forall p, 0 <= (Fy p - Fy p) * (coord - ry p))
    by (intros p; replace (Fy p - Fy p) with 0 by ring; lra).
  destruct (mirrorInBox dir coord bmin bmax).
  - induction visited as [|p rest IH]; constructor; [|exact IH].
    unfold velocityChangeBody. destruct (skipComp tc p); [repeat split; auto|].
    cbv zeta. cbn [pid componentid ry vy Fy addFy]. repeat split.
    replace (Fy p + fc * (coord - ry p) - Fy p) with (fc * (coord - ry p)) by ring.
    rewrite Rmult_assoc. apply Rmult_le_pos; [exact Hf|]. apply Rle_0_sqr.
  - induction visited as [|p rest IH]; constructor; [|exact IH]. repeat split; auto.
Qed.

(** [Mirror::getSubject] returns the cast of the last plugin named
    ["DistControl"] in the plugin list, nullptr when there is none. *)
Theorem getSubject_last {S : Type} (plugins : list (string * option S)) :
  getSubject plugins =
  match find (fun pc => String.eqb (fst pc) "DistControl") (rev plugins) with
  | Some (_, cast) => cast
  | None => None
  end.
Proof.
  unfold getSubject. induction plugins as [|[n c] rest IH] using rev_ind; [reflexivity|].
  rewrite fold_left_app, rev_app_distr. cbn [fold_left rev app find fst].
  destruct (String.eqb n "DistControl"); [reflexivity|]. exact IH.
Qed.

(** The position block of [Mirror::readXML] exits with code -1 exactly when
    the reference id, cast to [uint16_t], is not 0 and there is no
    [DistControl] plugin; the id only counts modulo 65536, and without a
    [DistControl] the mirror sits at [position/coord]. *)
Theorem readXMLPosition_refID {S : Type} (asDC : S -> option (R * R)) (id : Z) (coord : option R)
    (plugins : list (string * option S)) :
  (fst (readXMLPosition asDC (Some id) coord plugins) = SimExit (-1) <->
   (id mod 65536 <> 0)%Z /\ getSubject plugins = None) /\
  (fst (readXMLPosition asDC (Some id) coord plugins) = ReadOk <->
   (id mod 65536 = 0)%Z \/ getSubject plugins <> None) /\
  readXMLPosition asDC (Some (id + 65536)%Z) coord plugins = readXMLPosition asDC (Some id) coord plugins /\
  (getSubject plugins = None ->
   snd (readXMLPosition asDC (Some id) coord plugins) = match coord with Some c => c | None => 0 end).
Proof.
  assert (Hm : (0 <= id mod 65536)%Z) by (apply Z.mod_pos_bound; lia).
  unfold readXMLPosition.
  split; [|split; [|split]].
  - destruct (Z.ltb_spec 0 (id mod 65536)); destruct (getSubject plugins);
      cbn [fst]; (split;
      [intros H'; first [discriminate | split; [lia|reflexivity]]
      |intros H'; first [reflexivity | destruct H' as [H1 H2]; first [discriminate | lia]]]).
  - destruct (Z.ltb_spec 0 (id mod 65536)); destruct (getSubject plugins);
      cbn [fst]; (split;
      [intros H'; first [discriminate | left; lia | right; discriminate]
      |intros H'; first [reflexivity | destruct H' as [H'|H']; [lia|congruence]]]).
  - replace ((id + 65536) mod 65536)%Z with (id mod 65536)%Z; [reflexivity|].
    rewrite <- Z.add_mod_idemp_r by lia. rewrite Z.mod_same by lia. rewrite Z.add_0_r. reflexivity.
  - intros Hn. rewrite Hn. unfold update.
    destruct (0 <? id mod 65536)%Z; cbn [snd];
      destruct (id mod 65536)%Z; cbn;
      repeat (match goal with |- context [match ?x with _ => _ end] => destruct x end); ring.
Qed.

(** *** Witnesses *)

Lemma beforeForcesMeland_no_throw_witness :
  Forall (fun p => S (componentid p) < List.length (reflected (mkMState [0; 0]%nat [0; 0]%nat [] 0)) /\
                   S (componentid p) < List.length (deleted (mkMState [0; 0]%nat [0; 0]%nat [] 0)))%nat
    [mkParticle 7 0 1 1 0] /\
  exists out st', beforeForcesMeland (fun _ => 0) MD_RIGHT_MIRROR 0 1 0 0 false 0 (-1) 1
                    [mkParticle 7 0 1 1 0] (mkMState [0; 0]%nat [0; 0]%nat [] 0) = Some (out, st').
Proof.
  assert (H : Forall (fun p => S (componentid p) < List.length (reflected (mkMState [0; 0]%nat [0; 0]%nat [] 0)) /\
                   S (componentid p) < List.length (deleted (mkMState [0; 0]%nat [0; 0]%nat [] 0)))%nat
                [mkParticle 7 0 1 1 0]) by (repeat constructor).
  split; [exact H|]. exact (beforeForcesMeland_no_throw _ _ _ _ _ _ _ _ _ _ _ _ H).
Defined.

Local Ltac mirror_eval rw :=
  do 6 (cbn -[Rltb Rleb melandReflects melandReflectOrDelete]; try unfold melandReflectOrDelete; rw).

Lemma beforeForcesMeland_counters_witness :
  (isRight MD_RIGHT_MIRROR && Rltb (0 - 0) 1 || isLeft MD_RIGHT_MIRROR && Rltb (-1) (0 + 0)) = true /\
  beforeForcesMeland (fun n : nat => match n with O => 0 | S _ => 1 end) MD_RIGHT_MIRROR 0 1 0 1
    false 0 (-1) 1 [mkParticle 7 0 0 1 0; mkParticle 8 0 0 1 0] (mkMState [0; 0]%nat [0; 0]%nat [] 0)
  = Some ([mkParticle 7 0 0 (2 * 0 - 1) 0], mkMState [1; 1]%nat [1; 1]%nat [] 2) /\
  nth 0 [1; 1]%nat 0%nat = list_sum (tl [1; 1]%nat) /\
  (List.length [mkParticle 7 0 0 (2 * 0 - 1) 0] + nth 0 [1; 1]%nat 0
   = List.length [mkParticle 7 0 0 1 0; mkParticle 8 0 0 1 0])%nat.
Proof.
  assert (G : (isRight MD_RIGHT_MIRROR && Rltb (0 - 0) 1 || isLeft MD_RIGHT_MIRROR && Rltb (-1) (0 + 0))
              = true) by (apply orb_true_intro; left; cbn [isRight andb]; apply Rltb_spec; lra).
  assert (F1 : Rltb 1 0 = false) by (apply Rltb_false; lra).
  assert (F2 : Rltb (2 * 0 - 1) 0 = true) by (apply Rltb_spec; lra).
  assert (Z1 : Rltb 0 1 = true) by (apply Rltb_spec; lra).
  assert (F3 : melandReflects 1 (2 * 0 - 1) 1 0 = true)
    by (unfold melandReflects; rewrite Z1; reflexivity).
  assert (F4 : melandReflects 1 (2 * 0 - 1) 1 1 = false)
    by (unfold melandReflects; rewrite Z1; apply Rltb_false; lra).
  assert (E : beforeForcesMeland (fun n : nat => match n with O => 0 | S _ => 1 end) MD_RIGHT_MIRROR
                0 1 0 1 false 0 (-1) 1 [mkParticle 7 0 0 1 0; mkParticle 8 0 0 1 0]
                (mkMState [0; 0]%nat [0; 0]%nat [] 0)
              = Some ([mkParticle 7 0 0 (2 * 0 - 1) 0], mkMState [1; 1]%nat [1; 1]%nat [] 2)).
  { unfold beforeForcesMeland. rewrite G. mirror_eval ltac:(rewrite ?F1, ?F2, ?F3, ?F4). reflexivity. }
  split; [exact G|]. split; [exact E|].
  destruct (beforeForcesMeland_counters _ _ _ _ _ _ _ _ _ _ _ _ _ _ G E) as (_ & X2 & X3).
  split; [exact X2 | exact X3].
Defined.

Lemma melandStep_fate_witness :
  melandStep (fun _ => 0) MD_RIGHT_MIRROR 0 1 0 1 false 0 (mkParticle 7 0 0 1 0)
    (mkMState [0; 0]%nat [0; 0]%nat [] 0)
  = Some (Keep (mkParticle 7 0 0 (2 * 0 - 1) 0), mkMState [1; 1]%nat [0; 0]%nat [] 1) /\
  (Keep (mkParticle 7 0 0 (2 * 0 - 1) 0) = Keep (mkParticle 7 0 0 1 0) \/
   (Keep (mkParticle 7 0 0 (2 * 0 - 1) 0) = Keep (setVy (mkParticle 7 0 0 1 0) (2 * 0 - 1)) /\
    skipComp 1 (mkParticle 7 0 0 1 0) = false /\
    (isRight MD_RIGHT_MIRROR = true -> 0 <= 1) /\ (isLeft MD_RIGHT_MIRROR = true -> 1 <= 0) /\
    (isRight MD_RIGHT_MIRROR = true -> 2 * 0 - 1 < 0) /\
    (isLeft MD_RIGHT_MIRROR = true -> 0 < 2 * 0 - 1)) \/
   (Keep (mkParticle 7 0 0 (2 * 0 - 1) 0) = Delete /\ skipComp 1 (mkParticle 7 0 0 1 0) = false /\
    (isRight MD_RIGHT_MIRROR = true -> 0 <= 1) /\ (isLeft MD_RIGHT_MIRROR = true -> 1 <= 0))).
Proof.
  assert (F1 : Rltb 1 0 = false) by (apply Rltb_false; lra).
  assert (F2 : Rltb (2 * 0 - 1) 0 = true) by (apply Rltb_spec; lra).
  assert (Z1 : Rltb 0 1 = true) by (apply Rltb_spec; lra).
  assert (F3 : melandReflects 1 (2 * 0 - 1) 1 0 = true)
    by (unfold melandReflects; rewrite Z1; reflexivity).
  assert (E : melandStep (fun _ => 0) MD_RIGHT_MIRROR 0 1 0 1 false 0 (mkParticle 7 0 0 1 0)
                (mkMState [0; 0]%nat [0; 0]%nat [] 0)
              = Some (Keep (mkParticle 7 0 0 (2 * 0 - 1) 0), mkMState [1; 1]%nat [0; 0]%nat [] 1)).
  { unfold melandStep. mirror_eval ltac:(rewrite ?F1, ?F2, ?F3). reflexivity. }
  split; [exact E|]. exact (melandStep_fate _ _ _ _ _ _ _ _ _ _ _ _ E).
Defined.

Lemma beforeForcesRamping_before_start_witness :
  (0 <= 0)%nat /\ (forall n : nat, (fun _ : nat => 0) n <= 1) /\
  beforeForcesRamping (fun _ => 0) MD_RIGHT_MIRROR 0 1 0 4 1 0 (-1) 1
    [mkParticle 7 0 0 1 0] (mkMState [0; 0]%nat [0; 0]%nat [] 0)
  = Some ([mkParticle 7 0 0 (- 1) 0], mkMState [1; 1]%nat [0; 0]%nat [] 1) /\
  [mkParticle 7 0 0 (- 1) 0] =
  (if mirrorInBox MD_RIGHT_MIRROR 0 (-1) 1
   then map (fun p => if skipComp 1 p || (isRight MD_RIGHT_MIRROR && Rltb (vy p) 0)
                         || (isLeft MD_RIGHT_MIRROR && Rltb 0 (vy p))
                      then p else setVy p (- vy p)) [mkParticle 7 0 0 1 0]
   else [mkParticle 7 0 0 1 0]).
Proof.
  assert (H1 : (0 <= 0)%nat) by lia.
  assert (H2 : forall n : nat, (fun _ : nat => 0) n <= 1) by (intros; cbv beta; lra).
  assert (G : mirrorInBox MD_RIGHT_MIRROR 0 (-1) 1 = true)
    by (unfold mirrorInBox; apply orb_true_intro; left; cbn [isRight andb]; apply Rltb_spec; lra).
  assert (F1 : Rltb 1 0 = false) by (apply Rltb_false; lra).
  assert (F2 : Rleb 0 1 = true) by (apply Rleb_spec; lra).
  assert (E : beforeForcesRamping (fun _ => 0) MD_RIGHT_MIRROR 0 1 0 4 1 0 (-1) 1
                [mkParticle 7 0 0 1 0] (mkMState [0; 0]%nat [0; 0]%nat [] 0)
              = Some ([mkParticle 7 0 0 (- 1) 0], mkMState [1; 1]%nat [0; 0]%nat [] 1)).
  { unfold beforeForcesRamping. rewrite G. unfold rampingStep. mirror_eval ltac:(rewrite ?F1, ?F2). reflexivity. }
  split; [exact H1|]. split; [exact H2|]. split; [exact E|].
  exact (beforeForcesRamping_before_start _ _ _ _ _ _ _ _ _ _ _ _ _ _ H1 H2 E).
Defined.

Lemma beforeForcesRamping_counters_witness :
  mirrorInBox MD_RIGHT_MIRROR 0 (-1) 1 = true /\
  beforeForcesRamping (fun n : nat => match n with O => 0 | S _ => 1 end) MD_RIGHT_MIRROR 0 1 0 4 0 5
    (-1) 1 [mkParticle 7 0 0 1 0; mkParticle 8 0 0 1 0] (mkMState [0; 0]%nat [0; 0]%nat [] 0)
  = Some ([mkParticle 7 0 0 (- 1) 0], mkMState [1; 1]%nat [1; 1]%nat [] 2) /\
  nth 0 [1; 1]%nat 0%nat = list_sum (tl [1; 1]%nat) /\
  (List.length [mkParticle 7 0 0 (- 1) 0] + nth 0 [1; 1]%nat 0
   = List.length [mkParticle 7 0 0 1 0; mkParticle 8 0 0 1 0])%nat.
Proof.
  assert (G : mirrorInBox MD_RIGHT_MIRROR 0 (-1) 1 = true)
    by (unfold mirrorInBox; apply orb_true_intro; left; cbn [isRight andb]; apply Rltb_spec; lra).
  assert (F1 : Rltb 1 0 = false) by (apply Rltb_false; lra).
  assert (F2 : Rleb 0 0 = true) by (apply Rleb_spec; lra).
  assert (F3 : Rleb 1 0 = false)
    by (destruct (Rleb 1 0) eqn:X; [apply Rleb_spec in X; lra | reflexivity]).
  assert (E : beforeForcesRamping (fun n : nat => match n with O => 0 | S _ => 1 end) MD_RIGHT_MIRROR
                0 1 0 4 0 5 (-1) 1 [mkParticle 7 0 0 1 0; mkParticle 8 0 0 1 0]
                (mkMState [0; 0]%nat [0; 0]%nat [] 0)
              = Some ([mkParticle 7 0 0 (- 1) 0], mkMState [1; 1]%nat [1; 1]%nat [] 2)).
  { unfold beforeForcesRamping. rewrite G. unfold rampingStep. mirror_eval ltac:(rewrite ?F1, ?F2, ?F3).
    reflexivity. }
  split; [exact G|]. split; [exact E|].
  destruct (beforeForcesRamping_counters _ _ _ _ _ _ _ _ _ _ _ _ _ _ G E) as (_ & X2 & X3 & _).
  split; [exact X2 | exact X3].
Defined.

Lemma ratioRefl_range_antitone_witness :
  (1 <= 3)%nat /\ ratioRefl 0 4 3 <= ratioRefl 0 4 1.
Proof.
  assert (H : (1 <= 3)%nat) by lia.
  split; [exact H|]. exact (proj2 (ratioRefl_range_antitone 0 4 1 3) H).
Defined.

Lemma VelocityChange_reflect_away_witness :
  mirrorInBox MD_RIGHT_MIRROR 0 (-1) 1 = true /\
  Forall (fun q => skipComp 0 q = false ->
                   (isRight MD_RIGHT_MIRROR = true -> vy q <= 0) /\
                   (isLeft MD_RIGHT_MIRROR = true -> 0 <= vy q))
    (VelocityChange MT_REFLECT MD_RIGHT_MIRROR 0 0 0 (-1) 1 [mkParticle 7 0 0 1 0]).
Proof.
  assert (G : mirrorInBox MD_RIGHT_MIRROR 0 (-1) 1 = true)
    by (unfold mirrorInBox; apply orb_true_intro; left; cbn [isRight andb]; apply Rltb_spec; lra).
  split; [exact G|]. exact (VelocityChange_reflect_away _ _ _ _ _ _ _ G).
Defined.

Lemma VelocityChange_force_restoring_witness :
  0 <= 2 /\
  Forall2 (fun p q => pid q = pid p /\ componentid q = componentid p /\ ry q = ry p /\
                      vy q = vy p /\ 0 <= (Fy q - Fy p) * (0 - ry p))
    [mkParticle 7 0 1 1 0]
    (VelocityChange MT_FORCE_CONSTANT MD_RIGHT_MIRROR 0 0 2 (-1) 1 [mkParticle 7 0 1 1 0]).
Proof.
  assert (H : 0 <= 2) by lra.
  split; [exact H|]. exact (VelocityChange_force_restoring _ _ _ _ _ _ _ H).
Defined.

Lemma readXMLPosition_refID_witness :
  getSubject (S := unit) [] = None /\
  snd (readXMLPosition (S := unit) (fun _ => None) (Some 1%Z) (Some 2) []) = 2.
Proof.
  assert (H : getSubject (S := unit) [] = None) by reflexivity.
  split; [exact H|].
  exact (proj2 (proj2 (proj2 (readXMLPosition_refID (fun _ => None) 1%Z (Some 2) []))) H).
Defined.

End MirrorDynFacts.

(* ------------------------------------------------------------------ *)
(** ** The pair kernels of [VCP1CLJRMM] together *)

Module KernelSummary.

Import LJ Kernels KernelFacts.
Local Open Scope R_scope.

(** Every pair kernel writes, for a masked-out lane, zero force (and zero
    torques) and leaves the potential, virial and reaction-field sums as
    they were. *)
Theorem kernels_masked_noop (mac : bool) (m1 r1 e1 m2 r2 e2 : vec3)
    (a1 a2 su sv srf eps_24 sig2 shift6 epsRFInvrc3 : R) :
  loopBodyLJ mac m1 r1 m2 r2 su sv false eps_24 sig2 shift6 = (zeroV, su, sv) /\
  loopBodyCharge mac m1 r1 a1 m2 r2 a2 su sv false = (zeroV, su, sv) /\
  loopBodyChargeDipole mac m1 r1 a1 m2 r2 e2 a2 su sv false = (zeroV, zeroV, su, sv) /\
  loopBodyDipole mac m1 r1 e1 a1 m2 r2 e2 a2 su sv srf false epsRFInvrc3
    = (zeroV, zeroV, zeroV, su, sv, srf) /\
  loopBodyChargeQuadrupole mac m1 r1 a1 m2 r2 e2 a2 su sv false = (zeroV, zeroV, su, sv) /\
  loopBodyDipoleQuadrupole mac m1 r1 e1 a1 m2 r2 e2 a2 su sv false
    = (zeroV, zeroV, zeroV, su, sv) /\
  loopBodyQuadrupole mac m1 r1 e1 a1 m2 r2 e2 a2 su sv false
    = (zeroV, zeroV, zeroV, su, sv).
Proof.
  exact (conj (loopBodyLJ_masked_noop mac m1 r1 m2 r2 su sv eps_24 sig2 shift6)
        (conj (loopBodyCharge_masked_noop mac m1 r1 a1 m2 r2 a2 su sv)
        (conj (loopBodyChargeDipole_masked_noop mac m1 r1 a1 m2 r2 e2 a2 su sv)
        (conj (loopBodyDipole_masked_noop mac m1 r1 e1 a1 m2 r2 e2 a2 su sv srf epsRFInvrc3)
        (conj (loopBodyChargeQuadrupole_masked_noop mac m1 r1 a1 m2 r2 e2 a2 su sv)
        (conj (loopBodyDipoleQuadrupole_masked_noop mac m1 r1 e1 a1 m2 r2 e2 a2 su sv)
              (loopBodyQuadrupole_masked_noop mac m1 r1 e1 a1 m2 r2 e2 a2 su sv))))))).
Qed.

(** Every torque a pair kernel returns for a dipole or a quadrupole is
    perpendicular to that site's orientation vector. *)
Theorem kernels_torque_perp (mac mask : bool) (m1 r1 e1 m2 r2 e2 : vec3)
    (a1 a2 su sv srf epsRFInvrc3 : R) :
  (let '(_, M, _, _) := loopBodyChargeDipole mac m1 r1 a1 m2 r2 e2 a2 su sv mask in
   dot M e2 = 0) /\
  (let '(_, M1, M2, _, _, _) :=
     loopBodyDipole mac m1 r1 e1 a1 m2 r2 e2 a2 su sv srf mask epsRFInvrc3 in
   dot M1 e1 = 0 /\ dot M2 e2 = 0) /\
  (let '(_, M, _, _) := loopBodyChargeQuadrupole mac m1 r1 a1 m2 r2 e2 a2 su sv mask in
   dot M e2 = 0) /\
  (let '(_, M1, M2, _, _) := loopBodyDipoleQuadrupole mac m1 r1 e1 a1 m2 r2 e2 a2 su sv mask in
   dot M1 e1 = 0 /\ dot M2 e2 = 0) /\
  (let '(_, M1, M2, _, _) := loopBodyQuadrupole mac m1 r1 e1 a1 m2 r2 e2 a2 su sv mask in
   dot M1 e1 = 0 /\ dot M2 e2 = 0).
Proof.
  exact (conj (loopBodyChargeDipole_torque_perp mac m1 r1 a1 m2 r2 e2 a2 su sv mask)
        (conj (loopBodyDipole_torque_perp mac m1 r1 e1 a1 m2 r2 e2 a2 su sv srf mask epsRFInvrc3)
        (conj (loopBodyChargeQuadrupole_torque_perp mac m1 r1 a1 m2 r2 e2 a2 su sv mask)
        (conj (loopBodyDipoleQuadrupole_torque_perp mac m1 r1 e1 a1 m2 r2 e2 a2 su sv mask)
              (loopBodyQuadrupole_torque_perp mac m1 r1 e1 a1 m2 r2 e2 a2 su sv mask))))).
Qed.

(** The Lennard-Jones, dipole-dipole and quadrupole-quadrupole kernels are
    symmetric in their two sites: swapping them negates the force and adds
    the same potential, virial and reaction-field contribution. *)
Theorem kernels_swap (mac mask : bool) (m1 r1 e1 m2 r2 e2 : vec3)
    (a1 a2 su sv srf eps_24 sig2 shift6 epsRFInvrc3 : R) :
  (let '(f, su', sv') := loopBodyLJ mac m1 r1 m2 r2 su sv mask eps_24 sig2 shift6 in
   loopBodyLJ mac m2 r2 m1 r1 su sv mask eps_24 sig2 shift6 = (vneg f, su', sv')) /\
  (let '(f, _, _, su', sv', srf') :=
     loopBodyDipole mac m1 r1 e1 a1 m2 r2 e2 a2 su sv srf mask epsRFInvrc3 in
   let '(f', _, _, su'', sv'', srf'') :=
     loopBodyDipole mac m2 r2 e2 a2 m1 r1 e1 a1 su sv srf mask epsRFInvrc3 in
   f' = vneg f /\ su'' = su' /\ sv'' = sv' /\ srf'' = srf') /\
  (let '(f, _, _, su', sv') := loopBodyQuadrupole mac m1 r1 e1 a1 m2 r2 e2 a2 su sv mask in
   let '(f', _, _, su'', sv'') := loopBodyQuadrupole mac m2 r2 e2 a2 m1 r1 e1 a1 su sv mask in
   f' = vneg f /\ su'' = su' /\ sv'' = sv').
Proof.
  exact (conj (loopBodyLJ_swap mac m1 r1 m2 r2 su sv mask eps_24 sig2 shift6)
        (conj (loopBodyDipole_swap mac m1 r1 e1 a1 m2 r2 e2 a2 su sv srf mask epsRFInvrc3)
              (loopBodyQuadrupole_swap mac m1 r1 e1 a1 m2 r2 e2 a2 su sv mask))).
Qed.

End KernelSummary.
